(** * Objects.js: structural operations on JSON-like data

    A shallow embedding of the recursive operations of [dist/Objects.js]
    ([get], [compactObject], [stringifyCircularJSON], [unflattenObject],
    [walkThrough]) together with the part of the JavaScript host they rely
    on (truthiness, [typeof], [Number] applied to a string, property
    reads and assignments, [Object.keys], [JSON.stringify] with a
    replacer).

    Conventions of the model.
    - Strings are sequences of code units below 256 ([string]).
    - Numbers are the integers a double holds exactly ([VNum z]) and
      [NaN] ([VNaN]).
    - An object is its list of own enumerable properties in the order
      [Object.keys] reports them: array-index keys ascending, then the
      other keys in insertion order.  An array carries its [length] beside
      its properties; a missing index below [length] is a hole.
    - A property read or assignment follows the prototype chain as the
      language does.  The values of the model have the built-in
      prototypes; the members they inherit are functions or accessors,
      which are no values of the model: [read] ends with [OutOfModel]
      when it reaches one, so that nothing is stated about such a read.
      An assignment to [__proto__] reaches the accessor of
      [Object.prototype] and creates no property.
    - The module is compiled in strict mode ("use strict"): creating a
      property on a primitive throws a [TypeError].
    - [compactObject], [unflattenObject], [walkThrough] and [get] are
      modelled over trees; [stringifyCircularJSON] over a store of
      containers with identities, where sharing and cycles are visible.
    - The operations over collections and over CSV text ([deepMerge],
      [renameKeys], [countBy], [groupBy], [JSONtoCSV], [CSVToJSON]) are
      modelled over trees too.  The caller's function is a function of
      the model; [columns] is a list of strings, [data] and [delimiter]
      are strings. *)

From Stdlib Require Import ZArith NArith String Ascii List.
From Stdlib Require Import Decimal DecimalString DecimalN.
From stdpp Require Import base option list gmap strings.

Open Scope string_scope.
Open Scope list_scope.

(** ** The host: values, errors, coercions *)

Module JS.

Inductive js_error : Type := TypeError | RangeError.

(** Result of running a piece of code: a value, a thrown exception, a
    step whose result is no value of the model ([OutOfModel]: a read
    that reaches a built-in function or accessor, a number the model
    does not carry), or a recursion cut off by its bound ([OutOfFuel]). *)
Inductive outcome (A : Type) : Type :=
| Ok (a : A)
| Throw (e : js_error)
| OutOfModel
| OutOfFuel.
Arguments Ok {A} a.
Arguments Throw {A} e.
Arguments OutOfModel {A}.
Arguments OutOfFuel {A}.

Definition bind {A B : Type} (m : outcome A) (f : A -> outcome B) : outcome B :=
  match m with
  | Ok a => f a
  | Throw e => Throw e
  | OutOfModel => OutOfModel
  | OutOfFuel => OutOfFuel
  end.

Inductive kind : Type :=
| Plain
| Arr (len : N).

Unset Elimination Schemes.
Inductive value : Type :=
| VUndef
| VNull
| VBool (b : bool)
| VNum (z : Z)
| VNaN
| VStr (s : string)
| VObj (k : kind) (props : list (string * value)).
Set Elimination Schemes.

Definition props : Type := list (string * value).

(** [Boolean(v)] *)
Definition truthy (v : value) : bool :=
  match v with
  | VUndef | VNull | VNaN => false
  | VBool b => b
  | VNum z => negb (Z.eqb z 0)
  | VStr s => negb (String.eqb s EmptyString)
  | VObj _ _ => true
  end.

Inductive jstype : Type := TUndefined | TObject | TBoolean | TNumber | TString.

(** [typeof v]; note [typeof null === 'object']. *)
Definition typeof (v : value) : jstype :=
  match v with
  | VUndef => TUndefined
  | VNull => TObject
  | VBool _ => TBoolean
  | VNum _ | VNaN => TNumber
  | VStr _ => TString
  | VObj _ _ => TObject
  end.

Definition is_object_type (v : value) : bool :=
  match typeof v with TObject => true | _ => false end.

Definition is_container (v : value) : bool :=
  match v with VObj _ _ => true | _ => false end.

(** [Array.isArray(v)] *)
Definition isArray (v : value) : bool :=
  match v with
  | VObj (Arr _) _ => true
  | _ => false
  end.

(** *** Array indices

    A property key is an array index when it is the canonical decimal
    spelling of an integer below 2^32 - 1. *)

Definition index_limit : N := 4294967295.

Definition array_index (s : string) : option N :=
  match NilEmpty.uint_of_string s with
  | Some d =>
      if uint_eq_dec (unorm d) d
      then if (N.of_uint d <? index_limit)%N then Some (N.of_uint d) else None
      else None
  | None => None
  end.

(** [String(n)] for a non-negative integer. *)
Definition index_str (n : N) : string := NilEmpty.string_of_uint (N.to_uint n).

(** *** Own properties *)

Fixpoint lookup_prop (key : string) (ps : props) : option value :=
  match ps with
  | [] => None
  | (k, v) :: rest => if String.eqb k key then Some v else lookup_prop key rest
  end.

Fixpoint update_prop (key : string) (v : value) (ps : props) : props :=
  match ps with
  | [] => []
  | (k, w) :: rest =>
      if String.eqb k key then (k, v) :: rest else (k, w) :: update_prop key v rest
  end.

(** A new array-index key goes after the smaller indices and before
    everything else. *)
Fixpoint insert_index (i : N) (key : string) (v : value) (ps : props) : props :=
  match ps with
  | [] => [(key, v)]
  | (k, w) :: rest =>
      match array_index k with
      | Some j =>
          if (j <? i)%N then (k, w) :: insert_index i key v rest
          else (key, v) :: ps
      | None => (key, v) :: ps
      end
  end.

(** [o[key] = v] on the property list of an object. *)
Definition put (key : string) (v : value) (ps : props) : props :=
  match lookup_prop key ps with
  | Some _ => update_prop key v ps
  | None =>
      match array_index key with
      | Some i => insert_index i key v ps
      | None => ps ++ [(key, v)]
      end
  end.

Definition below (n : N) (p : string * value) : bool :=
  match array_index (fst p) with
  | Some i => (i <? n)%N
  | None => true
  end.

(** Assigning [length] of an array: the value must convert to an integer
    in [0, 2^32); elements at or beyond the new length are deleted. *)
Definition set_length (ps : props) (v : value) : outcome value :=
  let resize (n : N) := Ok (VObj (Arr n) (List.filter (below n) ps)) in
  match v with
  | VNum z =>
      if (0 <=? z)%Z && (z <? 4294967296)%Z then resize (Z.to_N z)
      else Throw RangeError
  | VNaN | VUndef => Throw RangeError
  | VNull => resize 0%N
  | VBool b => resize (if b then 1%N else 0%N)
  | VStr _ | VObj _ _ => OutOfModel
  end.

Definition char_at (s : string) (i : N) : value :=
  match String.get (N.to_nat i) s with
  | Some c => VStr (String c EmptyString)
  | None => VUndef
  end.

(** [o[key]] as far as the own properties of [o] decide it. *)
Definition get_prop (o : value) (key : string) : outcome value :=
  match o with
  | VUndef | VNull => Throw TypeError
  | VObj k ps =>
      match k with
      | Arr len =>
          if String.eqb key "length" then Ok (VNum (Z.of_N len))
          else Ok (default VUndef (lookup_prop key ps))
      | Plain => Ok (default VUndef (lookup_prop key ps))
      end
  | VStr s =>
      if String.eqb key "length" then Ok (VNum (Z.of_nat (String.length s)))
      else match array_index key with
           | Some i => Ok (char_at s i)
           | None => Ok VUndef
           end
  | VBool _ | VNum _ | VNaN => Ok VUndef
  end.

(** [o[key] = v] in strict mode where no accessor is met; the result is
    the updated [o]. *)
Definition set_prop (o : value) (key : string) (v : value) : outcome value :=
  match o with
  | VObj Plain ps => Ok (VObj Plain (put key v ps))
  | VObj (Arr len) ps =>
      if String.eqb key "length" then set_length ps v
      else
        let len' := match array_index key with
                    | Some i => N.max len (N.succ i)
                    | None => len
                    end in
        Ok (VObj (Arr len') (put key v ps))
  | VUndef | VNull | VBool _ | VNum _ | VNaN | VStr _ => Throw TypeError
  end.

(** *** Members inherited from the built-in prototypes

    The names of the string-keyed members of the built-in prototype
    objects (ECMAScript 2025 with its Annex B), all of them functions or
    accessors.  [length] of [Array.prototype] and [String.prototype] is
    left out: every array and every string has a [length] of its own. *)

Definition object_prototype_names : list string :=
  ["constructor"; "__defineGetter__"; "__defineSetter__"; "hasOwnProperty";
   "__lookupGetter__"; "__lookupSetter__"; "isPrototypeOf"; "propertyIsEnumerable";
   "toString"; "valueOf"; "__proto__"; "toLocaleString"].

Definition array_prototype_names : list string :=
  ["constructor"; "at"; "concat"; "copyWithin"; "entries"; "every"; "fill"; "filter";
   "find"; "findIndex"; "findLast"; "findLastIndex"; "flat"; "flatMap"; "forEach";
   "includes"; "indexOf"; "join"; "keys"; "lastIndexOf"; "map"; "pop"; "push";
   "reduce"; "reduceRight"; "reverse"; "shift"; "slice"; "some"; "sort"; "splice";
   "toLocaleString"; "toReversed"; "toSorted"; "toSpliced"; "toString"; "unshift";
   "values"; "with"].

Definition string_prototype_names : list string :=
  ["constructor"; "anchor"; "at"; "big"; "blink"; "bold"; "charAt"; "charCodeAt";
   "codePointAt"; "concat"; "endsWith"; "fixed"; "fontcolor"; "fontsize"; "includes";
   "indexOf"; "isWellFormed"; "italics"; "lastIndexOf"; "link"; "localeCompare";
   "match"; "matchAll"; "normalize"; "padEnd"; "padStart"; "repeat"; "replace";
   "replaceAll"; "search"; "slice"; "small"; "split"; "startsWith"; "strike"; "sub";
   "substr"; "substring"; "sup"; "toLocaleLowerCase"; "toLocaleUpperCase";
   "toLowerCase"; "toString"; "toUpperCase"; "toWellFormed"; "trim"; "trimEnd";
   "trimLeft"; "trimRight"; "trimStart"; "valueOf"].

Definition number_prototype_names : list string :=
  ["constructor"; "toExponential"; "toFixed"; "toLocaleString"; "toPrecision";
   "toString"; "valueOf"].

Definition boolean_prototype_names : list string :=
  ["constructor"; "toString"; "valueOf"].

(** Is [key] the name of a member of [Object.prototype]? *)
Definition builtin_name (key : string) : bool :=
  existsb (String.eqb key) object_prototype_names.

(** Is [key] the name of a member of some built-in prototype? *)
Definition member_name (key : string) : bool :=
  existsb (String.eqb key)
          (object_prototype_names ++ array_prototype_names ++ string_prototype_names
           ++ number_prototype_names ++ boolean_prototype_names).

(** Is [key] an own property of [o]? *)
Definition own (o : value) (key : string) : bool :=
  match o with
  | VObj k ps =>
      match lookup_prop key ps with
      | Some _ => true
      | None => match k with
                | Arr _ => String.eqb key "length"
                | Plain => false
                end
      end
  | VStr s =>
      String.eqb key "length"
      || match array_index key with
         | Some i => (i <? N.of_nat (String.length s))%N
         | None => false
         end
  | _ => false
  end.

(** The names [o] finds along its prototype chain: those of its own
    prototype, then those of [Object.prototype], where every chain ends. *)
Definition inherited_names (o : value) : list string :=
  match o with
  | VUndef | VNull => []
  | VObj Plain _ => object_prototype_names
  | VObj (Arr _) _ => array_prototype_names ++ object_prototype_names
  | VStr _ => string_prototype_names ++ object_prototype_names
  | VNum _ | VNaN => number_prototype_names ++ object_prototype_names
  | VBool _ => boolean_prototype_names ++ object_prototype_names
  end.

(** Does reading [o[key]] reach a member of a built-in prototype?  An
    own property of that name stands before it. *)
Definition inherited (o : value) (key : string) : bool :=
  negb (own o key) && existsb (String.eqb key) (inherited_names o).

(** [o[key]].  An inherited member is a built-in function or accessor,
    which is no value of the model. *)
Definition read (o : value) (key : string) : outcome value :=
  if inherited o key then OutOfModel else get_prop o key.

(** [o[key] = v] in strict mode.  [__proto__] is an accessor of
    [Object.prototype]: unless [o] has an own property of that name the
    assignment reaches its setter, which creates no property.  The
    setter makes [v] the prototype of [o] when [o] is an object and [v]
    an object or [null], and does nothing otherwise; the own properties
    of [o], which are what a tree holds, stay as they are.  The other
    inherited members are writable data properties, which an assignment
    shadows by an own property. *)
Definition write (o : value) (key : string) (v : value) : outcome value :=
  if String.eqb key "__proto__" && negb (own o key) then
    match o with
    | VUndef | VNull => Throw TypeError
    | _ => Ok o
    end
  else set_prop o key v.

(** *** Numbers *)

(** The integers up to 2^53 in magnitude: each is a double, and its
    decimal spelling is what [String] prints. *)
Definition safe (z : Z) : bool := (Z.abs z <=? 9007199254740992)%Z.

Fixpoint string_entries (i : N) (s : string) : props :=
  match s with
  | EmptyString => []
  | String c rest => (index_str i, VStr (String c EmptyString)) :: string_entries (N.succ i) rest
  end.

(** The pairs [(key, o[key])] for [key] of [Object.keys(o)]. *)
Definition entries (o : value) : outcome props :=
  match o with
  | VUndef | VNull => Throw TypeError
  | VObj _ ps => Ok ps
  | VStr s => Ok (string_entries 0 s)
  | VBool _ | VNum _ | VNaN => Ok []
  end.

Definition empty_object : value := VObj Plain [].
Definition empty_array : value := VObj (Arr 0) [].

Fixpoint index_from (i : N) (vs : list value) : props :=
  match vs with
  | [] => []
  | v :: rest => (index_str i, v) :: index_from (N.succ i) rest
  end.

(** The array literal [[v0, v1, ...]]. *)
Definition array_of (vs : list value) : value :=
  VObj (Arr (N.of_nat (List.length vs))) (index_from 0 vs).

End JS.

(** ** Text: path grammar and [Number] applied to a string *)

Module Text.

(** [s.split('.')]: never empty, [''.split('.')] is [['']]. *)
Fixpoint split_dot (s : string) : list string :=
  match s with
  | EmptyString => [EmptyString]
  | String c rest =>
      if Ascii.eqb c "." then EmptyString :: split_dot rest
      else match split_dot rest with
           | seg :: segs => String c seg :: segs
           | [] => [String c EmptyString]
           end
  end.

(** [p.join('.')] *)
Fixpoint join_dot (p : list string) : string :=
  match p with
  | [] => EmptyString
  | seg :: rest =>
      match rest with
      | [] => seg
      | _ :: _ => seg +:+ String "." (join_dot rest)
      end
  end.

(** Does the text after an opening bracket reach a closing bracket
    before any other bracket? *)
Fixpoint closes (s : string) : bool :=
  match s with
  | EmptyString => false
  | String c rest =>
      if Ascii.eqb c "]" then true
      else if Ascii.eqb c "[" then false
      else closes rest
  end.

(** The [replace] call of [get]: every bracket pair enclosing no bracket
    is rewritten, the opening and the closing bracket each becoming a dot.
    Matches are found left to right; [inside] holds between a matched
    opening bracket and its closing one. *)
Fixpoint replace_brackets (inside : bool) (s : string) : string :=
  match s with
  | EmptyString => EmptyString
  | String c rest =>
      if inside then
        if Ascii.eqb c "]" then String "." (replace_brackets false rest)
        else String c (replace_brackets true rest)
      else if Ascii.eqb c "[" && closes rest then String "." (replace_brackets true rest)
      else String c (replace_brackets false rest)
  end.

Definition nonempty (t : string) : bool := negb (String.eqb t EmptyString).

(** The segments of a selector. *)
Definition selector_path (s : string) : list string :=
  List.filter nonempty (split_dot (replace_brackets false s)).

(** *** Which strings [Number] converts to a number *)

Definition code_in (c : ascii) (lo hi : nat) : bool :=
  (lo <=? nat_of_ascii c)%nat && (nat_of_ascii c <=? hi)%nat.

Definition is_digit (c : ascii) : bool := code_in c 48 57.
Definition is_bin (c : ascii) : bool := code_in c 48 49.
Definition is_oct (c : ascii) : bool := code_in c 48 55.
Definition is_hex (c : ascii) : bool :=
  code_in c 48 57 || code_in c 65 70 || code_in c 97 102.

(** White space and line terminators among the code units below 256. *)
Definition is_space (c : ascii) : bool :=
  code_in c 9 13 || code_in c 32 32 || code_in c 160 160.

Fixpoint trim_start (s : string) : string :=
  match s with
  | EmptyString => EmptyString
  | String c rest => if is_space c then trim_start rest else s
  end.

Fixpoint trim_end (s : string) : string :=
  match s with
  | EmptyString => EmptyString
  | String c rest =>
      match trim_end rest with
      | EmptyString => if is_space c then EmptyString else String c EmptyString
      | t => String c t
      end
  end.

Fixpoint all_of (p : ascii -> bool) (s : string) : bool :=
  match s with
  | EmptyString => true
  | String c rest => p c && all_of p rest
  end.

(** One or more characters, all satisfying [p]. *)
Definition some_of (p : ascii -> bool) (s : string) : bool :=
  nonempty s && all_of p s.

Fixpoint span_digits (s : string) : nat * string :=
  match s with
  | EmptyString => (0%nat, EmptyString)
  | String c rest =>
      if is_digit c
      then let '(n, t) := span_digits rest in (S n, t)
      else (0%nat, s)
  end.

Definition unsign (s : string) : string :=
  match s with
  | String c rest => if Ascii.eqb c "+" || Ascii.eqb c "-" then rest else s
  | EmptyString => s
  end.

(** Optional exponent part, up to the end of the text. *)
Definition exponent_opt (s : string) : bool :=
  match s with
  | EmptyString => true
  | String c rest => (Ascii.eqb c "e" || Ascii.eqb c "E") && some_of is_digit (unsign rest)
  end.

Definition unsigned_decimal (s : string) : bool :=
  String.eqb s "Infinity" ||
  let '(n1, r1) := span_digits s in
  match r1 with
  | String "." r2 =>
      let '(n2, r3) := span_digits r2 in
      (0 <? n1 + n2)%nat && exponent_opt r3
  | _ => (0 <? n1)%nat && exponent_opt r1
  end.

Definition non_decimal (s : string) : bool :=
  match s with
  | String "0" (String x rest) =>
      ((Ascii.eqb x "b" || Ascii.eqb x "B") && some_of is_bin rest)
      || ((Ascii.eqb x "o" || Ascii.eqb x "O") && some_of is_oct rest)
      || ((Ascii.eqb x "x" || Ascii.eqb x "X") && some_of is_hex rest)
  | _ => false
  end.

(** [Number(s)] is a number (not [NaN]): blank text is 0, otherwise a
    signed decimal literal or an unsigned binary, octal or hex literal,
    surrounded by optional white space. *)
Definition number_parses (s : string) : bool :=
  let t := trim_end (trim_start s) in
  String.eqb t EmptyString || non_decimal t || unsigned_decimal (unsign t).

(** The spec's notion of a numeric segment, in its words: a non-negative
    base-10 integer with no leading zeros (except "0" itself). *)
Definition spec_numeric_segment (s : string) : bool :=
  match NilEmpty.uint_of_string s with
  | Some d => if uint_eq_dec (unorm d) d then true else false
  | None => false
  end.

(** [isNaN(Number(x))] where [x] is a string or [undefined] ([None]). *)
Definition isNaN_Number (x : option string) : bool :=
  match x with
  | None => true
  | Some s => negb (number_parses s)
  end.

End Text.

(** ** The functions of Objects.js over trees *)

Module Objects.
Import JS Text.

Notation "x <- m ;; k" := (bind m (fun x => k))
  (at level 100, m at next level, right associativity).

Fixpoint mapM {A B : Type} (f : A -> outcome B) (l : list A) : outcome (list B) :=
  match l with
  | [] => Ok []
  | a :: rest => b <- f a ;; bs <- mapM f rest ;; Ok (b :: bs)
  end.

(** Nesting depth of a tree, the bound on the recursion depth of the
    recursive functions below. *)
Fixpoint depth (v : value) : nat :=
  match v with
  | VObj _ ps => S (fold_right (fun kv d => let '(_, w) := kv in Nat.max (depth w) d) 0%nat ps)
  | _ => 0%nat
  end.

(** *** get *)

(** The reducer [(prev, cur) => prev && prev[cur]]. *)
Definition get_step (prev : outcome value) (cur : string) : outcome value :=
  p <- prev ;;
  if truthy p then read p cur else Ok p.

Definition get (from : value) (selectors : list string) : outcome (list value) :=
  mapM (fun s => fold_left get_step (selector_path s) (Ok from)) selectors.

(** *** compactObject *)

(** The elements of an array, in index order (holes skipped). *)
Definition elements (len : N) (ps : props) : list value :=
  omap (fun p : string * value =>
          match array_index (fst p) with
          | Some i => if (i <? len)%N then Some (snd p) else None
          | None => None
          end) ps.

(** [val.filter(Boolean)] on an array: a fresh dense array. *)
Definition filter_Boolean (val : value) : value :=
  match val with
  | VObj (Arr len) ps => array_of (List.filter truthy (elements len ps))
  | _ => val
  end.

(** The reducer of [compactObject]; [self] is the recursive reference
    [exports.compactObject]. *)
Definition compact_reducer (self : value -> outcome value)
    (acc : outcome value) (kv : string * value) : outcome value :=
  a <- acc ;;
  let '(key, value) := kv in
  if truthy value then
    w <- (if is_object_type value then self value else Ok value) ;;
    write a key w
  else Ok a.

(** The body of [compactObject]. *)
Definition compact_body (self : value -> outcome value) (val : value) : outcome value :=
  let data := if isArray val then filter_Boolean val else val in
  keyed <- entries data ;;
  fold_left (compact_reducer self) keyed
            (Ok (if isArray val then empty_array else empty_object)).

Fixpoint compact_fuel (fuel : nat) (val : value) : outcome value :=
  match fuel with
  | O => OutOfFuel
  | S n => compact_body (compact_fuel n) val
  end.

Definition compactObject (val : value) : outcome value :=
  compact_fuel (S (depth val)) val.

(** *** unflattenObject *)

(** The updated parent after its child under [e] was changed in place:
    a container is held by reference, a primitive is not changed. *)
Definition store_back (acc : value) (e : string) (child : value) : value :=
  match acc, child with
  | VObj k ps, VObj _ _ => VObj k (update_prop e child ps)
  | _, _ => acc
  end.

(** The inner [reduce]: walks the segments [keys] of one flat key down
    from [acc].  Each step evaluates [acc[e] || (acc[e] = fresh)] and goes
    on in its value; the result is [acc] as the walk leaves it. *)
Fixpoint nest (leaf : value) (keys : list string) (acc : value) : outcome value :=
  match keys with
  | [] => Ok acc
  | e :: rest =>
      cur <- read acc e ;;
      if truthy cur then
        cur' <- nest leaf rest cur ;;
        Ok (store_back acc e cur')
      else
        let fresh :=
          if isNaN_Number (head rest)
          then match rest with
               | [] => leaf
               | _ :: _ => empty_object
               end
          else empty_array in
        acc' <- write acc e fresh ;;
        fresh' <- nest leaf rest fresh ;;
        Ok (store_back acc' e fresh')
  end.

(** The outer reducer: one flat key and its value. *)
Definition unflatten_reducer (res : outcome value) (kv : string * value) : outcome value :=
  r <- res ;;
  let '(k, leaf) := kv in
  nest leaf (split_dot k) r.

Definition unflattenObject (obj : value) : outcome value :=
  keyed <- entries obj ;;
  fold_left unflatten_reducer keyed (Ok empty_object).

(** *** walkThrough *)

(** What a generator does when driven to its end: the pairs it yields,
    in order, ending normally or with an exception. *)
Inductive trace : Type :=
| Done
| Yield (path : list string) (v : value) (rest : trace)
| Raise (e : js_error).

(** Sequencing: what follows a raised exception is not run. *)
Fixpoint andThen (t k : trace) : trace :=
  match t with
  | Done => k
  | Yield p v rest => Yield p v (andThen rest k)
  | Raise e => Raise e
  end.

Fixpoint walk (x : value) (previous : list string) : trace :=
  match x with
  | VUndef | VNull => Raise TypeError
  | VObj _ ps =>
      fold_right
        (fun (kv : string * value) (k : trace) =>
           let '(key, v) := kv in
           andThen
             (if is_object_type v
              then walk v (previous ++ [key])
              else Yield (previous ++ [key]) v Done)
             k)
        Done ps
  | VStr s =>
      fold_right
        (fun (kv : string * value) (k : trace) =>
           Yield (previous ++ [fst kv]) (snd kv) k)
        Done (string_entries 0 s)
  | VBool _ | VNum _ | VNaN => Done
  end.

Definition walkThrough (obj : value) : trace := walk obj [].

(** [[...gen]]: the yielded pairs, unless the generator throws. *)
Fixpoint spread (t : trace) : outcome (list (list string * value)) :=
  match t with
  | Done => Ok []
  | Yield p v rest => l <- spread rest ;; Ok ((p, v) :: l)
  | Raise e => Throw e
  end.

(** The spec's [flatten], in its words: it collects the (path, value)
    pairs from the walker, each path joined with a dot. *)
Definition flatten (t : value) : outcome (list (string * value)) :=
  l <- spread (walkThrough t) ;;
  Ok (List.map (fun pv : list string * value => (join_dot (fst pv), snd pv)) l).

(** *** Representation invariant and the pruned tree *)

(** [key_before k1 k2]: [k1] may stand before [k2] in an object. *)
Definition key_before (k1 k2 : string) : bool :=
  match array_index k1, array_index k2 with
  | Some i, Some j => (i <? j)%N
  | Some _, None => true
  | None, Some _ => false
  | None, None => negb (String.eqb k1 k2)
  end.

(** Distinct keys, array indices first and ascending. *)
Fixpoint ordered (ks : list string) : bool :=
  match ks with
  | [] => true
  | k :: rest => forallb (key_before k) rest && ordered rest
  end.

Definition kind_fits (k : kind) (ps : props) : bool :=
  match k with
  | Plain => true
  | Arr len => (len <=? index_limit)%N && forallb (below len) ps
  end.

(** A tree is well formed when every object in it lists its properties
    as [Object.keys] would and every array index is below the length. *)
Fixpoint well_formed (v : value) : bool :=
  match v with
  | VObj k ps =>
      ordered (List.map fst ps) && kind_fits k ps
      && forallb (fun kv : string * value => let '(_, w) := kv in well_formed w) ps
  | _ => true
  end.

(** The members of a container: the values of a Mapping, the elements of
    a Sequence. *)
Definition members (v : value) : list value :=
  match v with
  | VObj Plain ps => List.map snd ps
  | VObj (Arr len) ps => elements len ps
  | _ => []
  end.

(** Is the member kept by the pruner?  Falsy values go, and so does
    what stands under the key [__proto__]. *)
Definition kept (kv : string * value) : bool :=
  truthy (snd kv) && negb (String.eqb (fst kv) "__proto__").

(** What pruning is to produce: falsy members dropped, the others kept
    in order with containers pruned in turn, Sequences re-indexed.  A
    member of a Mapping under the key [__proto__] is dropped as well. *)
Fixpoint prune (v : value) : value :=
  match v with
  | VObj Plain ps =>
      VObj Plain
        (omap (fun kv : string * value =>
                 let '(k, w) := kv in
                 if kept (k, w) then Some (k, prune w) else None) ps)
  | VObj (Arr len) ps =>
      array_of
        (omap (fun kv : string * value =>
                 let '(k, w) := kv in
                 match array_index k with
                 | Some i => if (i <? len)%N && truthy w then Some (prune w) else None
                 | None => None
                 end) ps)
  | _ => v
  end.


Fixpoint keys_from (i : N) (ks : list string) : bool :=
  match ks with
  | [] => true
  | k :: rest => String.eqb k (index_str i) && keys_from (N.succ i) rest
  end.


(** *** Flat mappings and the leaves of a tree *)

(** The pairs (path, value) at the leaves of a tree: what the walker is
    to yield when no leaf is [null]. *)
Fixpoint leaves (v : value) : list (list string * value) :=
  match v with
  | VObj _ ps =>
      flat_map
        (fun kv : string * value =>
           let '(key, w) := kv in
           if is_container w
           then List.map (fun pv : list string * value => (key :: fst pv, snd pv)) (leaves w)
           else [([key], w)])
        ps
  | _ => []
  end.

Definition entry_leaves (kv : string * value) : list (list string * value) :=
  let '(key, w) := kv in
  if is_container w
  then List.map (fun pv : list string * value => (key :: fst pv, snd pv)) (leaves w)
  else [([key], w)].

(** The trees [unflattenObject] builds from scalar leaves: distinct keys,
    only keys that [Number] converts in a Sequence, no empty container
    and no [null] below the root. *)
Unset Elimination Schemes.
Inductive good : value -> Prop :=
| good_container (k : kind) (ps : props) :
    List.NoDup (List.map fst ps) ->
    (forall key, isArray (VObj k ps) = true -> In key (List.map fst ps) ->
                 number_parses key = true) ->
    (forall key w, In (key, w) ps -> is_container w = true -> good w /\ leaves w <> []) ->
    (forall key w, In (key, w) ps -> is_container w = false -> is_object_type w = false) ->
    good (VObj k ps).
Set Elimination Schemes.

(** The paths of a flat mapping, each with its value. *)
Definition flat_paths (F : props) : list (list string * value) :=
  List.map (fun kv : string * value => (split_dot (fst kv), snd kv)) F.

(** No path is the beginning of another: each position of the nested
    tree is either a leaf or a container. *)
Definition prefix_free (L : list (list string * value)) : Prop :=
  forall p q v w, In (p, v) L -> In (q, w) L -> p `prefix_of` q -> p = q.

(** Below the root, the segments met at one position either all convert
    to a number or none does: no position is addressed both as a Sequence
    and as a Mapping. *)
Definition kind_consistent (L : list (list string * value)) : Prop :=
  forall p q v w pre s1 r1 s2 r2,
    In (p, v) L -> In (q, w) L -> pre <> [] ->
    p = pre ++ s1 :: r1 -> q = pre ++ s2 :: r2 ->
    number_parses s1 = number_parses s2.

(** [p] against the paths already in a tree. *)
Definition apart (p : list string) (L : list (list string * value)) : Prop :=
  forall q v, In (q, v) L -> ~ q `prefix_of` p /\ ~ p `prefix_of` q.

Definition agrees (p : list string) (L : list (list string * value)) : Prop :=
  forall q v pre s1 r1 s2 r2,
    In (q, v) L -> pre <> [] ->
    p = pre ++ s1 :: r1 -> q = pre ++ s2 :: r2 ->
    number_parses s1 = number_parses s2.

End Objects.

(** ** Containers with identity, and JSON.stringify *)

Module Json.
Import JS.

Notation "x <- m ;; k" := (bind m (fun x => k))
  (at level 100, m at next level, right associativity).

Definition addr : Type := nat.

(** A value as the serializer sees it: a primitive, or a reference to a
    container of the store. *)
Inductive ref_value : Type :=
| RUndef
| RNull
| RBool (b : bool)
| RNum (z : Z)
| RNaN
| RStr (s : string)
| RRef (a : addr).

Inductive container : Type :=
| CObject (members : list (string * ref_value))
| CArray (items : list ref_value).

Definition children (c : container) : list ref_value :=
  match c with
  | CObject ms => List.map snd ms
  | CArray vs => vs
  end.

(** *** Text of primitives *)

Definition hex_digit (n : nat) : ascii :=
  ascii_of_nat (if (n <? 10)%nat then 48 + n else 87 + n).

Definition backslash : ascii := ascii_of_nat 92.
Definition dquote : ascii := ascii_of_nat 34.

(** A backslash followed by [c]. *)
Definition esc (c : ascii) : string := String backslash (String c EmptyString).

Definition escape_char (c : ascii) : string :=
  let n := nat_of_ascii c in
  if (n =? 8)%nat then esc "b"
  else if (n =? 9)%nat then esc "t"
  else if (n =? 10)%nat then esc "n"
  else if (n =? 12)%nat then esc "f"
  else if (n =? 13)%nat then esc "r"
  else if (n =? 34)%nat then esc dquote
  else if (n =? 92)%nat then esc backslash
  else if (n <? 32)%nat
       then esc "u" +:+ "00"
            +:+ String (hex_digit (n / 16)) (String (hex_digit (n mod 16)) EmptyString)
       else String c EmptyString.

Fixpoint escape (s : string) : string :=
  match s with
  | EmptyString => EmptyString
  | String c rest => escape_char c +:+ escape rest
  end.

(** QuoteJSONString *)
Definition quote (s : string) : string :=
  String dquote (escape s +:+ String dquote EmptyString).

(** *** Text of a number *)

(** The double nearest to the positive integer [x]: [x] itself up to
    2^53; beyond, the doubles are the multiples of [2^e] with a
    significand of 53 bits, and a tie goes to the even significand. *)
Definition to_double (x : Z) : Z :=
  let e := (Z.log2 x - 52)%Z in
  if (e <=? 0)%Z then x
  else
    let q := Z.shiftr x e in
    let r := (x - Z.shiftl q e)%Z in
    let half := Z.shiftl 1 (e - 1) in
    let up := (half <? r)%Z || ((half =? r)%Z && Z.odd q) in
    Z.shiftl (if up then q + 1 else q)%Z e.

(** The decimal [s * 10^(n-k)] of fewest digits [k] whose nearest double
    is [x]; of two with as few digits the one closer to [x], and of two
    as close the one with [s] even.  [n] is the number of digits of [x];
    the search goes upwards from [k]. *)
Fixpoint shortest (fuel k n : nat) (x : Z) : Z :=
  match fuel with
  | O => x
  | S f =>
      let step := (10 ^ Z.of_nat (n - k))%Z in
      let c1 := (x / step * step)%Z in
      let c2 := (c1 + step)%Z in
      let ok1 := (to_double c1 =? x)%Z in
      let ok2 := (to_double c2 =? x)%Z in
      if ok1 && ok2 then
        if (x - c1 <? c2 - x)%Z then c1
        else if (c2 - x <? x - c1)%Z then c2
        else if Z.even (x / step) then c1 else c2
      else if ok1 then c1
      else if ok2 then c2
      else shortest f (S k) n x
  end.

Fixpoint strip_zeros (rev_digits : list ascii) : list ascii :=
  match rev_digits with
  | c :: rest => if Ascii.eqb c "0" then strip_zeros rest else rev_digits
  | [] => []
  end.

(** The significant digits of a text of digits: no zero at the end. *)
Definition significant (s : string) : string :=
  string_of_list_ascii (rev (strip_zeros (rev (list_ascii_of_string s)))).

(** The text of a positive integer that has a short decimal: as it
    stands up to 21 digits, in exponent notation beyond. *)
Definition decimal_text (v : Z) : string :=
  let ds := index_str (Z.to_N v) in
  let n := String.length ds in
  if (n <=? 21)%nat then ds
  else
    match significant ds with
    | String d rest =>
        String d (match rest with
                  | EmptyString => EmptyString
                  | String _ _ => String "." rest
                  end)
        +:+ "e+" +:+ index_str (N.of_nat (n - 1))
    | EmptyString => ds
    end.

Definition positive_text (x : Z) : string :=
  if safe x then index_str (Z.to_N x)
  else
    let d := to_double x in
    if (2 ^ 1024 <=? d)%Z then "Infinity"
    else
      let n := String.length (index_str (Z.to_N d)) in
      decimal_text (shortest n 1 n d).

(** [String(z)] for an integer: its digits up to 2^53, where every
    integer is a double; beyond, the shortest decimal that designates
    the double [z] (an integer that no double holds is printed as the
    double nearest to it, the number its literal denotes). *)
Definition number_text (z : Z) : string :=
  match z with
  | Zneg p => String "-" (positive_text (Zpos p))
  | _ => positive_text z
  end.

Fixpoint join_comma (parts : list string) : string :=
  match parts with
  | [] => EmptyString
  | p :: rest =>
      match rest with
      | [] => p
      | _ :: _ => p +:+ String "," (join_comma rest)
      end
  end.

Definition wrap (opening closing : string) (parts : list string) : string :=
  opening +:+ join_comma parts +:+ closing.

(** A property serialized: its key and its text, [None] for [undefined]. *)
Definition serialized : Type := string * option string.

(** A member of an object; a member whose value serialized to
    [undefined] has no text. *)
Definition member_text (kr : serialized) : option string :=
  match snd kr with
  | Some text => Some (quote (fst kr) +:+ String ":" text)
  | None => None
  end.

(** An item of an array; [undefined] is written [null]. *)
Definition item_text (kr : serialized) : string := default "null" (snd kr).

Definition object_text (rs : list serialized) : string :=
  wrap "{" "}" (omap member_text rs).

Definition array_text (rs : list serialized) : string :=
  wrap "[" "]" (List.map item_text rs).

Fixpoint items_from (i : N) (vs : list ref_value) : list (string * ref_value) :=
  match vs with
  | [] => []
  | v :: rest => (index_str i, v) :: items_from (N.succ i) rest
  end.

(** The properties the serializer visits, in order: the members of an
    object, the items of an array under their indices. *)
Definition properties (c : container) : list (string * ref_value) :=
  match c with
  | CObject ms => ms
  | CArray vs => items_from 0 vs
  end.

Definition container_text (c : container) (rs : list serialized) : string :=
  match c with
  | CObject _ => object_text rs
  | CArray _ => array_text rs
  end.

(** *** JSON.stringify(value, replacer)

    The replacer is a function with captured state [St]; it receives the
    key and the value and returns the value to serialize.  A missing
    replacer is the identity.  [stack] is the serializer's own list of the
    containers being serialized, against which it detects cycles. *)

Section Stringify.
Context {St : Type}.
Variable replacer : St -> string -> ref_value -> St * ref_value.
Variable h : gmap addr container.

(** Serializes the properties of a container one after the other. *)
Fixpoint ser_each (ser : St -> string -> ref_value -> outcome (St * option string))
    (st : St) (kvs : list (string * ref_value)) : outcome (St * list serialized) :=
  match kvs with
  | [] => Ok (st, [])
  | (k, v) :: rest =>
      r <- ser st k v ;;
      rs <- ser_each ser (fst r) rest ;;
      Ok (fst rs, (k, snd r) :: snd rs)
  end.

(** SerializeJSONProperty, after the holder's property was read. *)
Fixpoint ser_property (fuel : nat) (stack : list addr)
    (st : St) (key : string) (v : ref_value) : outcome (St * option string) :=
  match fuel with
  | O => OutOfFuel
  | S n =>
      let '(st1, v1) := replacer st key v in
      match v1 with
      | RUndef => Ok (st1, None)
      | RNull => Ok (st1, Some "null")
      | RBool b => Ok (st1, Some (if b then "true" else "false"))
      | RNum z => Ok (st1, Some (number_text z))
      | RNaN => Ok (st1, Some "null")
      | RStr s => Ok (st1, Some (quote s))
      | RRef a =>
          match h !! a with
          | None => OutOfModel
          | Some c =>
              if bool_decide (a ∈ stack) then Throw TypeError
              else
                rs <- ser_each (ser_property n (a :: stack)) st1 (properties c) ;;
                Ok (fst rs, Some (container_text c (snd rs)))
          end
      end
  end.

(** The text, or [None] when the result is [undefined].  No chain of
    nested containers is longer than the store. *)
Definition stringify_with (st : St) (obj : ref_value) : outcome (option string) :=
  r <- ser_property (S (size h)) [] st EmptyString obj ;;
  Ok (snd r).
End Stringify.

(** [JSON.stringify(obj)] without a replacer. *)
Definition no_replacer (st : unit) (k : string) (v : ref_value) : unit * ref_value :=
  (st, v).

Definition JSON_stringify (h : gmap addr container) (obj : ref_value) : outcome (option string) :=
  stringify_with no_replacer h tt obj.

(** The replacer of [stringifyCircularJSON]; its state is the [WeakSet]. *)
Definition circular_replacer (seen : gset addr) (k : string) (v : ref_value)
  : gset addr * ref_value :=
  match v with
  | RRef a =>
      if bool_decide (a ∈ seen) then (seen, RUndef)
      else ({[a]} ∪ seen, v)
  | _ => (seen, v)
  end.

Definition stringifyCircularJSON (h : gmap addr container) (obj : ref_value)
  : outcome (option string) :=
  stringify_with circular_replacer h ∅ obj.

(** *** Shapes of stores *)

Definition is_ref (v : ref_value) : bool :=
  match v with RRef _ => true | _ => false end.

(** Every reference designates a container of the store. *)
Definition closed_value (h : gmap addr container) (v : ref_value) : bool :=
  match v with
  | RRef a => match h !! a with Some _ => true | None => false end
  | _ => true
  end.

Definition closed (h : gmap addr container) : bool :=
  forallb (fun ac : addr * container => forallb (closed_value h) (children (snd ac)))
          (map_to_list h).

(** [forest h vs fp]: the values [vs] are the roots of trees laid out in
    the store [h]; the containers they reach are those of [fp], and each
    is reached along one path only (no sharing, no cycle). *)
Inductive forest (h : gmap addr container) : list ref_value -> gset addr -> Prop :=
| forest_nil : forest h [] ∅
| forest_prim (v : ref_value) (vs : list ref_value) (fp : gset addr) :
    is_ref v = false -> forest h vs fp -> forest h (v :: vs) fp
| forest_ref (a : addr) (c : container) (vs : list ref_value) (fp1 fp2 : gset addr) :
    h !! a = Some c ->
    forest h (children c) fp1 ->
    a ∉ fp1 ->
    forest h vs fp2 ->
    ({[a]} ∪ fp1) ## fp2 ->
    forest h (RRef a :: vs) ({[a]} ∪ fp1 ∪ fp2).

(** The outcome of the serializer without replacer, seen as an outcome of
    the serializer with the visited set [s] as final state. *)
Definition with_state {A : Type} (s : gset addr) (o : outcome (unit * A))
  : outcome (gset addr * A) :=
  match o with
  | Ok r => Ok (s, snd r)
  | Throw e => Throw e
  | OutOfModel => OutOfModel
  | OutOfFuel => OutOfFuel
  end.

End Json.

(** ** Cycles in a store *)

Module Cycles.
Import JS Json.

(** [reaches h a b]: the container at [a] holds the one at [b], or holds
    one that reaches it. *)
Inductive reaches (h : gmap addr container) : addr -> addr -> Prop :=
| reaches_child (a b : addr) (c : container) :
    h !! a = Some c -> In (RRef b) (children c) -> reaches h a b
| reaches_later (a m b : addr) (c : container) :
    h !! a = Some c -> In (RRef m) (children c) -> reaches h m b -> reaches h a b.

End Cycles.

(** ** Trees the walker completes on, keys a selector can name *)

Module Shapes.
Import JS Text Objects.

(** No [null] anywhere in the tree. *)
Fixpoint null_free (v : value) : bool :=
  match v with
  | VNull => false
  | VObj _ ps => forallb (fun kv : string * value => let '(_, w) := kv in null_free w) ps
  | _ => true
  end.

Definition is_bracket (c : ascii) : bool := Ascii.eqb c "[" || Ascii.eqb c "]".

Definition segment_char (c : ascii) : bool := negb (Ascii.eqb c "." || is_bracket c).

(** A segment a selector can name: not empty, no dot, no bracket. *)
Definition plain_segment (s : string) : bool :=
  nonempty s && all_of segment_char s.

(** A flat key a selector can name as it stands: no bracket, no empty
    segment. *)
Definition plain_key (k : string) : bool := forallb plain_segment (split_dot k).

(** Every key of the tree is a segment a selector can name; [length],
    which on an array reads the length, is not the key of an element. *)
Fixpoint addressable (v : value) : bool :=
  match v with
  | VObj k ps =>
      forallb (fun kv : string * value =>
                 let '(key, w) := kv in
                 plain_segment key
                 && match k with
                    | Arr _ => negb (String.eqb key "length")
                    | Plain => true
                    end
                 && addressable w) ps
  | _ => true
  end.

(** The keys of every object of the tree are distinct, and no element of
    an array stands under [length]. *)
Unset Elimination Schemes.
Inductive readable : value -> Prop :=
| readable_scalar (v : value) : is_container v = false -> readable v
| readable_container (k : kind) (ps : props) :
    List.NoDup (List.map fst ps) ->
    (isArray (VObj k ps) = true -> ~ In "length" (List.map fst ps)) ->
    (forall key w, In (key, w) ps -> readable w) ->
    readable (VObj k ps).
Set Elimination Schemes.

End Shapes.

(** ** The rest of the host: [ToString], array and string methods *)

Module Host.
Import JS Text Objects.

Definition assoc {A : Type} (key : string) (l : list (string * A)) : option A :=
  match List.find (fun p : string * A => String.eqb (fst p) key) l with
  | Some p => Some (snd p)
  | None => None
  end.

(** [String(v)], which is also the property key [v] stands for.  An
    object is converted by its inherited [toString]; an own property of
    that name is data, not a function, and the conversion fails.  An
    array is converted by [join], its elements in turn, [undefined],
    [null] and holes giving the empty text. *)
Fixpoint to_string (v : value) : outcome string :=
  match v with
  | VUndef => Ok "undefined"
  | VNull => Ok "null"
  | VBool b => Ok (if b then "true" else "false")
  | VNum z => if safe z then Ok (Json.number_text z) else OutOfModel
  | VNaN => Ok "NaN"
  | VStr s => Ok s
  | VObj k ps =>
      match lookup_prop "toString" ps with
      | Some _ => Throw TypeError
      | None =>
          match k with
          | Plain => Ok "[object Object]"
          | Arr len =>
              match lookup_prop "join" ps with
              | Some _ => Ok "[object Array]"
              | None =>
                  let texts :=
                    List.map (fun kv : string * value =>
                                let '(key, w) := kv in
                                (key, match w with
                                      | VUndef | VNull => Ok EmptyString
                                      | _ => to_string w
                                      end)) ps in
                  parts <- mapM (fun i : nat =>
                                   default (Ok EmptyString)
                                           (assoc (index_str (N.of_nat i)) texts))
                                (seq 0 (N.to_nat len)) ;;
                  Ok (Json.join_comma parts)
              end
          end
      end
  end.

(** [x + 1] *)
Definition plus_one (x : value) : outcome value :=
  match x with
  | VNum z => if safe (z + 1) then Ok (VNum (z + 1)) else OutOfModel
  | VNaN | VUndef => Ok VNaN
  | VNull => Ok (VNum 1)
  | VBool b => Ok (VNum (if b then 2 else 1))
  | VStr s => Ok (VStr (s +:+ "1"))
  | VObj _ _ => s <- to_string x ;; Ok (VStr (s +:+ "1"))
  end.

(** The indices an array method visits, with their elements: those
    present below [length], ascending. *)
Definition present (len : N) (ps : props) : list (N * value) :=
  omap (fun p : string * value =>
          match array_index (fst p) with
          | Some i => if (i <? len)%N then Some (i, snd p) else None
          | None => None
          end) ps.

(** The elements [vs] of an array literal with their indices, the first
    at [i]. *)
Fixpoint paired_from (i : N) (vs : list value) : list (N * value) :=
  match vs with
  | [] => []
  | v :: rest => (i, v) :: paired_from (N.succ i) rest
  end.

(** The elements of an array moved up by [n] places. *)
Definition shifted (n len : N) (ps : props) : props :=
  List.map (fun iv : N * value => (index_str (n + fst iv), snd iv)) (present len ps).

(** [x.concat(y)]: an array argument is spread, its holes kept; anything
    else is appended as one element.  Only arrays and strings have the
    method. *)
Definition concat (x y : value) : outcome value :=
  match x with
  | VObj (Arr len) ps =>
      match lookup_prop "concat" ps with
      | Some _ => Throw TypeError
      | None =>
          let '(n, tail) :=
            match y with
            | VObj (Arr len') ps' => ((len + len')%N, shifted len len' ps')
            | _ => (N.succ len, [(index_str len, y)])
            end in
          if (9007199254740991 <? n)%N then Throw TypeError
          else if (index_limit <? n)%N then Throw RangeError
          else Ok (VObj (Arr n) (shifted 0 len ps ++ tail))
      end
  | VStr s => t <- to_string y ;; Ok (VStr (s +:+ t))
  | _ => Throw TypeError
  end.

(** [arr.map(f)], as the pairs of an index present in [arr] and the
    result there; [f] receives the element, its index and [arr].  Only
    arrays have the method. *)
Definition array_map (f : value -> value -> value -> outcome value) (arr : value)
  : outcome (list (N * value)) :=
  match arr with
  | VObj (Arr len) ps =>
      match lookup_prop "map" ps with
      | Some _ => Throw TypeError
      | None =>
          mapM (fun iv : N * value =>
                  w <- f (snd iv) (VNum (Z.of_N (fst iv))) arr ;;
                  Ok (fst iv, w))
               (present len ps)
      end
  | _ => Throw TypeError
  end.

(** [[...new Set(keys)]]: each key once, at its first place. *)
Fixpoint unique (keys : list string) : list string :=
  match keys with
  | [] => []
  | k :: rest => k :: List.filter (fun x => negb (String.eqb x k)) (unique rest)
  end.

(** [parts.join(sep)] *)
Fixpoint join_with (sep : string) (parts : list string) : string :=
  match parts with
  | [] => EmptyString
  | p :: rest =>
      match rest with
      | [] => p
      | _ :: _ => p +:+ sep +:+ join_with sep rest
      end
  end.

(** [s.indexOf(c)] for a character [c]; [None] stands for -1. *)
Fixpoint index_of (c : ascii) (s : string) : option nat :=
  match s with
  | EmptyString => None
  | String d rest =>
      if Ascii.eqb d c then Some 0%nat
      else match index_of c rest with
           | Some i => Some (S i)
           | None => None
           end
  end.

(** [s.slice(0, n)] and [s.slice(n)] for [n] from 0 to the length. *)
Fixpoint take_str (n : nat) (s : string) : string :=
  match n, s with
  | S m, String c rest => String c (take_str m rest)
  | _, _ => EmptyString
  end.

Fixpoint drop_str (n : nat) (s : string) : string :=
  match n, s with
  | S m, String _ rest => drop_str m rest
  | _, _ => s
  end.

(** [s.split(sep)] for a separator that is not empty: the text is cut at
    each occurrence of [sep], found left to right; [skip] counts the
    characters of a found separator still to pass. *)
Fixpoint split_from (sep : string) (skip : nat) (s : string) : list string :=
  match s with
  | EmptyString => [EmptyString]
  | String c rest =>
      match skip with
      | S n => split_from sep n rest
      | O =>
          if String.prefix sep s
          then EmptyString :: split_from sep (String.length sep - 1) rest
          else match split_from sep 0 rest with
               | seg :: segs => String c seg :: segs
               | [] => [String c EmptyString]
               end
      end
  end.

Fixpoint characters (s : string) : list string :=
  match s with
  | EmptyString => []
  | String c rest => String c EmptyString :: characters rest
  end.

(** [s.split(sep)]; the empty separator cuts between all characters. *)
Definition split_on (sep s : string) : list string :=
  match sep with
  | EmptyString => characters s
  | String _ _ => split_from sep 0 s
  end.

End Host.

(** ** Trees that [unflattenObject] builds *)

Module Rebuild.
Import JS Text Objects Host.

Definition dot_free (k : string) : bool := all_of (fun c => negb (Ascii.eqb c ".")) k.

(** Is the first key of [ps] a text [Number] converts?  When a flat key
    enters a position for the first time, its next segment decides the
    kind of the container created there. *)
Definition first_key_numeric (ps : props) : bool :=
  match ps with
  | (k, _) :: _ => number_parses k
  | [] => false
  end.

Definition is_empty (ps : props) : bool :=
  match ps with
  | [] => true
  | _ :: _ => false
  end.

(** A tree every container of which [unflattenObject] can have built:
    an object lists its keys as [Object.keys] would, an array is its
    elements 0 to length - 1 and nothing else; no key has a dot or is the
    name of a member of [Object.prototype]; a member is a scalar other
    than [null], or a container of this sort that is not empty, an array
    if and only if its first key is a text [Number] converts. *)
Fixpoint rebuildable (v : value) : bool :=
  match v with
  | VObj k ps =>
      match k with
      | Plain => ordered (List.map fst ps)
      | Arr len =>
          (len =? N.of_nat (length ps))%N && (len <=? index_limit)%N
          && keys_from 0 (List.map fst ps)
      end
      && forallb (fun kv : string * value =>
                    let '(key, w) := kv in
                    dot_free key && negb (builtin_name key)
                    && match w with
                       | VObj _ ps' =>
                           negb (is_empty ps')
                           && Bool.eqb (first_key_numeric ps') (isArray w)
                           && rebuildable w
                       | VNull => false
                       | _ => true
                       end) ps
  | _ => true
  end.

(** The inner [reduce] of [unflattenObject] run for each path in turn. *)
Definition nest_all (L : list (list string * value)) (acc : outcome value) : outcome value :=
  fold_left (fun (a : outcome value) (pv : list string * value) =>
               bind a (nest (snd pv) (fst pv)))
            L acc.

(** The kind of a container while its first [n] members are in place. *)
Definition grown (k : kind) (n : nat) : kind :=
  match k with
  | Plain => Plain
  | Arr _ => Arr (N.of_nat n)
  end.

End Rebuild.

(** ** The functions of Objects.js over collections *)

Module Collections.
Import JS Text Objects Host.

(** *** deepMerge *)

(** [fn] is the caller's function of the key and the two values.  The
    accumulator is copied into a fresh object at each step and the key
    defined on the copy. *)
Definition deepMerge (a b : value) (fn : string -> value -> value -> outcome value)
  : outcome value :=
  ka <- entries a ;;
  kb <- entries b ;;
  acc <- fold_left
           (fun (acc : outcome props) (key : string) =>
              ps <- acc ;;
              x <- read a key ;;
              y <- read b key ;;
              v <- fn key x y ;;
              Ok (put key v ps))
           (unique (List.map fst ka ++ List.map fst kb)) (Ok []) ;;
  Ok (VObj Plain acc).

(** *** renameKeys *)

(** The property key that [keysMap[key] || key] stands for. *)
Definition new_name (keysMap : value) (key : string) : outcome string :=
  m <- read keysMap key ;;
  if truthy m then to_string m else Ok key.

Definition rename_reducer (keysMap : value) (acc : outcome props) (kv : string * value)
  : outcome props :=
  ps <- acc ;;
  let '(key, v) := kv in
  name <- new_name keysMap key ;;
  Ok (put name v ps).

Definition renameKeys (keysMap obj : value) : outcome value :=
  keyed <- entries obj ;;
  acc <- fold_left (rename_reducer keysMap) keyed (Ok []) ;;
  Ok (VObj Plain acc).

(** *** countBy, groupBy *)

(** The second argument: a function, or anything else, taken as the
    name of a property. *)
Inductive criterion : Type :=
| ByFunction (f : value -> value -> value -> outcome value)
| ByProperty (name : value).

(** [typeof fn === 'function' ? fn : val => val[fn]] *)
Definition callback (fn : criterion) : value -> value -> value -> outcome value :=
  match fn with
  | ByFunction f => f
  | ByProperty name => fun val _ _ => key <- to_string name ;; read val key
  end.

Definition count_reducer (acc : outcome value) (val : value) : outcome value :=
  a <- acc ;;
  key <- to_string val ;;
  cur <- read a key ;;
  n <- plus_one (if truthy cur then cur else VNum 0) ;;
  write a key n.

(** What the result of [countBy] is to hold for a key met [n] times. *)
Definition tally (n : nat) : option value :=
  match n with
  | O => None
  | S _ => Some (VNum (Z.of_nat n))
  end.

Definition countBy (arr : value) (fn : criterion) : outcome value :=
  mapped <- array_map (callback fn) arr ;;
  fold_left count_reducer (List.map snd mapped) (Ok empty_object).

Definition group_reducer (arr : value) (acc : outcome value) (iv : N * value)
  : outcome value :=
  a <- acc ;;
  key <- to_string (snd iv) ;;
  cur <- read a key ;;
  item <- get_prop arr (index_str (fst iv)) ;;
  g <- concat (if truthy cur then cur else empty_array) item ;;
  write a key g.

Definition groupBy (arr : value) (fn : criterion) : outcome value :=
  mapped <- array_map (callback fn) arr ;;
  fold_left (group_reducer arr) mapped (Ok empty_object).

(** The elements a group receives from one element of the array: an
    element that is an array hands over its own elements. *)
Definition spread_item (v : value) : list value :=
  if isArray v then members v else [v].

(** What the result of [groupBy] is to hold for a key when [m] lists the
    elements mapped to it. *)
Definition group (m : list value) : option value :=
  match m with
  | [] => None
  | _ :: _ => Some (array_of (flat_map spread_item m))
  end.

End Collections.

(** ** The functions of Objects.js over CSV text *)

Module Csv.
Import JS Text Objects Host.

Definition newline : ascii := ascii_of_nat 10.
Definition nl : string := String newline EmptyString.

(** *** JSONtoCSV *)

(** [!obj[key] ? '' : obj[key]] inside the template *)
Definition cell (obj : value) (key : string) : outcome string :=
  x <- read obj key ;;
  if truthy x then to_string x else Ok EmptyString.

Definition quoted (c : string) : string :=
  String Json.dquote (c +:+ String Json.dquote EmptyString).

Definition row_reducer (delimiter : string) (obj : value)
    (acc : outcome string) (key : string) : outcome string :=
  a <- acc ;;
  c <- cell obj key ;;
  Ok (a +:+ (if (String.length a =? 0)%nat then EmptyString else delimiter) +:+ quoted c).

Definition row (columns : list string) (delimiter : string) (obj : value) : outcome string :=
  fold_left (row_reducer delimiter obj) columns (Ok EmptyString).

(** [columns] is an array of strings and [delimiter] the third argument,
    a comma when omitted; a hole of [arr] gives an empty line. *)
Definition JSONtoCSV (arr : value) (columns : list string) (delimiter : string)
  : outcome string :=
  match arr with
  | VObj (Arr len) ps =>
      match lookup_prop "map" ps with
      | Some _ => Throw TypeError
      | None =>
          rows <- mapM (fun i : nat =>
                          match lookup_prop (index_str (N.of_nat i)) ps with
                          | Some obj => row columns delimiter obj
                          | None => Ok EmptyString
                          end)
                       (seq 0 (N.to_nat len)) ;;
          Ok (join_with nl (join_with delimiter columns :: rows))
      end
  | _ => Throw TypeError
  end.

(** *** CSVToJSON *)

(** [data.slice(0, data.indexOf('\n'))]: without a newline the index is
    -1 and the slice stops before the last character. *)
Definition title_row (data : string) : string :=
  match index_of newline data with
  | Some i => take_str i data
  | None => take_str (String.length data - 1) data
  end.

(** [data.slice(data.indexOf('\n') + 1)] *)
Definition records_text (data : string) : string :=
  match index_of newline data with
  | Some i => drop_str (S i) data
  | None => data
  end.

Fixpoint numbered {A : Type} (i : nat) (l : list A) : list (nat * A) :=
  match l with
  | [] => []
  | a :: rest => (i, a) :: numbered (S i) rest
  end.

(** [values[index]] on the array [split] returned *)
Definition field (values : list string) (index : nat) : value :=
  match nth_error values index with
  | Some x => VStr x
  | None => VUndef
  end.

Definition record (titles : list string) (delimiter : string) (v : string) : outcome value :=
  let values := split_on delimiter v in
  fold_left (fun (obj : outcome value) (it : nat * string) =>
               o <- obj ;;
               write o (snd it) (field values (fst it)))
            (numbered 0 titles) (Ok empty_object).

(** [delimiter] is the second argument, a comma when omitted. *)
Definition CSVToJSON (data : string) (delimiter : string) : outcome value :=
  let titles := split_on delimiter (title_row data) in
  rows <- mapM (record titles delimiter) (split_on nl (records_text data)) ;;
  Ok (array_of rows).

End Csv.

(** * Properties *)

Import JS Text Objects.

#[local] Set Warnings "-clear-no-such-hyp".

(** ** The tree walker *)

Lemma andThen_assoc (t1 t2 t3 : trace) :
  andThen (andThen t1 t2) t3 = andThen t1 (andThen t2 t3).
Proof. induction t1 as [|p v t1 IH|e]; simpl; auto. now rewrite IH. Qed.

Lemma walk_app (k : kind) (l1 l2 : props) (previous : list string) :
  walk (VObj k (l1 ++ l2)) previous
  = andThen (walk (VObj k l1) previous) (walk (VObj k l2) previous).
Proof.
cbn [walk]. induction l1 as [|[key v] l1 IH]; cbn [app fold_right andThen]; auto.
now rewrite IH, andThen_assoc.
Qed.

(** C1 (the code departs from the claim): a null value is not emitted as
    a leaf.  Since [typeof null] is ['object'] the walker descends into it
    and [Object.keys(null)] throws: whatever container holds a null, the
    traversal yields what precedes the null and then ends in a TypeError,
    without the pair of the null and without what follows it.  On
    [{a: null}] nothing is yielded; on [{x: 1, a: null, y: 2}] the first
    pair only. *)
Theorem walkThrough_null_throws :
  (forall (k : kind) (before after : props) (key : string) (previous : list string),
      walk (VObj k (before ++ (key, VNull) :: after)) previous
      = andThen (walk (VObj k before) previous) (Raise TypeError))
  /\ walkThrough (VObj Plain [("a", VNull)]) = Raise TypeError
  /\ spread (walkThrough (VObj Plain [("a", VNull)])) = Throw TypeError
  /\ walkThrough (VObj Plain [("x", VNum 1); ("a", VNull); ("y", VNum 2)])
     = Yield ["x"] (VNum 1) (Raise TypeError).
Proof.
split; [|repeat split; reflexivity].
intros k before after key previous. now rewrite walk_app.
Qed.

(** ** Own and inherited members *)

Section Prototypes.

Lemma member_name_split (key : string) :
  member_name key = false ->
  existsb (String.eqb key) object_prototype_names = false
  /\ existsb (String.eqb key) array_prototype_names = false
  /\ existsb (String.eqb key) string_prototype_names = false
  /\ existsb (String.eqb key) number_prototype_names = false
  /\ existsb (String.eqb key) boolean_prototype_names = false.
Proof.
unfold member_name. rewrite !existsb_app, !orb_false_iff. tauto.
Qed.

Lemma member_builtin (key : string) : member_name key = false -> builtin_name key = false.
Proof. intros H. now apply member_name_split in H. Qed.

(** A name that is no member of any prototype is inherited by nothing. *)
Lemma not_member_not_inherited (o : value) (key : string) :
  member_name key = false -> inherited o key = false.
Proof.
intros H. apply member_name_split in H as [Ho [Ha [Hs [Hn Hb]]]].
unfold inherited. apply andb_false_iff. right.
destruct o as [| | b | z | | s | [|len] ps]; cbn [inherited_names];
  rewrite ?existsb_app, ?Ho, ?Ha, ?Hs, ?Hn, ?Hb; reflexivity.
Qed.

(** An own property stands before an inherited member of its name. *)
Lemma own_not_inherited (o : value) (key : string) :
  own o key = true -> inherited o key = false.
Proof. intros H. unfold inherited. now rewrite H. Qed.

Lemma member_not_inherited (k : kind) (ps : props) (key : string) (c : value) :
  lookup_prop key ps = Some c -> inherited (VObj k ps) key = false.
Proof. intros L. apply own_not_inherited. cbn [own]. now rewrite L. Qed.

Lemma read_not_inherited (o : value) (key : string) :
  inherited o key = false -> read o key = get_prop o key.
Proof. intros H. unfold read. now rewrite H. Qed.

Lemma proto_inherited (o : value) :
  o <> VUndef -> o <> VNull -> own o "__proto__" = false -> inherited o "__proto__" = true.
Proof.
intros H1 H2 Ho. unfold inherited. rewrite Ho.
destruct o as [| | b | z | | s | [|len] ps]; try contradiction; reflexivity.
Qed.

(** Where the read finds no inherited member the assignment finds no
    accessor. *)
Lemma write_not_inherited (o : value) (key : string) (v : value) :
  inherited o key = false -> write o key v = set_prop o key v.
Proof.
intros H. unfold write.
destruct (String.eqb_spec key "__proto__") as [->|_]; [|reflexivity].
destruct (own o "__proto__") eqn:Ho; [reflexivity|]. cbn [negb andb].
destruct o as [| | b | z | | s | k ps]; try reflexivity;
  rewrite proto_inherited in H by (assumption || discriminate); discriminate H.
Qed.



Lemma names_do_not_parse :
  forallb (fun name => negb (number_parses name))
          (object_prototype_names ++ array_prototype_names ++ string_prototype_names
           ++ number_prototype_names ++ boolean_prototype_names) = true.
Proof. vm_compute. reflexivity. Qed.

(** No text [Number] converts is the name of a member of a prototype. *)
Lemma parsed_not_member (key : string) :
  number_parses key = true -> member_name key = false.
Proof.
intros H. apply not_true_is_false. intros E. unfold member_name in E.
apply existsb_exists in E as [name [Hin Hn]]. apply String.eqb_eq in Hn. subst name.
pose proof names_do_not_parse as F. rewrite forallb_forall in F.
specialize (F key Hin). rewrite H in F. discriminate F.
Qed.

(** What a container inherits: a Mapping the members of
    [Object.prototype]; a Sequence no name that [Number] converts. *)
Lemma container_not_inherited (k : kind) (ps : props) (key : string) :
  (k = Plain /\ builtin_name key = false) \/ number_parses key = true ->
  inherited (VObj k ps) key = false.
Proof.
intros [[-> H] | H].
- unfold inherited. cbn [inherited_names]. unfold builtin_name in H. rewrite H.
  apply andb_false_r.
- now apply not_member_not_inherited, parsed_not_member.
Qed.

End Prototypes.

(** ** The selector resolver *)

Section Resolver.


Lemma get_step_truthy (p : value) (cur : string) :
  truthy p = true -> get_step (Ok p) cur = read p cur.
Proof. intros T. unfold get_step. cbn [bind]. now rewrite T. Qed.






End Resolver.




(** ** Own properties: reads after writes *)

Section OwnProperties.

Lemma lookup_app_none (key : string) (l1 l2 : props) :
  lookup_prop key l1 = None -> lookup_prop key (l1 ++ l2) = lookup_prop key l2.
Proof.
  induction l1 as [|[k w] l1 IH]; simpl; auto.
  destruct (String.eqb k key); [discriminate | auto].
Qed.

Lemma lookup_middle (key : string) (v : value) (l1 l2 : props) :
  lookup_prop key l1 = None -> lookup_prop key (l1 ++ (key, v) :: l2) = Some v.
Proof.
  intros N. rewrite lookup_app_none by assumption. simpl.
  now rewrite String.eqb_refl.
Qed.

Lemma lookup_none_app (key : string) (l1 l2 : props) :
  lookup_prop key (l1 ++ l2) = None ->
  lookup_prop key l1 = None /\ lookup_prop key l2 = None.
Proof.
  induction l1 as [|[k w] l1 IH]; simpl; auto.
  destruct (String.eqb k key); [discriminate | auto].
Qed.

Lemma lookup_none_notin (key : string) (ps : props) :
  lookup_prop key ps = None <-> ~ In key (List.map fst ps).
Proof.
  induction ps as [|[k w] ps IH]; simpl; [tauto|].
  destruct (String.eqb k key) eqn:E.
  - apply String.eqb_eq in E. split; [discriminate | tauto].
  - apply String.eqb_neq in E. rewrite IH. tauto.
Qed.

(** A new key is inserted at one place; nothing else moves. *)
Lemma put_new (key : string) (v : value) (ps : props) :
  lookup_prop key ps = None ->
  exists l1 l2, ps = l1 ++ l2 /\ put key v ps = l1 ++ (key, v) :: l2.
Proof.
  intros N. unfold put. rewrite N. destruct (array_index key) as [i|].
  - clear N. induction ps as [|[k w] ps [l1 [l2 [E1 E2]]]]; simpl.
    + exists [], []; auto.
    + destruct (array_index k) as [j|].
      * destruct (j <? i)%N.
        -- exists ((k, w) :: l1), l2. simpl. now rewrite E2, <- E1.
        -- exists [], ((k, w) :: ps); auto.
      * exists [], ((k, w) :: ps); auto.
  - exists ps, []. now rewrite app_nil_r.
Qed.

(** An existing key is updated in place. *)
Lemma update_existing (key : string) (c : value) (ps : props) :
  lookup_prop key ps = Some c ->
  exists l1 l2, ps = l1 ++ (key, c) :: l2 /\ lookup_prop key l1 = None
                /\ forall v, update_prop key v ps = l1 ++ (key, v) :: l2.
Proof.
  induction ps as [|[k w] ps IH]; simpl; [discriminate|].
  destruct (String.eqb k key) eqn:E.
  - apply String.eqb_eq in E; subst k. intros [= ->].
    exists [], ps; auto.
  - intros L. destruct (IH L) as [l1 [l2 [E1 [E2 E3]]]].
    exists ((k, w) :: l1), l2. simpl. rewrite E. repeat split; auto.
    + now rewrite E1.
    + intros v. now rewrite E3.
Qed.

Lemma put_existing (key : string) (c v : value) (ps : props) :
  lookup_prop key ps = Some c -> put key v ps = update_prop key v ps.
Proof. intros L. unfold put. now rewrite L. Qed.

Lemma lookup_put_same (key : string) (v : value) (ps : props) :
  lookup_prop key (put key v ps) = Some v.
Proof.
  destruct (lookup_prop key ps) as [c|] eqn:L.
  - rewrite (put_existing _ c) by assumption.
    destruct (update_existing _ _ _ L) as [l1 [l2 [_ [N U]]]].
    rewrite U. now apply lookup_middle.
  - destruct (put_new key v ps L) as [l1 [l2 [E ->]]]. subst ps.
    apply lookup_middle. now apply lookup_none_app in L.
Qed.

Lemma lookup_update_same (key : string) (c v : value) (ps : props) :
  lookup_prop key ps = Some c -> lookup_prop key (update_prop key v ps) = Some v.
Proof.
  intros L. destruct (update_existing _ _ _ L) as [l1 [l2 [_ [N U]]]].
  rewrite U. now apply lookup_middle.
Qed.

Lemma length_is_no_number : number_parses "length" = false.
Proof. reflexivity. Qed.

Lemma length_is_no_index : array_index "length" = None.
Proof. reflexivity. Qed.

Lemma get_prop_member (k : kind) (ps : props) (key : string) :
  k = Plain \/ key <> "length" ->
  get_prop (VObj k ps) key = Ok (default VUndef (lookup_prop key ps)).
Proof.
  intros H. destruct k as [|len]; simpl; auto.
  destruct (String.eqb key "length") eqn:E; auto.
  apply String.eqb_eq in E. destruct H; [discriminate | contradiction].
Qed.

Lemma set_prop_member (k : kind) (ps : props) (key : string) (v : value) :
  k = Plain \/ key <> "length" ->
  exists k', set_prop (VObj k ps) key v = Ok (VObj k' (put key v ps))
             /\ (k = Plain <-> k' = Plain).
Proof.
  intros H. destruct k as [|len]; simpl.
  - exists Plain; tauto.
  - destruct (String.eqb key "length") eqn:E.
    + apply String.eqb_eq in E. destruct H; [discriminate | contradiction].
    + eexists; split; [reflexivity|]. split; discriminate.
Qed.

Lemma read_member (k : kind) (ps : props) (key : string) :
  k = Plain \/ key <> "length" ->
  inherited (VObj k ps) key = false ->
  read (VObj k ps) key = Ok (default VUndef (lookup_prop key ps)).
Proof.
  intros H Hi. rewrite read_not_inherited by assumption. now apply get_prop_member.
Qed.

Lemma write_member (k : kind) (ps : props) (key : string) (v : value) :
  k = Plain \/ key <> "length" ->
  inherited (VObj k ps) key = false ->
  exists k', write (VObj k ps) key v = Ok (VObj k' (put key v ps))
             /\ (k = Plain <-> k' = Plain).
Proof.
  intros H Hi. rewrite write_not_inherited by assumption. now apply set_prop_member.
Qed.

(** An assignment leaves a Mapping a Mapping and a Sequence a Sequence. *)
Lemma write_keeps_kind (k : kind) (ps : props) (key : string) (v acc' : value) :
  write (VObj k ps) key v = Ok acc' ->
  exists k' ps', acc' = VObj k' ps' /\ (k = Plain <-> k' = Plain).
Proof.
  unfold write. destruct (String.eqb key "__proto__" && negb (own (VObj k ps) key)).
  - intros [= <-]. exists k, ps. tauto.
  - destruct k as [|len]; simpl.
    + intros [= <-]. eexists _, _; split; [reflexivity | tauto].
    + destruct (String.eqb key "length").
      * unfold set_length.
        destruct v as [| | b | z | | ? | ? ?]; try discriminate;
          try (destruct ((0 <=? z)%Z && (z <? 4294967296)%Z); try discriminate);
          intros [= <-]; eexists _, _; (split; [reflexivity | split; discriminate]).
      * intros [= <-]. eexists _, _; (split; [reflexivity | split; discriminate]).
Qed.

End OwnProperties.

(** ** The unflattener: which container is created, which is reused *)

Section Unflattener.

Lemma store_back_container (k : kind) (ps : props) (e : string) (c : value) :
  is_container c = true -> store_back (VObj k ps) e c = VObj k (update_prop e c ps).
Proof. destruct c; simpl; try discriminate; auto. Qed.

Lemma store_back_scalar (acc : value) (e : string) (c : value) :
  is_container c = false -> store_back acc e c = acc.
Proof. destruct acc, c; simpl; try discriminate; auto. Qed.

Lemma nest_cons (leaf : value) (e : string) (rest : list string) (acc : value) :
  nest leaf (e :: rest) acc
  = bind (read acc e) (fun cur =>
      if truthy cur
      then bind (nest leaf rest cur) (fun cur' => Ok (store_back acc e cur'))
      else
        let fresh :=
          if isNaN_Number (head rest)
          then match rest with [] => leaf | _ :: _ => empty_object end
          else empty_array in
        bind (write acc e fresh) (fun acc' =>
          bind (nest leaf rest fresh) (fun fresh' => Ok (store_back acc' e fresh')))).
Proof. reflexivity. Qed.

Lemma put_empty (key : string) (v : value) : put key v [] = [(key, v)].
Proof. unfold put; simpl. now destruct (array_index key). Qed.

(** A walk that starts in a container just created never fails, as long
    as no segment names a member of [Object.prototype]: every further
    container is created for the segment that enters it. *)
Lemma nest_fresh (leaf : value) (rest : list string) :
  forallb (fun s => negb (builtin_name s)) rest = true ->
  forall c : value,
    c = empty_object \/ (c = empty_array /\ isNaN_Number (head rest) = false) ->
    rest <> [] ->
    exists k ps, nest leaf rest c = Ok (VObj k ps) /\ isArray (VObj k ps) = isArray c.
Proof.
  induction rest as [|s r IH]; intros Hnames c Hc Hne; [contradiction|].
  cbn [forallb] in Hnames. apply andb_true_iff in Hnames as [Hs Hr].
  apply negb_true_iff in Hs.
  assert (Hmem : exists k, c = VObj k [] /\ (k = Plain \/ s <> "length")
                           /\ inherited (VObj k []) s = false).
  { destruct Hc as [-> | [-> Hp]].
    - exists Plain. split; [reflexivity | split; [now left|]].
      apply container_not_inherited. auto.
    - exists (Arr 0). cbn [head isNaN_Number] in Hp. apply negb_false_iff in Hp.
      split; [reflexivity | split].
      + right; intros ->. discriminate Hp.
      + apply container_not_inherited. auto. }
  destruct Hmem as [k [-> [Hk Hi]]].
  rewrite nest_cons, read_member by assumption. cbn [lookup_prop default bind truthy].
  set (fresh := if isNaN_Number (head r) then _ else _).
  destruct (write_member k [] s fresh Hk Hi) as [k' [-> Hplain]].
  cbn [bind]. rewrite put_empty.
  assert (Harr : isArray (VObj k' [(s, fresh)]) = isArray (VObj k [])).
  { destruct k, k'; simpl; auto; destruct Hplain as [A B];
      [discriminate A | discriminate B]; auto. }
  destruct r as [|s2 r2].
  - subst fresh. cbn [head isNaN_Number nest bind].
    exists k'. destruct leaf; simpl; eauto.
  - destruct (IH Hr fresh) as [kf [pf [-> Hf]]].
    + subst fresh. destruct (isNaN_Number (head (s2 :: r2))); auto.
    + discriminate.
    + cbn [bind]. rewrite store_back_container by reflexivity.
      simpl update_prop. rewrite String.eqb_refl. eauto.
Qed.

(** The walk leaves the kind of its starting container unchanged. *)
Lemma nest_keeps_kind (leaf : value) (keys : list string) (k : kind) (ps : props) (r : value) :
  nest leaf keys (VObj k ps) = Ok r ->
  exists k' ps', r = VObj k' ps' /\ (k = Plain <-> k' = Plain).
Proof.
  destruct keys as [|e rest]; cbn [nest].
  - intros [= <-]. exists k, ps; tauto.
  - destruct (read (VObj k ps) e) as [cur| | |]; cbn [bind]; try discriminate.
    destruct (truthy cur).
    + destruct (nest leaf rest cur) as [c'| | |]; cbn [bind]; try discriminate.
      intros [= <-]. destruct c'; simpl; eexists _, _; split; try reflexivity; tauto.
    + set (fresh := if isNaN_Number (head rest) then _ else _).
      destruct (write (VObj k ps) e fresh) as [acc'| | |] eqn:S; cbn [bind]; try discriminate.
      destruct (write_keeps_kind _ _ _ _ _ S) as [k' [ps' [-> Hk]]].
      destruct (nest leaf rest fresh) as [f'| | |]; cbn [bind]; try discriminate.
      intros [= <-]. destruct f'; simpl; eexists _, _; split; try reflexivity; tauto.
Qed.

Lemma unflatten_fold_plain (keyed : props) (acc : outcome value) (r : value) :
  (forall a, acc = Ok a -> exists ps, a = VObj Plain ps) ->
  fold_left unflatten_reducer keyed acc = Ok r ->
  exists ps, r = VObj Plain ps.
Proof.
  revert acc; induction keyed as [|[k leaf] keyed IH]; intros acc Hacc; cbn [fold_left].
  - auto.
  - apply IH. intros a Ha. unfold unflatten_reducer in Ha.
  destruct acc as [a0| | |]; cbn [bind] in Ha; try discriminate.
    destruct (Hacc a0 eq_refl) as [ps ->].
    destruct (nest_keeps_kind _ _ _ _ _ Ha) as [k' [ps' [-> Hk]]].
    exists ps'. f_equal. now apply Hk.
Qed.

End Unflattener.

(** C10: whatever the flat keys are, the value [unflattenObject] returns
    is a Mapping (a plain object), never a Sequence; for [{'0.a': 1}] the
    root is the Mapping with the key "0". *)
Theorem unflatten_root_is_mapping (obj r : value) :
  unflattenObject obj = Ok r ->
  (exists ps, r = VObj Plain ps) /\ isArray r = false.
Proof.
  unfold unflattenObject. destruct (entries obj) as [keyed| | |]; cbn [bind]; try discriminate.
  intros H. apply unflatten_fold_plain in H.
  - destruct H as [ps ->]. eauto.
  - intros a [= <-]. now exists [].
Qed.

Lemma unflatten_root_is_mapping_witness :
  unflattenObject (VObj Plain [("0.a", VNum 1)])
  = Ok (VObj Plain [("0", VObj Plain [("a", VNum 1)])])
  /\ ((exists ps, VObj Plain [("0", VObj Plain [("a", VNum 1)])] = VObj Plain ps)
      /\ isArray (VObj Plain [("0", VObj Plain [("a", VNum 1)])]) = false).
Proof.
  split; [reflexivity|].
  apply (unflatten_root_is_mapping (VObj Plain [("0.a", VNum 1)])). reflexivity.
Defined.

(** ** Numeric segments are among the texts [Number] accepts *)

Section NumericSegments.

Lemma digits_of_uint (d : uint) : all_of is_digit (NilEmpty.string_of_uint d) = true.
Proof. induction d; simpl; auto. Qed.

Lemma digit_not_space (c : ascii) : is_digit c = true -> is_space c = false.
Proof.
  unfold is_digit, is_space, code_in. intros H.
  apply andb_true_iff in H as [H1 H2].
  apply Nat.leb_le in H1. apply Nat.leb_le in H2.
  repeat match goal with
         | |- context [(?a <=? ?b)%nat] => destruct (Nat.leb_spec a b)
         end; simpl; auto; lia.
Qed.

Lemma digit_not_sign (c : ascii) :
  is_digit c = true -> Ascii.eqb c "+" || Ascii.eqb c "-" = false.
Proof.
  intros H. destruct (Ascii.eqb_spec c "+") as [->|]; [discriminate H|].
  destruct (Ascii.eqb_spec c "-") as [->|]; [discriminate H | reflexivity].
Qed.

Lemma trim_end_digits (s : string) : all_of is_digit s = true -> trim_end s = s.
Proof.
  induction s as [|c s IH]; simpl; auto.
  intros H. apply andb_true_iff in H as [Hc Hs]. rewrite (IH Hs).
  destruct s; auto. now rewrite digit_not_space.
Qed.

Lemma span_all_digits (s : string) :
  all_of is_digit s = true -> span_digits s = (String.length s, EmptyString).
Proof.
  induction s as [|c s IH]; simpl; auto.
  intros H. apply andb_true_iff in H as [Hc Hs]. now rewrite Hc, (IH Hs).
Qed.

Lemma digits_parse (s : string) :
  s <> EmptyString -> all_of is_digit s = true -> number_parses s = true.
Proof.
  intros Hne Hd. unfold number_parses.
  assert (Ht : trim_end (trim_start s) = s).
  { destruct s as [|c s]; [contradiction|].
    pose proof Hd as Hd'. simpl in Hd'. apply andb_true_iff in Hd' as [Hc _].
    simpl trim_start. rewrite (digit_not_space c Hc). now apply trim_end_digits. }
  rewrite Ht. destruct s as [|c s]; [contradiction|].
  pose proof Hd as Hd'. simpl in Hd'. apply andb_true_iff in Hd' as [Hc _].
  cbn [unsign]. rewrite (digit_not_sign c Hc).
  unfold unsigned_decimal. rewrite (span_all_digits _ Hd). simpl.
  now rewrite !orb_true_r.
Qed.

Lemma spec_numeric_parses (s : string) :
  spec_numeric_segment s = true -> number_parses s = true.
Proof.
  unfold spec_numeric_segment.
  destruct (NilEmpty.uint_of_string s) as [d|] eqn:E; [|discriminate].
  destruct (uint_eq_dec (unorm d) d) as [Hn|]; [|discriminate]. intros _.
  apply NilEmpty.sus in E. subst s. apply digits_parse.
  - destruct d; simpl; discriminate.
  - apply digits_of_uint.
Qed.

End NumericSegments.

(** C4 (as stated, refuted): the segment "-1" is not a numeric segment,
    yet the container created for the segment before it is a Sequence:
    [unflattenObject({'a.-1': 2})] has an array under [a]. *)
Lemma unflatten_negative_segment_makes_sequence :
  spec_numeric_segment "-1" = false
  /\ unflattenObject (VObj Plain [("a.-1", VNum 2)])
     = Ok (VObj Plain [("a", VObj (Arr 0) [("-1", VNum 2)])])
  /\ isArray (VObj (Arr 0) [("-1", VNum 2)]) = true.
Proof. repeat split; reflexivity. Qed.

(** C4 (amended): the container created at an intermediate segment is a
    Sequence exactly when [Number] applied to the next segment is not NaN,
    and a Mapping otherwise.  Every numeric segment (a non-negative
    base-10 integer without leading zeros) passes that test, and so do
    other texts such as "-1", "01", "1e3" and the empty segment, which
    therefore yield Sequences as well;
    [unflattenObject({'a.b.0': 8, d: 3})] is [{a: {b: [8]}, d: 3}].  (A
    container is created where the segment finds no truthy member; the
    segments are no names of members the containers inherit, such as
    [toString], under which the walk finds a built-in function.) *)
Theorem unflatten_container_kind :
  (forall (leaf : value) (e next : string) (rest : list string) (k : kind) (ps : props),
      (k = Plain \/ e <> "length") ->
      truthy (default VUndef (lookup_prop e ps)) = false ->
      inherited (VObj k ps) e = false ->
      forallb (fun s => negb (builtin_name s)) (next :: rest) = true ->
      exists acc' kc psc,
        nest leaf (e :: next :: rest) (VObj k ps) = Ok acc'
        /\ read acc' e = Ok (VObj kc psc)
        /\ isArray (VObj kc psc) = number_parses next)
  /\ (forall s, spec_numeric_segment s = true -> number_parses s = true)
  /\ List.map number_parses ["-1"; "01"; "1e3"; EmptyString; "b"; "1x"]
     = [true; true; true; true; false; false]
  /\ unflattenObject (VObj Plain [("a.b.0", VNum 8); ("d", VNum 3)])
     = Ok (VObj Plain [("a", VObj Plain [("b", array_of [VNum 8])]); ("d", VNum 3)]).
Proof.
  split; [|split; [exact spec_numeric_parses | split; reflexivity]].
  intros leaf e next rest k ps Hk Hfalsy Hi Hnames.
  rewrite nest_cons, read_member by assumption. cbn [bind]. rewrite Hfalsy.
  cbn [head isNaN_Number].
  set (fresh := if negb (number_parses next) then empty_object else empty_array).
  destruct (write_member k ps e fresh Hk Hi) as [k' [-> Hplain]]. cbn [bind].
  destruct (nest_fresh leaf (next :: rest) Hnames fresh) as [kf [pf [E Hf]]].
  - subst fresh. cbn [head isNaN_Number].
    destruct (number_parses next); simpl; auto.
  - discriminate.
  - rewrite E. cbn [bind]. rewrite store_back_container by reflexivity.
    exists (VObj k' (update_prop e (VObj kf pf) (put e fresh ps))), kf, pf.
    assert (L : lookup_prop e (update_prop e (VObj kf pf) (put e fresh ps))
                = Some (VObj kf pf))
      by (apply (lookup_update_same e fresh); apply lookup_put_same).
    split; [reflexivity | split].
    + rewrite read_member.
      * now rewrite L.
      * destruct Hk as [-> | Hne]; [left; now apply Hplain | now right].
      * now apply (member_not_inherited _ _ _ (VObj kf pf)).
    + rewrite Hf. subst fresh. now destruct (number_parses next).
Qed.

Lemma unflatten_container_kind_witness :
  exists acc' kc psc,
    nest (VNum 8) ["a"; "0"; "b"] (VObj Plain [("d", VNum 3)]) = Ok acc'
    /\ read acc' "a" = Ok (VObj kc psc)
    /\ isArray (VObj kc psc) = number_parses "0".
Proof.
  destruct unflatten_container_kind as [H _].
  apply (H (VNum 8) "a" "0" ["b"] Plain [("d", VNum 3)]);
    [left; reflexivity | reflexivity | reflexivity | reflexivity].
Defined.

(** C6 (as stated, refuted): a conflict of kinds can end in an error.
    After ['a.0.x'] made the container under [a] a Sequence, the key
    ['a.length.y'] reuses it, reads its [length] (the number 1) and then
    tries to create the property [y] on that number, which throws in
    strict mode. *)
Lemma unflatten_conflict_on_length_throws :
  unflattenObject (VObj Plain [("a.0.x", VNum 1)])
  = Ok (VObj Plain [("a", array_of [VObj Plain [("x", VNum 1)]])])
  /\ unflattenObject (VObj Plain [("a.0.x", VNum 1); ("a.length.y", VNum 2)])
     = Throw TypeError.
Proof. split; reflexivity. Qed.

(** C6 (amended): when a container already exists under a segment the
    walk goes on inside it, whatever the next segment would imply: no
    container is created, the parent is otherwise unchanged and the kind
    of the existing container stays what the first writer made it.  The
    conflict itself raises no error: the last segment of the key, read
    in the reused container, finds the member of that name or, finding
    none that is truthy, assigns the leaf under it, in a Sequence as
    well as in a Mapping.  This leaves out the segments that designate
    something else than a member: [length] in a Sequence, and the names
    of the members the container inherits from its prototype ([concat],
    [toString], ...).  [{'a.0': 1, 'a.b': 2}] gives a Sequence under [a]
    with the extra member [b]; [{'a.b': 2, 'a.0': 1}] gives a Mapping. *)
Theorem unflatten_first_writer_wins :
  (forall (leaf : value) (e : string) (rest : list string) (k kc : kind) (ps psc : props),
      (k = Plain \/ e <> "length") ->
      lookup_prop e ps = Some (VObj kc psc) ->
      nest leaf (e :: rest) (VObj k ps)
      = bind (nest leaf rest (VObj kc psc)) (fun c' => Ok (VObj k (update_prop e c' ps)))
      /\ (forall c', nest leaf rest (VObj kc psc) = Ok c' ->
            exists kc' psc', c' = VObj kc' psc' /\ (kc = Plain <-> kc' = Plain)))
  /\ (forall (kc : kind) (psc : props) (s : string) (leaf : value),
        (kc = Plain \/ s <> "length") ->
        inherited (VObj kc psc) s = false ->
        exists kc' psc',
          nest leaf [s] (VObj kc psc) = Ok (VObj kc' psc')
          /\ (kc = Plain <-> kc' = Plain)
          /\ lookup_prop s psc'
             = Some (if truthy (default VUndef (lookup_prop s psc))
                     then default VUndef (lookup_prop s psc)
                     else leaf))
  /\ unflattenObject (VObj Plain [("a.0", VNum 1); ("a.b", VNum 2)])
     = Ok (VObj Plain [("a", VObj (Arr 1) [("0", VNum 1); ("b", VNum 2)])])
  /\ unflattenObject (VObj Plain [("a.b", VNum 2); ("a.0", VNum 1)])
     = Ok (VObj Plain [("a", VObj Plain [("0", VNum 1); ("b", VNum 2)])]).
Proof.
  split; [|split; [|split; reflexivity]].
  - intros leaf e rest k kc ps psc Hk L. split.
    + rewrite nest_cons, read_member
        by (assumption || now apply (member_not_inherited _ _ _ (VObj kc psc))).
      rewrite L. cbn [default from_option id bind truthy].
      destruct (nest leaf rest (VObj kc psc)) as [c'| | |] eqn:E; cbn [bind]; auto.
      destruct (nest_keeps_kind _ _ _ _ _ E) as [kc' [psc' [-> _]]]. reflexivity.
    + intros c' E. apply (nest_keeps_kind _ _ _ _ _ E).
  - intros kc psc s leaf Hk Hi.
    rewrite nest_cons, read_member by assumption. cbn [bind].
    assert (Hnew : truthy (default VUndef (lookup_prop s psc)) = false ->
              exists kc' psc',
                bind (write (VObj kc psc) s leaf)
                     (fun acc' => bind (nest leaf [] leaf)
                                       (fun fresh' => Ok (store_back acc' s fresh')))
                = Ok (VObj kc' psc')
                /\ (kc = Plain <-> kc' = Plain) /\ lookup_prop s psc' = Some leaf).
    { intros _. destruct (write_member kc psc s leaf Hk Hi) as [k' [-> Hplain]].
      cbn [bind nest]. destruct (is_container leaf) eqn:Hc.
      - rewrite store_back_container by assumption. eexists _, _.
        split; [reflexivity | split; [exact Hplain|]].
        apply (lookup_update_same s leaf). apply lookup_put_same.
      - rewrite store_back_scalar by assumption. eexists _, _.
        split; [reflexivity | split; [exact Hplain|]]. apply lookup_put_same. }
    destruct (truthy (default VUndef (lookup_prop s psc))) eqn:T.
    + destruct (lookup_prop s psc) as [cur|] eqn:L; [|discriminate T].
      cbn [default from_option id] in *. cbn [nest bind].
      destruct (is_container cur) eqn:Hc.
      * rewrite store_back_container by assumption. eexists _, _.
        split; [reflexivity | split; [tauto|]]. now apply (lookup_update_same s cur).
      * rewrite store_back_scalar by assumption. eexists _, _.
        split; [reflexivity | split; [tauto | exact L]].
    + cbn [head isNaN_Number]. now apply Hnew.
Qed.

Lemma unflatten_first_writer_wins_witness :
  nest (VNum 2) ["a"; "b"] (VObj Plain [("a", VObj (Arr 1) [("0", VNum 1)])])
  = Ok (VObj Plain [("a", VObj (Arr 1) [("0", VNum 1); ("b", VNum 2)])])
  /\ (exists kc' psc',
        nest (VNum 2) ["b"] (VObj (Arr 1) [("0", VNum 1)]) = Ok (VObj kc' psc')
        /\ (Arr 1 = Plain <-> kc' = Plain)
        /\ lookup_prop "b" psc' = Some (VNum 2)).
Proof.
  destruct unflatten_first_writer_wins as [H1 [H2 _]]. split.
  - destruct (H1 (VNum 2) "a" ["b"] Plain (Arr 1)
                [("a", VObj (Arr 1) [("0", VNum 1)])] [("0", VNum 1)]) as [E _];
      [left; reflexivity | reflexivity |].
    rewrite E. reflexivity.
  - apply (H2 (Arr 1) [("0", VNum 1)] "b" (VNum 2)); [right; discriminate | reflexivity].
Defined.

(** ** The cycle-safe serializer *)

Import Json.

Ltac bind_inv H :=
  match type of H with
  | bind ?m _ = Ok _ =>
      let E := fresh "E" in
      destruct m as [?| | |] eqn:E; cbn [bind] in H; [|discriminate H ..]
  end.

Section Serializer.
Variable h : gmap addr container.

Abbreviation ser := (ser_property circular_replacer h).

Lemma ser_property_S {St : Type} (rep : St -> string -> ref_value -> St * ref_value)
    (n : nat) (stack : list addr) (st : St) (key : string) (v : ref_value) :
  ser_property rep h (S n) stack st key v
  = let '(st1, v1) := rep st key v in
    match v1 with
    | RUndef => Ok (st1, None)
    | RNull => Ok (st1, Some "null")
    | RBool b => Ok (st1, Some (if b then "true" else "false"))
    | RNum z => Ok (st1, Some (number_text z))
    | RNaN => Ok (st1, Some "null")
    | RStr s => Ok (st1, Some (quote s))
    | RRef a =>
        match h !! a with
        | None => OutOfModel
        | Some c =>
            if bool_decide (a ∈ stack) then Throw TypeError
            else
              bind (ser_each (ser_property rep h n (a :: stack)) st1 (properties c))
                   (fun rs => Ok (fst rs, Some (container_text c (snd rs))))
        end
    end.
Proof. reflexivity. Qed.

(** A container already in the visited set serializes to [undefined]. *)
Lemma ser_visited (n : nat) (stack : list addr) (seen : gset addr) (k : string) (a : addr) :
  a ∈ seen -> ser (S n) stack seen k (RRef a) = Ok (seen, None).
Proof.
  intros Ha. rewrite ser_property_S. unfold circular_replacer.
  now rewrite bool_decide_eq_true_2.
Qed.

(** A container met for the first time is marked and serialized. *)
Lemma ser_first (n : nat) (stack : list addr) (seen : gset addr) (k : string)
    (a : addr) (c : container) :
  a ∉ seen -> a ∉ stack -> h !! a = Some c ->
  ser (S n) stack seen k (RRef a)
  = bind (ser_each (ser n (a :: stack)) ({[a]} ∪ seen) (properties c))
         (fun rs => Ok (fst rs, Some (container_text c (snd rs)))).
Proof.
  intros Ha Hs Hc. rewrite ser_property_S. unfold circular_replacer.
  rewrite bool_decide_eq_false_2 by assumption. rewrite Hc.
  now rewrite bool_decide_eq_false_2.
Qed.

Lemma ser_each_grows (f : gset addr -> string -> ref_value -> outcome (gset addr * option string)) :
  (forall st k v st' r, f st k v = Ok (st', r) -> st ⊆ st') ->
  forall kvs st st' rs, ser_each f st kvs = Ok (st', rs) -> st ⊆ st'.
Proof.
  intros Hf. induction kvs as [|[k v] kvs IH]; intros st st' rs H; cbn [ser_each] in H.
  - injection H as <- <-. set_solver.
  - bind_inv H. bind_inv H. injection H as <- <-.
    destruct a as [st1 r1], a0 as [st2 rs2]; simpl in *.
    apply Hf in E. apply IH in E0. set_solver.
Qed.

(** The visited set only grows, and holds what was serialized. *)
Lemma ser_grows (n : nat) :
  forall stack seen k v st' r,
    ser n stack seen k v = Ok (st', r) ->
    seen ⊆ st' /\ (forall a, v = RRef a -> a ∈ st').
Proof.
  induction n as [|n IH]; intros stack seen k v st' r H; [discriminate H|].
  destruct v as [| | b | z | | s | a];
    try (rewrite ser_property_S in H; cbn in H; injection H as <- <-;
         split; [set_solver | discriminate]).
  destruct (decide (a ∈ seen)) as [Ha|Ha].
  - rewrite ser_visited in H by assumption. injection H as <- <-.
    split; [set_solver | intros ? [= <-]; assumption].
  - rewrite ser_property_S in H. unfold circular_replacer in H.
    rewrite bool_decide_eq_false_2 in H by assumption.
    destruct (h !! a) as [c|]; [|discriminate H].
    destruct (bool_decide (a ∈ stack)); [discriminate H|].
    fold circular_replacer in H.
    bind_inv H. injection H as <- <-. destruct a0 as [st1 rs1]. cbn [fst].
    apply ser_each_grows in E; [|intros ? ? ? ? ? G; now apply IH in G].
    split; [set_solver | intros ? [= <-]; set_solver].
Qed.

Lemma closed_children (a : addr) (c : container) (v : ref_value) :
  closed h = true -> h !! a = Some c -> In v (children c) -> closed_value h v = true.
Proof.
  unfold closed. rewrite forallb_forall. intros Hc Ha Hv.
  specialize (Hc (a, c)). simpl in Hc. rewrite forallb_forall in Hc.
  apply Hc; [|assumption].
  apply list_elem_of_In. now apply elem_of_map_to_list.
Qed.

Lemma children_properties (c : container) : List.map snd (properties c) = children c.
Proof.
  destruct c as [ms|vs]; simpl; auto.
  generalize 0%N. induction vs as [|v vs IH]; intros i; simpl; auto. now rewrite IH.
Qed.

Lemma stack_fits (stack : list addr) :
  NoDup stack -> (forall a, In a stack -> is_Some (h !! a)) -> length stack <= size h.
Proof.
  intros Hnd Hin.
  rewrite <- (size_dom (D := gset addr) h).
  rewrite <- (size_list_to_set (C := gset addr) stack) by assumption.
  apply subseteq_size. intros a Ha. apply elem_of_list_to_set in Ha.
  apply elem_of_dom. apply Hin. now apply list_elem_of_In.
Qed.

Lemma ser_each_total (f : gset addr -> string -> ref_value -> outcome (gset addr * option string))
    (base : gset addr) :
  (forall st k v, base ⊆ st -> closed_value h v = true ->
                  exists st' r, f st k v = Ok (st', r) /\ st ⊆ st') ->
  forall kvs st,
    base ⊆ st -> Forall (fun kv => closed_value h (snd kv) = true) kvs ->
    exists st' rs, ser_each f st kvs = Ok (st', rs) /\ st ⊆ st'.
Proof.
  intros Hf. induction kvs as [|[k v] kvs IH]; intros st Hb Hc; cbn [ser_each].
  - exists st, []. split; [reflexivity | set_solver].
  - inversion Hc as [|? ? Hv Hrest]; subst. simpl in Hv.
    destruct (Hf st k v Hb Hv) as [st1 [r1 [-> G1]]]. cbn [bind fst snd].
    destruct (IH st1) as [st2 [rs2 [-> G2]]]; [set_solver | assumption |].
    cbn [bind fst snd]. eexists _, _. split; [reflexivity | set_solver].
Qed.

(** With the visited set in place the serializer neither meets its own
    cycle check nor runs out of its bound. *)
Lemma ser_total (Hclosed : closed h = true) (n : nat) :
  forall stack seen k v,
    NoDup stack ->
    (forall a, In a stack -> a ∈ seen /\ is_Some (h !! a)) ->
    size h < n + length stack ->
    closed_value h v = true ->
    exists st' r, ser n stack seen k v = Ok (st', r) /\ seen ⊆ st'.
Proof.
  induction n as [|n IH]; intros stack seen k v Hnd Hst Hsz Hv.
  - exfalso. pose proof (stack_fits stack Hnd (fun a Ha => proj2 (Hst a Ha))). simpl in Hsz. lia.
  - destruct v as [| | b | z | | s | a];
      try (rewrite ser_property_S; cbn; eexists _, _; split; [reflexivity | set_solver]).
    destruct (decide (a ∈ seen)) as [Ha|Ha].
    + rewrite ser_visited by assumption. eexists _, _; split; [reflexivity | set_solver].
    + simpl in Hv. destruct (h !! a) as [c|] eqn:Hc; [|discriminate Hv].
      assert (Hns : a ∉ stack).
      { intros Hin. apply Ha. apply Hst. now apply list_elem_of_In. }
      rewrite (ser_first n stack seen k a c Ha Hns Hc).
      assert (Hsub : forall st k' v', {[a]} ∪ seen ⊆ st -> closed_value h v' = true ->
                  exists st' r, ser n (a :: stack) st k' v' = Ok (st', r) /\ st ⊆ st').
      { intros st k' v' Hb Hv'. apply IH; auto.
        - constructor; [|assumption]. intros Hin. apply Hns. now apply list_elem_of_In.
        - intros b [<- | Hb']; [split; [set_solver | now rewrite Hc] |].
          destruct (Hst b Hb') as [? ?]. split; [set_solver | assumption].
        - simpl. lia. }
      assert (Hkids : Forall (fun kv => closed_value h (snd kv) = true) (properties c)).
      { apply Forall_forall. intros [k' v'] Hin. simpl.
        apply (closed_children a c); auto.
        rewrite <- children_properties. apply in_map_iff. exists (k', v').
        split; [reflexivity | now apply list_elem_of_In]. }
      destruct (ser_each_total _ _ Hsub (properties c) ({[a]} ∪ seen)) as [st' [rs [-> G]]];
        [set_solver | assumption |].
      cbn [bind fst snd]. eexists _, _. split; [reflexivity | set_solver].
Qed.

Lemma stringifyCircularJSON_total (obj : ref_value) :
  closed h = true -> closed_value h obj = true ->
  exists r, stringifyCircularJSON h obj = Ok r.
Proof.
  intros Hc Hv. unfold stringifyCircularJSON, stringify_with.
  destruct (ser_total Hc (S (size h)) [] ∅ EmptyString obj) as [st' [r [-> _]]]; auto.
  - constructor.
  - intros a [].
  - simpl. lia.
  - cbn [bind]. eauto.
Qed.

End Serializer.

Section TreesInTheStore.
Variable h : gmap addr container.

Abbreviation circ := (ser_property circular_replacer h).
Abbreviation plain := (ser_property no_replacer h).

Lemma plain_primitive (n : nat) (stack : list addr) (seen : gset addr)
    (k : string) (v : ref_value) :
  is_ref v = false ->
  circ n stack seen k v = with_state seen (plain n stack tt k v).
Proof.
  intros Hv. destruct n as [|n]; [reflexivity|].
  rewrite !ser_property_S. destruct v; try discriminate Hv; reflexivity.
Qed.

(** On trees laid out in the store, the serializer with the visited
    set and the one without replacer run alike, step for step. *)
Lemma forest_sim (vs : list ref_value) (fp : gset addr) :
  forest h vs fp ->
  forall (n : nat) (stack : list addr) (seen : gset addr) (kvs : list (string * ref_value)),
    List.map snd kvs = vs ->
    fp ## seen ->
    (forall a, a ∈ fp -> a ∉ stack) ->
    ser_each (circ n stack) seen kvs
    = with_state (seen ∪ fp) (ser_each (plain n stack) tt kvs).
Proof.
  induction 1 as [| v vs fp Hv Hf IH | a c vs fp1 fp2 Hc Hkids IHkids Ha Hf IH Hdisj];
    intros n stack seen kvs Hkvs Hseen Hstack.
  - destruct kvs; [|discriminate Hkvs]. simpl. f_equal. f_equal. set_solver.
  - destruct kvs as [|[k v'] kvs]; [discriminate Hkvs|].
    simpl in Hkvs. injection Hkvs as -> Hkvs.
    cbn [ser_each]. rewrite (plain_primitive n stack seen k v Hv).
    destruct (plain n stack tt k v) as [[[] r]| | |]; cbn [with_state bind fst snd]; auto.
    rewrite (IH n stack seen kvs Hkvs Hseen Hstack).
    destruct (ser_each (plain n stack) tt kvs) as [[[] rs]| | |]; reflexivity.
  - destruct kvs as [|[k v'] kvs]; [discriminate Hkvs|].
    simpl in Hkvs. injection Hkvs as -> Hkvs.
    cbn [ser_each]. destruct n as [|n]; [reflexivity|].
    assert (Has : a ∉ seen) by set_solver.
    assert (Hast : a ∉ stack) by (apply Hstack; set_solver).
    rewrite (ser_first h n stack seen k a c Has Hast Hc).
    rewrite (ser_property_S h no_replacer). unfold no_replacer at 1. rewrite Hc.
    rewrite bool_decide_eq_false_2 by assumption.
    rewrite (IHkids n (a :: stack) ({[a]} ∪ seen) (properties c));
      [| apply children_properties | set_solver
       | intros b Hb Hin; apply elem_of_cons in Hin as [-> | Hin];
         [contradiction | apply (Hstack b); [set_solver | assumption]]].
    destruct (ser_each (plain n (a :: stack)) tt (properties c)) as [[[] rs]| | |];
      cbn [with_state bind fst snd]; auto.
    rewrite (IH (S n) stack ({[a]} ∪ seen ∪ fp1) kvs Hkvs);
      [| set_solver | intros b Hb; apply Hstack; set_solver].
    destruct (ser_each (plain (S n) stack) tt kvs) as [[[] rs']| | |];
      cbn [with_state bind fst snd]; auto.
    f_equal. f_equal. set_solver.
Qed.

Lemma tree_same_text (obj : ref_value) (fp : gset addr) :
  forest h [obj] fp -> stringifyCircularJSON h obj = JSON_stringify h obj.
Proof.
  intros Hf. unfold stringifyCircularJSON, JSON_stringify, stringify_with.
  assert (E := forest_sim _ _ Hf (S (size h)) [] ∅ [(EmptyString, obj)] eq_refl).
  specialize (E ltac:(set_solver) ltac:(intros ? ?; set_solver)).
  cbn [ser_each] in E.
  destruct (circ (S (size h)) [] ∅ EmptyString obj) as [[s1 r1]| | |];
    destruct (plain (S (size h)) [] tt EmptyString obj) as [[[] r2]| | |];
    cbn [bind with_state fst snd] in E |- *;
    try reflexivity; try discriminate E; try (injection E as ->; reflexivity).
  injection E as _ ->. reflexivity.
Qed.

(** Once a container was serialized, or was already visited, a later
    occurrence among the properties of the same parent serializes to
    [undefined]. *)
Lemma later_occurrence_undefined (n : nat) (stack : list addr) :
  forall (ms1 : list (string * ref_value)) (seen : gset addr) (k : string) (a : addr)
         (ms2 : list (string * ref_value)) (st' : gset addr) (rs : list serialized),
    (exists k1, In (k1, RRef a) ms1) \/ a ∈ seen ->
    ser_each (circ n stack) seen (ms1 ++ (k, RRef a) :: ms2) = Ok (st', rs) ->
    rs !! length ms1 = Some (k, None).
Proof.
  induction ms1 as [|[k0 v0] ms1 IH]; intros seen k a ms2 st' rs Hocc H.
  - destruct Hocc as [[k1 []] | Ha].
    cbn [app ser_each] in H. destruct n as [|n]; [discriminate H|].
    rewrite (ser_visited h n stack seen k a Ha) in H. cbn [bind fst snd] in H.
    bind_inv H. injection H as <- <-. reflexivity.
  - cbn [app ser_each] in H. bind_inv H. destruct a0 as [st1 r1].
    bind_inv H. destruct a0 as [st2 rs2]. injection H as <- <-.
    cbn [length fst snd] in *. apply ser_grows in E as [Hsub Hself].
    apply (IH st1 k a ms2 st2 rs2); [|assumption].
    destruct Hocc as [[k1 [[= -> ->] | Hin]] | Ha].
    + right. now apply Hself.
    + left. eauto.
    + right. set_solver.
Qed.

Lemma object_text_skips (rs1 rs2 : list serialized) (k : string) :
  object_text (rs1 ++ (k, None) :: rs2) = object_text (rs1 ++ rs2).
Proof. unfold object_text. now rewrite !omap_app. Qed.

Lemma array_text_null (rs1 rs2 : list serialized) (k : string) :
  array_text (rs1 ++ (k, None) :: rs2) = array_text (rs1 ++ (k, Some "null") :: rs2).
Proof. unfold array_text. now rewrite !List.map_app. Qed.

End TreesInTheStore.

(** C2 (as stated, refuted): in a Sequence the slot of an already visited
    container is not omitted; a placeholder [null] is emitted and the
    parent keeps its number of members.  For [a = []; a[0] = a] the text
    is [[null]], not [[]]. *)
Lemma stringify_cycle_in_sequence_keeps_slot :
  stringifyCircularJSON {[ 0%nat := CArray [RRef 0%nat] ]} (RRef 0%nat) = Ok (Some "[null]")
  /\ stringifyCircularJSON {[ 0%nat := CArray [RRef 0%nat] ]} (RRef 0%nat) <> Ok (Some "[]").
Proof. split; [vm_compute; reflexivity | vm_compute; discriminate]. Qed.

(** C2 (amended): a container whose identity is already in the visited
    set serializes to [undefined], whatever its key, and leaves the set
    unchanged.  In a parent Mapping such a member is omitted entirely (the
    text is that of the parent without it); in a parent Sequence the slot
    is kept and written [null].  The first occurrence of a container is
    marked visited and serialized.  No error is raised, on any store; for
    [o = {n: 42}] with [o.self = o] the result is [{"n":42}]. *)
Theorem stringify_drops_visited :
  (forall (h : gmap addr container) (n : nat) (stack : list addr) (seen : gset addr)
          (k : string) (a : addr),
      a ∈ seen ->
      ser_property circular_replacer h (S n) stack seen k (RRef a) = Ok (seen, None))
  /\ (forall (rs1 rs2 : list serialized) (k : string),
        object_text (rs1 ++ (k, None) :: rs2) = object_text (rs1 ++ rs2))
  /\ (forall (rs1 rs2 : list serialized) (k : string),
        array_text (rs1 ++ (k, None) :: rs2) = array_text (rs1 ++ (k, Some "null") :: rs2))
  /\ (forall (h : gmap addr container) (n : nat) (stack : list addr) (seen : gset addr)
             (k : string) (a : addr) (c : container),
        a ∉ seen -> a ∉ stack -> h !! a = Some c ->
        ser_property circular_replacer h (S n) stack seen k (RRef a)
        = bind (ser_each (ser_property circular_replacer h n (a :: stack))
                         ({[a]} ∪ seen) (properties c))
               (fun rs => Ok (fst rs, Some (container_text c (snd rs)))))
  /\ (forall (h : gmap addr container) (obj : ref_value),
        closed h = true -> closed_value h obj = true ->
        exists r, stringifyCircularJSON h obj = Ok r)
  /\ stringifyCircularJSON
       {[ 0%nat := CObject [("n", RNum 42); ("self", RRef 0%nat)] ]} (RRef 0%nat)
     = Ok (Some ("{" +:+ quote "n" +:+ ":42}")).
Proof.
  split; [exact ser_visited|].
  split; [exact object_text_skips|].
  split; [exact array_text_null|].
  split; [exact ser_first|].
  split; [exact stringifyCircularJSON_total|].
  vm_compute. reflexivity.
Qed.

Lemma stringify_drops_visited_witness :
  ser_property circular_replacer ∅ 1 [] {[ 7%nat ]} "k" (RRef 7%nat) = Ok ({[ 7%nat ]}, None)
  /\ (exists r, stringifyCircularJSON
                  {[ 0%nat := CObject [("n", RNum 42); ("self", RRef 0%nat)] ]} (RRef 0%nat)
                = Ok r).
Proof.
  destruct stringify_drops_visited as [H1 [_ [_ [_ [H5 _]]]]]. split.
  - apply (H1 ∅ 0%nat [] {[ 7%nat ]} "k" 7%nat). apply elem_of_singleton. reflexivity.
  - apply (H5 {[ 0%nat := CObject [("n", RNum 42); ("self", RRef 0%nat)] ]} (RRef 0%nat));
      vm_compute; reflexivity.
Defined.

(** C9 (as stated, refuted): when the two sibling positions are slots of
    a Sequence the second occurrence is not omitted but written [null]:
    for [a = [1]] the text of [[a, a]] is [[[1],null]]. *)
Lemma stringify_shared_in_sequence_writes_null :
  stringifyCircularJSON
    {[ 0%nat := CArray [RRef 1%nat; RRef 1%nat]; 1%nat := CArray [RNum 1] ]} (RRef 0%nat)
  = Ok (Some "[[1],null]")
  /\ JSON_stringify
       {[ 0%nat := CArray [RRef 1%nat; RRef 1%nat]; 1%nat := CArray [RNum 1] ]} (RRef 0%nat)
     = Ok (Some "[[1],[1]]").
Proof. split; vm_compute; reflexivity. Qed.

(** C9 (amended): on a tree laid out in the store without sharing and
    without cycle, [stringifyCircularJSON] returns exactly what
    [JSON.stringify] returns, and both succeed.  When the same container
    occurs again among the properties of one parent, the later occurrence
    serializes to [undefined]: it is omitted from a Mapping and written
    [null] in a Sequence; the first occurrence is kept.  For the diamond
    [{x: s, y: s}] with [s = {k: true}] the text is [{"x":{"k":true}}]. *)
Theorem stringify_unshared_is_standard :
  (forall (h : gmap addr container) (obj : ref_value) (fp : gset addr),
      forest h [obj] fp ->
      stringifyCircularJSON h obj = JSON_stringify h obj)
  /\ (forall (h : gmap addr container) (obj : ref_value) (fp : gset addr),
        forest h [obj] fp -> closed h = true -> closed_value h obj = true ->
        exists r, stringifyCircularJSON h obj = Ok r /\ JSON_stringify h obj = Ok r)
  /\ (forall (h : gmap addr container) (n : nat) (stack : list addr) (seen : gset addr)
             (ms1 ms2 : list (string * ref_value)) (k : string) (a : addr)
             (st' : gset addr) (rs : list serialized),
        (exists k1, In (k1, RRef a) ms1) ->
        ser_each (ser_property circular_replacer h n stack) seen (ms1 ++ (k, RRef a) :: ms2)
        = Ok (st', rs) ->
        rs !! length ms1 = Some (k, None)
        /\ object_text rs = object_text (take (length ms1) rs ++ drop (S (length ms1)) rs)
        /\ array_text rs
           = array_text (take (length ms1) rs ++ (k, Some "null") :: drop (S (length ms1)) rs))
  /\ stringifyCircularJSON
       {[ 0%nat := CObject [("x", RRef 1%nat); ("y", RRef 1%nat)];
          1%nat := CObject [("k", RBool true)] ]} (RRef 0%nat)
     = Ok (Some ("{" +:+ quote "x" +:+ ":{" +:+ quote "k" +:+ ":true}}")).
Proof.
  split; [exact tree_same_text|].
  split; [|split; [|vm_compute; reflexivity]].
  - intros h obj fp Hf Hc Hv.
    destruct (stringifyCircularJSON_total h obj Hc Hv) as [r Hr].
    exists r. split; [assumption|]. now rewrite <- (tree_same_text h obj fp Hf).
  - intros h n stack seen ms1 ms2 k a st' rs Hocc H.
    assert (L : rs !! length ms1 = Some (k, None)).
    { apply (later_occurrence_undefined h n stack ms1 seen k a ms2 st' rs); auto. }
    split; [assumption|].
    pose proof (take_drop_middle rs (length ms1) (k, None) L) as M.
    remember (take (length ms1) rs) as r1. remember (drop (S (length ms1)) rs) as r2.
    rewrite <- M. split; [apply object_text_skips | apply array_text_null].
Qed.

Lemma stringify_unshared_is_standard_witness :
  stringifyCircularJSON
    {[ 0%nat := CObject [("a", RRef 1%nat); ("b", RNum 2)]; 1%nat := CArray [RNum 1] ]}
    (RRef 0%nat)
  = JSON_stringify
      {[ 0%nat := CObject [("a", RRef 1%nat); ("b", RNum 2)]; 1%nat := CArray [RNum 1] ]}
      (RRef 0%nat)
  /\ (forall st' rs,
        ser_each (ser_property circular_replacer {[ 1%nat := CArray [RNum 1] ]} 2 []) ∅
                 ([("x", RRef 1%nat)] ++ ("y", RRef 1%nat) :: []) = Ok (st', rs) ->
        rs !! length [("x", RRef 1%nat)] = Some ("y", None)).
Proof.
  destruct stringify_unshared_is_standard as [H1 [_ [H3 _]]]. split.
  - apply (H1 _ (RRef 0%nat) ({[0%nat]} ∪ ({[1%nat]} ∪ ∅ ∪ ∅) ∪ ∅)).
    eapply forest_ref;
      [vm_compute; reflexivity | cbn [children List.map snd] | | apply forest_nil |].
    + eapply forest_ref; [vm_compute; reflexivity | cbn [children] | | | ].
      * apply forest_prim; [reflexivity | apply forest_nil].
      * set_solver.
      * apply forest_prim; [reflexivity | apply forest_nil].
      * set_solver.
    + set_solver.
    + set_solver.
  - intros st' rs H.
    apply (H3 {[ 1%nat := CArray [RNum 1] ]} 2%nat [] ∅ [("x", RRef 1%nat)] [] "y" 1%nat st' rs);
      [exists "x"; left; reflexivity | exact H].
Defined.

(** ** Array indices and key order *)

Section KeyOrder.

Lemma array_index_str (j : N) : (j < index_limit)%N -> array_index (index_str j) = Some j.
Proof.
intros Hj. unfold array_index, index_str. rewrite NilEmpty.usu.
assert (Hn : unorm (N.to_uint j) = N.to_uint j).
{ rewrite <- DecimalN.Unsigned.to_of. now rewrite DecimalN.Unsigned.of_to. }
destruct (uint_eq_dec (unorm (N.to_uint j)) (N.to_uint j)); [|contradiction].
rewrite DecimalN.Unsigned.of_to.
apply N.ltb_lt in Hj. now rewrite Hj.
Qed.

Lemma array_index_inv (s : string) (i : N) :
  array_index s = Some i -> s = index_str i /\ (i < index_limit)%N.
Proof.
unfold array_index, index_str.
destruct (NilEmpty.uint_of_string s) as [d|] eqn:E; [|discriminate].
destruct (uint_eq_dec (unorm d) d) as [Hn|]; [|discriminate].
destruct (N.ltb_spec (N.of_uint d) index_limit); [|discriminate].
intros [= <-]. split; [|assumption].
rewrite DecimalN.Unsigned.to_of, Hn. symmetry. now apply NilEmpty.sus.
Qed.

Lemma index_str_not_length (j : N) :
  (j < index_limit)%N -> String.eqb (index_str j) "length" = false.
Proof.
intros Hj. apply String.eqb_neq. intros E.
pose proof (array_index_str j Hj) as A. rewrite E in A. discriminate A.
Qed.

Lemma key_before_neq (k1 k2 : string) : key_before k1 k2 = true -> k1 <> k2.
Proof.
unfold key_before. intros H ->.
destruct (array_index k2) as [i|].
- apply N.ltb_lt in H. lia.
- now rewrite String.eqb_refl in H.
Qed.

Lemma ordered_app (l1 l2 : list string) :
  ordered (l1 ++ l2) = true <->
  ordered l1 = true /\ ordered l2 = true
  /\ (forall a b, In a l1 -> In b l2 -> key_before a b = true).
Proof.
induction l1 as [|k l1 IH]; simpl.
- intuition.
- rewrite !andb_true_iff, !forallb_forall, IH. split.
  + intros [Hk [H1 [H2 H12]]]. repeat split; auto.
    * intros x Hx. apply Hk. apply in_or_app; auto.
    * intros a b [<- | Ha] Hb; [apply Hk; apply in_or_app; auto | auto].
  + intros [[Hk H1] [H2 H12]]. repeat split; auto.
    intros x Hx. apply in_app_or in Hx as [Hx | Hx]; auto.
Qed.

Lemma ordered_remove (l1 l2 : list string) (k : string) :
  ordered (l1 ++ k :: l2) = true -> ordered (l1 ++ l2) = true.
Proof.
rewrite !ordered_app. simpl. rewrite andb_true_iff.
intros [H1 [[_ H2] H12]]. split; [assumption | split; [assumption|]].
intros a b Ha Hb. apply H12; simpl; auto.
Qed.

Lemma insert_index_last (i : N) (key : string) (v : value) (ps : props) :
  (forall k, In k (List.map fst ps) -> exists j, array_index k = Some j /\ (j < i)%N) ->
  insert_index i key v ps = ps ++ [(key, v)].
Proof.
induction ps as [|[k w] ps IH]; simpl; auto.
intros H. destruct (H k (or_introl eq_refl)) as [j [-> Hj]].
apply N.ltb_lt in Hj. rewrite Hj. f_equal. apply IH. intros k' Hk'. apply H; auto.
Qed.

(** Assigning a key that sorts after all present keys appends it. *)
Lemma put_last (key : string) (v : value) (ps : props) :
  ordered (List.map fst ps ++ [key]) = true -> put key v ps = ps ++ [(key, v)].
Proof.
intros H. apply ordered_app in H as [_ [_ H]].
assert (Hb : forall k, In k (List.map fst ps) -> key_before k key = true).
{ intros k Hk. apply H; simpl; auto. }
unfold put.
assert (N : lookup_prop key ps = None).
{ apply lookup_none_notin. intros Hin. now apply (key_before_neq key key (Hb key Hin)). }
rewrite N. destruct (array_index key) as [i|] eqn:E; [|reflexivity].
apply insert_index_last. intros k Hk. specialize (Hb k Hk). unfold key_before in Hb.
rewrite E in Hb. destruct (array_index k) as [j|]; [|discriminate].
exists j. split; [reflexivity | now apply N.ltb_lt].
Qed.

Lemma index_from_app (i : N) (l1 l2 : list value) :
  index_from i (l1 ++ l2) = index_from i l1 ++ index_from (i + N.of_nat (length l1)) l2.
Proof.
revert i; induction l1 as [|v l1 IH]; intros i; simpl.
- now rewrite N.add_0_r.
- rewrite IH. do 3 f_equal. lia.
Qed.

Lemma index_from_keys (i : N) (vs : list value) (k : string) :
  In k (List.map fst (index_from i vs)) ->
  exists j, k = index_str j /\ (i <= j < i + N.of_nat (length vs))%N.
Proof.
revert i; induction vs as [|v vs IH]; intros i; simpl; [tauto|].
intros [<- | Hin].
- exists i. split; [reflexivity | lia].
- destruct (IH _ Hin) as [j [-> Hj]]. exists j. split; [reflexivity | lia].
Qed.

Lemma index_from_ordered (i : N) (vs : list value) :
  (i + N.of_nat (length vs) <= index_limit)%N ->
  ordered (List.map fst (index_from i vs)) = true.
Proof.
revert i; induction vs as [|v vs IH]; intros i Hb; simpl; auto.
apply andb_true_iff. split.
- apply forallb_forall. intros k Hk.
  destruct (index_from_keys _ _ _ Hk) as [j [-> Hj]].
  unfold key_before. rewrite !array_index_str by (simpl in Hb; lia).
  apply N.ltb_lt. lia.
- apply IH. simpl in Hb. lia.
Qed.


Lemma index_from_values (i : N) (vs : list value) : List.map snd (index_from i vs) = vs.
Proof. revert i; induction vs as [|v vs IH]; intros i; simpl; auto. now rewrite IH. Qed.

Lemma elements_index_from (len i : N) (vs : list value) :
  (i + N.of_nat (length vs) <= len)%N -> (len <= index_limit)%N ->
  elements len (index_from i vs) = vs.
Proof.
revert i; induction vs as [|v vs IH]; intros i Hb Hl; simpl; auto.
unfold elements in *. cbn [omap list_omap fst snd].
rewrite array_index_str by (simpl in Hb; lia).
destruct (N.ltb_spec i len); [|simpl in Hb; lia].
f_equal. apply IH; [simpl in Hb; lia | assumption].
Qed.


End KeyOrder.

(** ** The pruner computes the pruned tree *)

Section Pruner.

Lemma value_forall_ind (P : value -> Prop)
  (Hundef : P VUndef) (Hnull : P VNull) (Hbool : forall b, P (VBool b))
  (Hnum : forall z, P (VNum z)) (Hnan : P VNaN) (Hstr : forall s, P (VStr s))
  (Hobj : forall k ps, Forall (fun kv : string * value => P (snd kv)) ps -> P (VObj k ps)) :
  forall v, P v.
Proof.
fix IH 1.
intros [| | b | z | | s | k ps];
  [exact Hundef | exact Hnull | apply Hbool | apply Hnum | exact Hnan | apply Hstr |].
apply Hobj. revert ps. fix go 1.
intros [|kv rest]; constructor; [apply IH | apply go].
Qed.


Lemma object_type_truthy (w : value) :
  truthy w = true -> is_object_type w = true -> is_container w = true.
Proof. destruct w; simpl; auto; discriminate. Qed.

Lemma prune_scalar (w : value) : is_container w = false -> prune w = w.
Proof. destruct w; simpl; auto; discriminate. Qed.




Lemma ordered_prefix (l1 l2 : list string) : ordered (l1 ++ l2) = true -> ordered l1 = true.
Proof. intros H. now apply ordered_app in H. Qed.



Lemma index_str_not_proto (i : N) : String.eqb (index_str i) "__proto__" = false.
Proof.
apply String.eqb_neq. intros E.
pose proof (digits_of_uint (N.to_uint i)) as D. fold (index_str i) in D.
rewrite E in D. discriminate D.
Qed.

(** Assigning an element of an array, or any key but [__proto__]. *)
Lemma write_other (o : value) (key : string) (v : value) :
  String.eqb key "__proto__" = false -> write o key v = set_prop o key v.
Proof. intros H. unfold write. now rewrite H. Qed.

Lemma ordered_first_new (acc : props) (k : string) (rest : list string) :
  ordered (List.map fst acc ++ k :: rest) = true -> lookup_prop k acc = None.
Proof.
intros Ho. apply lookup_none_notin. intros Hin.
apply in_split in Hin as [l1 [l2 E]]. rewrite E, <- app_assoc in Ho.
apply ordered_app in Ho as [_ [Ho _]]. cbn [app ordered] in Ho.
apply andb_true_iff in Ho as [Hk _]. rewrite forallb_forall in Hk.
specialize (Hk k). rewrite in_app_iff in Hk. cbn [In] in Hk.
now apply (key_before_neq k k (Hk (or_intror (or_introl eq_refl)))).
Qed.

Lemma compact_fold_plain (self : value -> outcome value) :
  forall (ps acc : props),
    ordered (List.map fst acc ++ List.map fst ps) = true ->
    (forall k w, In (k, w) ps -> is_container w = true -> self w = Ok (prune w)) ->
    fold_left (compact_reducer self) ps (Ok (VObj Plain acc))
    = Ok (VObj Plain
            (acc ++ omap (fun kv : string * value =>
                            let '(k, w) := kv in
                            if kept (k, w) then Some (k, prune w) else None) ps)).
Proof.
induction ps as [|[k w] ps IH]; intros acc Ho Hself; cbn [fold_left omap list_omap].
- now rewrite app_nil_r.
- assert (Hrest : fold_left (compact_reducer self) ps (Ok (VObj Plain acc))
                  = Ok (VObj Plain
                          (acc ++ omap (fun kv : string * value =>
                                          let '(k, w) := kv in
                                          if kept (k, w) then Some (k, prune w) else None) ps))).
  { apply IH.
    - simpl in Ho. now apply ordered_remove in Ho.
    - intros k' w' Hin. apply (Hself k'). simpl; auto. }
  unfold compact_reducer at 2. cbn [bind]. unfold kept. cbn [fst snd].
  destruct (truthy w) eqn:T; [|exact Hrest].
  assert (E : (if is_object_type w then self w else Ok w) = Ok (prune w)).
  { destruct (is_object_type w) eqn:O.
    - apply (Hself k); [simpl; auto | now apply object_type_truthy].
    - rewrite prune_scalar; [reflexivity|]. destruct w; simpl in *; auto; discriminate. }
  rewrite E. cbn [bind andb].
  destruct (String.eqb_spec k "__proto__") as [->|Hk]; cbn [negb].
  + unfold write. cbn [String.eqb Ascii.eqb Bool.eqb andb own].
    cbn [List.map fst] in Ho. rewrite (ordered_first_new acc _ _ Ho). exact Hrest.
  + rewrite write_other by now apply String.eqb_neq. cbn [set_prop].
    rewrite put_last.
    * rewrite IH.
      -- now rewrite <- app_assoc.
      -- rewrite List.map_app, <- app_assoc. exact Ho.
      -- intros k' w' Hin. apply (Hself k'). simpl; auto.
    * apply (ordered_prefix _ (List.map fst ps)). rewrite <- app_assoc. exact Ho.
Qed.








End Pruner.

(** ** The pruned tree: shape, idempotence *)

Section PrunedTree.


Lemma children_forall (P : value -> Prop) (ps : props) :
  Forall (fun kv : string * value => P (snd kv)) ps ->
  forall k w, In (k, w) ps -> P w.
Proof.
intros H k w Hin. rewrite List.Forall_forall in H. apply (H (k, w) Hin).
Qed.










End PrunedTree.






(** ** Unflatten, then walk *)

Section RoundTrip.

Lemma split_dot_nonempty (s : string) : split_dot s <> [].
Proof.
destruct s as [|c s]; simpl; [discriminate|].
destruct (Ascii.eqb c "."); [discriminate|].
destruct (split_dot s); discriminate.
Qed.

Lemma join_split (s : string) : join_dot (split_dot s) = s.
Proof.
induction s as [|c s IH]; [reflexivity|].
simpl split_dot. destruct (Ascii.eqb_spec c ".") as [->|Hc].
- destruct (split_dot s) as [|seg segs] eqn:E.
  + now destruct (split_dot_nonempty s).
  + rewrite <- IH. reflexivity.
- destruct (split_dot s) as [|seg segs] eqn:E.
  + now destruct (split_dot_nonempty s).
  + rewrite <- IH. destruct segs; reflexivity.
Qed.

Lemma leaves_obj (k : kind) (ps : props) : leaves (VObj k ps) = flat_map entry_leaves ps.
Proof. reflexivity. Qed.

Lemma leaves_middle (k : kind) (l1 l2 : props) (kv : string * value) :
  leaves (VObj k (l1 ++ kv :: l2))
  = flat_map entry_leaves l1 ++ entry_leaves kv ++ flat_map entry_leaves l2.
Proof. rewrite leaves_obj, flat_map_app. reflexivity. Qed.

Lemma leaves_below (k : kind) (ps : props) (e : string) (c : value) (q : list string) (v : value) :
  In (e, c) ps -> is_container c = true -> In (q, v) (leaves c) ->
  In (e :: q, v) (leaves (VObj k ps)).
Proof.
intros Hin Hc Hq. rewrite leaves_obj. apply in_flat_map. exists (e, c). split; [assumption|].
unfold entry_leaves. rewrite Hc. apply in_map_iff. exists (q, v). auto.
Qed.

Lemma leaves_at (k : kind) (ps : props) (e : string) (c : value) :
  In (e, c) ps -> is_container c = false -> In ([e], c) (leaves (VObj k ps)).
Proof.
intros Hin Hc. rewrite leaves_obj. apply in_flat_map. exists (e, c). split; [assumption|].
unfold entry_leaves. rewrite Hc. simpl; auto.
Qed.

Lemma leaves_head (k : kind) (ps : props) (q : list string) (v : value) :
  In (q, v) (leaves (VObj k ps)) ->
  exists s r, q = s :: r /\ In s (List.map fst ps).
Proof.
rewrite leaves_obj. intros H. apply in_flat_map in H as [[key w] [Hin Hq]].
assert (Hkey : In key (List.map fst ps)) by (apply in_map_iff; exists (key, w); auto).
unfold entry_leaves in Hq. destruct (is_container w).
- apply in_map_iff in Hq as [[q' v'] [[= <- <-] _]]. eauto.
- destruct Hq as [[= <- <-] | []]. eauto.
Qed.

Lemma update_middle (e : string) (x v : value) (l1 l2 : props) :
  lookup_prop e l1 = None ->
  update_prop e v (l1 ++ (e, x) :: l2) = l1 ++ (e, v) :: l2.
Proof.
induction l1 as [|[k w] l1 IH]; simpl.
- now rewrite String.eqb_refl.
- destruct (String.eqb k e); [discriminate|]. intros N. now rewrite IH.
Qed.

Lemma good_inv (k : kind) (ps : props) :
  good (VObj k ps) ->
  List.NoDup (List.map fst ps)
  /\ (forall key, isArray (VObj k ps) = true -> In key (List.map fst ps) ->
                  number_parses key = true)
  /\ (forall key w, In (key, w) ps -> is_container w = true -> good w /\ leaves w <> [])
  /\ (forall key w, In (key, w) ps -> is_container w = false -> is_object_type w = false).
Proof. inversion 1; subst; auto. Qed.

Lemma good_is_container (c : value) : good c -> is_container c = true.
Proof. now destruct 1. Qed.

(** Replacing or adding one property of a good container. *)
Lemma good_with (k k' : kind) (l1 l2 : props) (e : string) (x : value) :
  (k = Plain <-> k' = Plain) ->
  good (VObj k (l1 ++ l2)) ->
  ~ In e (List.map fst (l1 ++ l2)) ->
  (isArray (VObj k []) = true -> number_parses e = true) ->
  (is_container x = true -> good x /\ leaves x <> []) ->
  (is_container x = false -> is_object_type x = false) ->
  good (VObj k' (l1 ++ (e, x) :: l2)).
Proof.
intros Hk Hg Hnew He Hx1 Hx2.
apply good_inv in Hg as [Hnd [Hkeys [Hc Hs]]].
assert (Hperm : Permutation (List.map fst (l1 ++ (e, x) :: l2)) (e :: List.map fst (l1 ++ l2))).
{ rewrite !List.map_app. simpl. symmetry. apply Permutation_middle. }
constructor.
- apply (Permutation_NoDup (Permutation_sym Hperm)). now constructor.
- intros key Ha Hin. apply (Permutation_in _ Hperm) in Hin.
  assert (Ha' : isArray (VObj k []) = true).
  { destruct k, k'; simpl in *; auto; destruct Hk as [A B]; discriminate (A eq_refl). }
  destruct Hin as [<- | Hin]; [now apply He|].
  apply Hkeys; [destruct k; auto | assumption].
- intros key w Hin. apply in_app_or in Hin as [Hin | [[= <- <-] | Hin]]; auto.
  + apply (Hc key). apply in_or_app; auto.
  + apply (Hc key). apply in_or_app; auto.
- intros key w Hin. apply in_app_or in Hin as [Hin | [[= <- <-] | Hin]]; auto.
  + apply (Hs key). apply in_or_app; auto.
  + apply (Hs key). apply in_or_app; auto.
Qed.

Lemma good_without (k : kind) (l1 l2 : props) (e : string) (x : value) :
  good (VObj k (l1 ++ (e, x) :: l2)) ->
  good (VObj k (l1 ++ l2)) /\ ~ In e (List.map fst (l1 ++ l2)).
Proof.
intros Hg. apply good_inv in Hg as [Hnd [Hkeys [Hc Hs]]].
assert (Hperm : Permutation (List.map fst (l1 ++ (e, x) :: l2)) (e :: List.map fst (l1 ++ l2))).
{ rewrite !List.map_app. simpl. symmetry. apply Permutation_middle. }
apply (Permutation_NoDup Hperm) in Hnd. apply List.NoDup_cons_iff in Hnd as [Hnew Hnd].
split; [|assumption]. constructor; auto.
- intros key Ha Hin. apply Hkeys; [destruct k; auto|].
  apply (Permutation_in _ (Permutation_sym Hperm)). right; assumption.
- intros key w Hin. apply (Hc key). apply in_app_or in Hin as [Hin | Hin];
    apply in_or_app; simpl; auto.
- intros key w Hin. apply (Hs key). apply in_app_or in Hin as [Hin | Hin];
    apply in_or_app; simpl; auto.
Qed.

Lemma entry_leaves_container (e : string) (c : value) :
  is_container c = true ->
  entry_leaves (e, c)
  = List.map (fun pv : list string * value => (e :: fst pv, snd pv)) (leaves c).
Proof. intros H. unfold entry_leaves. now rewrite H. Qed.

Lemma entry_leaves_scalar (e : string) (c : value) :
  is_container c = false -> entry_leaves (e, c) = [([e], c)].
Proof. intros H. unfold entry_leaves. now rewrite H. Qed.

Lemma scalar_not_container (v : value) : is_object_type v = false -> is_container v = false.
Proof. destruct v; simpl; auto; discriminate. Qed.

(** Inserting one more path into a good tree adds that leaf, and only
    that leaf. *)
Lemma nest_insert (leaf : value) :
  is_object_type leaf = false ->
  forall (p : list string) (c : value),
    p <> [] -> forallb (fun s => negb (builtin_name s)) p = true -> good c ->
    (isArray c = true -> number_parses (hd EmptyString p) = true) ->
    apart p (leaves c) -> agrees p (leaves c) ->
    exists c', nest leaf p c = Ok c' /\ good c' /\ isArray c' = isArray c
               /\ Permutation (leaves c') ((p, leaf) :: leaves c).
Proof.
intros Hleaf. induction p as [|e rest IH]; intros c Hne Hnames Hgood Harr Hapart Hagree;
  [contradiction|].
cbn [forallb] in Hnames. apply andb_true_iff in Hnames as [He0 Hrest].
apply negb_true_iff in He0.
destruct Hgood as [k ps Hnd Hkeys Hcont Hscal].
assert (Hgood : good (VObj k ps)) by (constructor; assumption).
assert (Hk : k = Plain \/ e <> "length").
{ destruct k; [left; reflexivity | right]. intros ->. discriminate (Harr eq_refl). }
assert (Hi : inherited (VObj k ps) e = false).
{ apply container_not_inherited. destruct k; [left; auto | right]. exact (Harr eq_refl). }
rewrite nest_cons, read_member by assumption. cbn [bind].
destruct (lookup_prop e ps) as [cur|] eqn:L; cbn [default from_option id].
- destruct (update_existing e cur ps L) as [l1 [l2 [Eps [N1 Hupd]]]].
  assert (Hin : In (e, cur) ps) by (rewrite Eps; apply in_or_app; right; left; reflexivity).
  destruct (is_container cur) eqn:Hcc.
  + destruct (Hcont e cur Hin Hcc) as [Hgcur Hnonempty].
    assert (Htr : truthy cur = true) by (destruct cur; try discriminate Hcc; reflexivity).
    rewrite Htr.
    destruct (leaves cur) as [|[q0 v0] more] eqn:Elv; [contradiction|].
    assert (Hq0 : In (e :: q0, v0) (leaves (VObj k ps))).
    { apply (leaves_below k ps e cur); auto. rewrite Elv. left; reflexivity. }
    destruct rest as [|s r].
    * exfalso. destruct (Hapart (e :: q0) v0 Hq0) as [_ B]. apply B. exists q0. reflexivity.
    * destruct (IH cur) as [cur' [Hnest [Hgcur' [Harr' Hperm]]]].
      -- discriminate.
      -- exact Hrest.
      -- assumption.
      -- intros Hacur. cbn [hd].
         destruct cur as [| | | | | |kc psc]; try discriminate Hcc.
         assert (Hh : In (q0, v0) (leaves (VObj kc psc))) by (rewrite Elv; left; reflexivity).
         destruct (leaves_head kc psc q0 v0 Hh) as [s2 [r2 [-> Hs2]]].
         apply good_inv in Hgcur as [_ [Hkc _]].
         rewrite (Hagree (e :: s2 :: r2) v0 [e] s r s2 r2 Hq0 ltac:(discriminate) eq_refl eq_refl).
         now apply Hkc.
      -- intros q v Hq.
         destruct (Hapart (e :: q) v (leaves_below k ps e cur q v Hin Hcc Hq)) as [A B].
         split; intros Hp; [apply A | apply B]; now apply prefix_cons.
      -- intros q v pre s1 r1 s2 r2 Hq Hpre E1 E2.
         apply (Hagree (e :: q) v (e :: pre) s1 r1 s2 r2
                       (leaves_below k ps e cur q v Hin Hcc Hq)).
         ++ discriminate.
         ++ simpl. now rewrite E1.
         ++ simpl. now rewrite E2.
      -- rewrite Hnest. cbn [bind].
         pose proof (good_is_container cur' Hgcur') as Hcc'.
         rewrite store_back_container by assumption. rewrite Hupd.
         exists (VObj k (l1 ++ (e, cur') :: l2)). split; [reflexivity|].
         rewrite Eps in Hgood. apply good_without in Hgood as [Hg0 Hnew].
         split; [|split; [reflexivity|]].
         ++ apply (good_with k k l1 l2 e cur' (conj (fun H => H) (fun H => H)) Hg0 Hnew).
            ** intros Ha. cbn [hd] in Harr. apply Harr. now destruct k.
            ** intros _. split; [assumption|]. intros Hnil. rewrite Hnil in Hperm.
               now apply Permutation_nil_cons in Hperm.
            ** rewrite Hcc'. discriminate.
         ++ rewrite Eps, !leaves_middle.
            rewrite !entry_leaves_container by assumption. rewrite Elv in Hperm |- *.
            rewrite Hperm. cbn [List.map fst snd].
            rewrite <- !app_comm_cons. symmetry. apply Permutation_middle.
  + exfalso. destruct (Hapart [e] cur (leaves_at k ps e cur Hin Hcc)) as [A _].
    apply A. exists rest. reflexivity.
- cbn [truthy].
  set (fresh := if isNaN_Number (head rest) then _ else _).
  destruct (write_member k ps e fresh Hk Hi) as [k' [-> Hplain]]. cbn [bind].
  destruct (put_new e fresh ps L) as [l1 [l2 [Eps ->]]].
  assert (Hnew : ~ In e (List.map fst (l1 ++ l2))).
  { rewrite <- Eps. now apply lookup_none_notin. }
  assert (N1 : lookup_prop e l1 = None).
  { rewrite Eps in L. now apply lookup_none_app in L. }
  assert (He : isArray (VObj k []) = true -> number_parses e = true).
  { intros Ha. apply Harr. now destruct k. }
  rewrite Eps in Hgood.
  assert (Ha' : isArray (VObj k' (l1 ++ l2)) = isArray (VObj k ps)).
  { destruct k, k'; simpl; auto; destruct Hplain as [A B];
      [discriminate (A eq_refl) | discriminate (B eq_refl)]. }
  destruct rest as [|s r].
  + subst fresh. cbn [head isNaN_Number nest bind].
    pose proof (scalar_not_container leaf Hleaf) as Hlc.
    assert (Hsb : store_back (VObj k' (l1 ++ (e, leaf) :: l2)) e leaf
                  = VObj k' (l1 ++ (e, leaf) :: l2))
      by (destruct leaf; try discriminate; reflexivity).
    rewrite Hsb. eexists. split; [reflexivity|]. split; [|split].
    * apply (good_with k k' l1 l2 e leaf Hplain Hgood Hnew He); [|auto].
      rewrite Hlc. discriminate.
    * exact Ha'.
    * rewrite Eps, leaves_middle, leaves_obj, flat_map_app.
      rewrite entry_leaves_scalar by assumption. simpl. symmetry. apply Permutation_middle.
  + assert (Hfresh : fresh = VObj (if number_parses s then Arr 0 else Plain) []).
    { subst fresh. cbn [head isNaN_Number]. now destruct (number_parses s). }
    destruct (IH fresh) as [fresh' [Hnest [Hgf [Harrf Hperm]]]].
    * discriminate.
    * exact Hrest.
    * rewrite Hfresh. constructor; [constructor | intros ? ? [] | intros ? ? [] | intros ? ? []].
    * rewrite Hfresh. cbn [hd]. destruct (number_parses s); [auto | discriminate].
    * rewrite Hfresh. intros q v [].
    * rewrite Hfresh. intros q v pre s1 r1 s2 r2 [].
    * rewrite Hnest. cbn [bind].
      pose proof (good_is_container fresh' Hgf) as Hcf.
      rewrite store_back_container by assumption. rewrite update_middle by assumption.
      eexists. split; [reflexivity|].
      assert (Hlf : leaves fresh = []) by (rewrite Hfresh; reflexivity).
      rewrite Hlf in Hperm.
      split; [|split].
      -- apply (good_with k k' l1 l2 e fresh' Hplain Hgood Hnew He).
         ++ intros _. split; [assumption|]. intros Hnil. rewrite Hnil in Hperm.
            now apply Permutation_nil_cons in Hperm.
         ++ rewrite Hcf. discriminate.
      -- exact Ha'.
      -- rewrite Eps, leaves_middle, leaves_obj, flat_map_app.
         rewrite entry_leaves_container by assumption.
         rewrite Hperm. cbn [List.map fst snd app].
         symmetry. apply Permutation_middle.
Qed.

Lemma spread_andThen (t k : trace) :
  spread (andThen t k)
  = bind (spread t) (fun l1 => bind (spread k) (fun l2 => Ok (l1 ++ l2))).
Proof.
induction t as [|p v t IH|e]; cbn [andThen spread bind].
- destruct (spread k); reflexivity.
- rewrite IH. destruct (spread t); cbn [bind]; auto. destruct (spread k); reflexivity.
- reflexivity.
Qed.

(** On a good tree the walker completes and yields the leaves. *)
Lemma walk_leaves :
  forall c, good c ->
            forall previous,
              spread (walk c previous)
              = Ok (List.map (fun pv : list string * value => (previous ++ fst pv, snd pv))
                             (leaves c)).
Proof.
induction c as [| | b | z | | s | k ps IH] using value_forall_ind; intros Hg previous;
  try (inversion Hg; fail).
apply good_inv in Hg as [_ [_ [Hcont Hscal]]].
rewrite leaves_obj. cbn [walk].
induction ps as [|[key w] ps IHps]; [reflexivity|].
inversion IH as [|? ? Hw Hrest]; subst. cbn [fold_right flat_map].
rewrite spread_andThen, IHps; auto.
- rewrite List.map_app. destruct (is_container w) eqn:Hcw.
  + destruct (Hcont key w (or_introl eq_refl) Hcw) as [Hgw _].
    assert (Ho : is_object_type w = true) by (destruct w; try discriminate Hcw; reflexivity).
    rewrite Ho. simpl in Hw. rewrite (Hw Hgw). cbn [bind].
    rewrite entry_leaves_container by assumption. rewrite List.map_map. cbn [fst snd].
    do 2 f_equal. apply map_ext. intros [q v]. cbn [fst snd]. now rewrite <- app_assoc.
  + rewrite (Hscal key w (or_introl eq_refl) Hcw). cbn [spread bind].
    now rewrite entry_leaves_scalar.
- intros key' w' Hin. apply (Hcont key'). simpl; auto.
- intros key' w' Hin. apply (Hscal key'). simpl; auto.
Qed.

Lemma flat_paths_in (F : props) (q : list string) (v : value) :
  In (q, v) (flat_paths F) -> exists k, In (k, v) F /\ q = split_dot k.
Proof.
unfold flat_paths. intros H. apply in_map_iff in H as [[k v'] [[= <- <-] Hin]]. eauto.
Qed.

Lemma split_dot_inj (k1 k2 : string) : split_dot k1 = split_dot k2 -> k1 = k2.
Proof. intros E. rewrite <- (join_split k1), <- (join_split k2). now rewrite E. Qed.

Lemma unflatten_fold :
  forall (F done : props) (res : value),
    good res -> isArray res = false ->
    Permutation (leaves res) (flat_paths done) ->
    List.NoDup (List.map fst (done ++ F)) ->
    (forall k v, In (k, v) F -> is_object_type v = false) ->
    (forall k v, In (k, v) F ->
       forallb (fun s => negb (builtin_name s)) (split_dot k) = true) ->
    prefix_free (flat_paths (done ++ F)) ->
    kind_consistent (flat_paths (done ++ F)) ->
    exists t, fold_left unflatten_reducer F (Ok res) = Ok t /\ good t
              /\ Permutation (leaves t) (flat_paths (done ++ F)).
Proof.
induction F as [|[k leaf] F IH]; intros done res Hg Hroot Hperm Hnd Hleaf Hnames Hpf Hkc.
- exists res. rewrite app_nil_r. auto.
- cbn [fold_left]. unfold unflatten_reducer at 2. cbn [bind].
  assert (Hnew : ~ In k (List.map fst done)).
  { rewrite List.map_app in Hnd. cbn [List.map fst] in Hnd.
    apply NoDup_remove_2 in Hnd. intros Hin. apply Hnd. apply in_or_app; auto. }
  assert (Hp : In (split_dot k, leaf) (flat_paths (done ++ (k, leaf) :: F))).
  { unfold flat_paths. apply in_map_iff. exists (k, leaf). split; [reflexivity|].
    apply in_or_app; simpl; auto. }
  assert (Hold : forall q v, In (q, v) (leaves res) ->
                   In (q, v) (flat_paths (done ++ (k, leaf) :: F)) /\ q <> split_dot k).
  { intros q v Hq. apply (Permutation_in _ Hperm) in Hq. split.
    - unfold flat_paths in *. rewrite List.map_app. apply in_or_app; auto.
    - intros E. apply flat_paths_in in Hq as [k' [Hk' ->]]. apply split_dot_inj in E. subst k'.
      apply Hnew. apply in_map_iff. exists (k, v); auto. }
  destruct (nest_insert leaf (Hleaf k leaf (or_introl eq_refl)) (split_dot k) res)
    as [res' [Hnest [Hg' [Harr' Hperm']]]].
  + apply split_dot_nonempty.
  + apply (Hnames k leaf). simpl; auto.
  + assumption.
  + intros Ha. rewrite Ha in Hroot. discriminate.
  + intros q v Hq. destruct (Hold q v Hq) as [Hin Hne]. split; intros Hpre; apply Hne.
    * apply (Hpf q (split_dot k) v leaf); auto.
    * symmetry. apply (Hpf (split_dot k) q leaf v); auto.
  + intros q v pre s1 r1 s2 r2 Hq Hpre E1 E2. destruct (Hold q v Hq) as [Hin _].
    apply (Hkc (split_dot k) q leaf v pre s1 r1 s2 r2); auto.
  + rewrite Hnest.
    destruct (IH (done ++ [(k, leaf)]) res') as [t [Hfold [Hgt Hpt]]].
    * assumption.
    * now rewrite Harr'.
    * rewrite Hperm', Hperm. unfold flat_paths. rewrite List.map_app. cbn [List.map fst snd].
      apply Permutation_cons_append.
    * now rewrite <- app_assoc.
    * intros k' v' Hin. apply (Hleaf k'). simpl; auto.
    * intros k' v' Hin. apply (Hnames k' v'). simpl; auto.
    * now rewrite <- app_assoc.
    * now rewrite <- app_assoc.
    * exists t. rewrite <- app_assoc in Hpt. auto.
Qed.

End RoundTrip.

(** C5 (as stated, refuted): [null] is a scalar, and the flat mapping
    [{a: null}] nests to the tree [{a: null}]; the walker throws on it, so
    flattening does not give the mapping back.  Besides, neither "-1" nor
    "length" is a numeric segment, yet [{'a.-1': 1, 'a.length': 3}] puts a
    Sequence under [a], whose length the second key then sets: flattening
    gives back the first pair only. *)
Lemma flatten_does_not_invert :
  unflattenObject (VObj Plain [("a", VNull)]) = Ok (VObj Plain [("a", VNull)])
  /\ flatten (VObj Plain [("a", VNull)]) = Throw TypeError
  /\ spec_numeric_segment "-1" = false
  /\ spec_numeric_segment "length" = false
  /\ unflattenObject (VObj Plain [("a.-1", VNum 1); ("a.length", VNum 3)])
     = Ok (VObj Plain [("a", VObj (Arr 3) [("-1", VNum 1)])])
  /\ flatten (VObj Plain [("a", VObj (Arr 3) [("-1", VNum 1)])]) = Ok [("a.-1", VNum 1)].
Proof. repeat split; reflexivity. Qed.

(** C5 (amended): let [F] be a flat mapping of dot-joined paths to
    scalars other than [null], in which no path is the beginning of
    another, no segment is the name of a member of [Object.prototype]
    and, below the root, no position is addressed both by a segment
    [Number] converts and by one it does not.  Then [unflattenObject(F)]
    succeeds, the walker completes on the result, and the pairs it
    yields, each path joined with a dot, are those of [F] up to order. *)
Theorem unflatten_then_flatten (kd : kind) (F : props) :
  List.NoDup (List.map fst F) ->
  (forall k v, In (k, v) F -> is_object_type v = false) ->
  (forall k v, In (k, v) F ->
     forallb (fun s => negb (builtin_name s)) (split_dot k) = true) ->
  prefix_free (flat_paths F) ->
  kind_consistent (flat_paths F) ->
  exists t L,
    unflattenObject (VObj kd F) = Ok t
    /\ flatten t = Ok L
    /\ Permutation L F.
Proof.
intros Hnd Hleaf Hnames Hpf Hkc.
destruct (unflatten_fold F [] empty_object) as [t [Hfold [Hg Hperm]]]; auto.
- constructor; [constructor | intros ? ? [] | intros ? ? [] | intros ? ? []].
- exists t. eexists. split; [exact Hfold|].
  unfold flatten, walkThrough. rewrite (walk_leaves t Hg []). cbn [bind].
  split; [reflexivity|].
  rewrite List.map_map. cbn [fst snd app].
  rewrite (Permutation_map _ Hperm). unfold flat_paths. rewrite List.map_map. cbn [fst snd app].
  erewrite map_ext; [rewrite List.map_id; reflexivity|].
  intros [k v]. cbn [fst snd]. now rewrite join_split.
Qed.

Lemma unflatten_then_flatten_witness :
  exists t L,
    unflattenObject (VObj Plain [("a.b.0", VNum 8); ("a.c", VStr "x"); ("d", VNum 3)]) = Ok t
    /\ flatten t = Ok L
    /\ Permutation L [("a.b.0", VNum 8); ("a.c", VStr "x"); ("d", VNum 3)].
Proof.
apply (unflatten_then_flatten Plain [("a.b.0", VNum 8); ("a.c", VStr "x"); ("d", VNum 3)]).
- repeat constructor; simpl; intuition discriminate.
- intros k v [[= <- <-] | [[= <- <-] | [[= <- <-] | []]]]; reflexivity.
- intros k v [[= <- <-] | [[= <- <-] | [[= <- <-] | []]]]; reflexivity.
- intros p q v w Hp Hq [r Hr]. simpl in Hp, Hq.
  destruct Hp as [[= <- <-] | [[= <- <-] | [[= <- <-] | []]]];
    destruct Hq as [[= <- <-] | [[= <- <-] | [[= <- <-] | []]]];
    try reflexivity; discriminate Hr.
- intros p q v w pre s1 r1 s2 r2 Hp Hq Hpre E1 E2. simpl in Hp, Hq.
  destruct Hp as [[= <- <-] | [[= <- <-] | [[= <- <-] | []]]];
    destruct Hq as [[= <- <-] | [[= <- <-] | [[= <- <-] | []]]];
    destruct pre as [|x1 [|x2 [|x3 [|x4 pre]]]]; try contradiction;
    simpl in E1, E2; try discriminate E1; try discriminate E2;
    injection E1 as <- <-; injection E2; intros; subst; reflexivity.
Defined.

(** * Further properties *)

Import Shapes Host Collections Csv.

(** ** Writes that leave the other keys alone *)

Section PutOther.

Lemma lookup_skip (k key : string) (v : value) (l1 l2 : props) :
  k <> key -> lookup_prop k (l1 ++ (key, v) :: l2) = lookup_prop k (l1 ++ l2).
Proof.
intros Hne. induction l1 as [|[k' w] l1 IH]; simpl.
- destruct (String.eqb_spec key k); [congruence | reflexivity].
- now rewrite IH.
Qed.

(** Every write lands at one place of the list. *)
Lemma put_shape (key : string) (v : value) (ps : props) :
  exists l1 l2,
    put key v ps = l1 ++ (key, v) :: l2
    /\ ((lookup_prop key ps = None /\ ps = l1 ++ l2)
        \/ (exists c, ps = l1 ++ (key, c) :: l2)).
Proof.
destruct (lookup_prop key ps) as [c|] eqn:L.
- destruct (update_existing _ _ _ L) as [l1 [l2 [E [_ U]]]].
  exists l1, l2. rewrite (put_existing _ c) by assumption. rewrite U. eauto.
- destruct (put_new key v ps L) as [l1 [l2 [E ->]]]. exists l1, l2. auto.
Qed.

Lemma lookup_put_other (k key : string) (v : value) (ps : props) :
  k <> key -> lookup_prop k (put key v ps) = lookup_prop k ps.
Proof.
intros Hne. destruct (put_shape key v ps) as [l1 [l2 [-> [[_ ->] | [c ->]]]]];
  now rewrite !lookup_skip by assumption.
Qed.

Lemma keys_put (k key : string) (v : value) (ps : props) :
  In k (List.map fst (put key v ps)) <-> k = key \/ In k (List.map fst ps).
Proof.
destruct (put_shape key v ps) as [l1 [l2 [-> [[_ ->] | [c ->]]]]];
  rewrite !List.map_app; cbn [List.map fst]; rewrite !in_app_iff; simpl; intuition.
Qed.

Lemma NoDup_put (key : string) (v : value) (ps : props) :
  List.NoDup (List.map fst ps) -> List.NoDup (List.map fst (put key v ps)).
Proof.
destruct (put_shape key v ps) as [l1 [l2 [-> [[L ->] | [c ->]]]]];
  rewrite !List.map_app; cbn [List.map fst]; [|auto].
intros Hnd. apply lookup_none_notin in L. rewrite List.map_app in L.
apply NoDup_Add with (a := key) (l := List.map fst l1 ++ List.map fst l2).
- apply Add_app.
- split; assumption.
Qed.

(** In a list of distinct keys, each pair is what a lookup finds. *)
Lemma lookup_in (key : string) (v : value) (ps : props) :
  List.NoDup (List.map fst ps) -> In (key, v) ps -> lookup_prop key ps = Some v.
Proof.
induction ps as [|[k w] ps IH]; simpl; [tauto|].
intros Hnd [[= -> ->] | Hin].
- now rewrite String.eqb_refl.
- apply List.NoDup_cons_iff in Hnd as [Hk Hnd].
  destruct (String.eqb_spec k key) as [->|_]; [|auto].
  exfalso. apply Hk. apply in_map_iff. exists (key, v). auto.
Qed.

Lemma lookup_some_in (key : string) (v : value) (ps : props) :
  lookup_prop key ps = Some v -> In (key, v) ps.
Proof.
induction ps as [|[k w] ps IH]; simpl; [discriminate|].
destruct (String.eqb_spec k key) as [->|_]; [intros [= ->]; auto | auto].
Qed.

End PutOther.

(** ** deepMerge *)

Section Merge.

Lemma unique_In (k : string) (l : list string) : In k (unique l) <-> In k l.
Proof.
induction l as [|a l IH]; simpl; [tauto|].
rewrite filter_In, IH, negb_true_iff, String.eqb_neq.
destruct (String.eqb_spec a k); intuition.
Qed.

Lemma unique_NoDup (l : list string) : List.NoDup (unique l).
Proof.
induction l as [|a l IH]; simpl; constructor.
- rewrite filter_In, negb_true_iff, String.eqb_neq. tauto.
- now apply List.NoDup_filter.
Qed.

Lemma read_plain (ps : props) (k : string) :
  builtin_name k = false \/ lookup_prop k ps <> None ->
  read (VObj Plain ps) k = Ok (default VUndef (lookup_prop k ps)).
Proof.
intros H. unfold read, inherited. cbn [own get_prop inherited_names].
fold (builtin_name k).
destruct (lookup_prop k ps) as [v|]; [reflexivity|].
destruct H as [-> | H]; [reflexivity | congruence].
Qed.

(** Distinct new keys written one after the other. *)
Lemma fold_put_distinct (g : string -> value) (keys : list string) :
  forall ps : props,
    List.NoDup keys ->
    (forall k, In k keys -> ~ In k (List.map fst ps)) ->
    List.NoDup (List.map fst ps) ->
    let ps' := fold_left (fun acc k => put k (g k) acc) keys ps in
    List.NoDup (List.map fst ps')
    /\ (forall k, In k (List.map fst ps') <-> In k (List.map fst ps) \/ In k keys)
    /\ (forall k, In k keys -> lookup_prop k ps' = Some (g k))
    /\ (forall k, ~ In k keys -> lookup_prop k ps' = lookup_prop k ps).
Proof.
induction keys as [|a keys IH]; intros ps Hnd Hnew Hps; cbn [fold_left].
- repeat split; auto; try tauto; try (intros k []). intros [H | []]; exact H.
- apply List.NoDup_cons_iff in Hnd as [Ha Hnd].
  destruct (IH (put a (g a) ps)) as [H1 [H2 [H3 H4]]].
  + assumption.
  + intros k Hk Hin. apply keys_put in Hin as [-> | Hin]; [contradiction|].
    apply (Hnew k); simpl; auto.
  + now apply NoDup_put.
  + split; [assumption|]. split; [|split].
    * intros k. rewrite H2, keys_put. simpl. intuition.
    * intros k [<- | Hk]; [|auto]. rewrite H4 by assumption. apply lookup_put_same.
    * intros k Hk. rewrite H4 by (simpl in Hk; tauto).
      apply lookup_put_other. simpl in Hk. intros ->. tauto.
Qed.

Lemma merge_steps (a b : value) (f : string -> value -> value -> value)
    (x y : string -> value) (keys : list string) :
  (forall k, In k keys -> read a k = Ok (x k) /\ read b k = Ok (y k)) ->
  forall ps : props,
    fold_left
      (fun (acc : outcome props) (key : string) =>
         bind acc (fun ps =>
         bind (read a key) (fun x =>
         bind (read b key) (fun y =>
         bind (Ok (f key x y)) (fun v => Ok (put key v ps))))))
      keys (Ok ps)
    = Ok (fold_left (fun acc k => put k (f k (x k) (y k)) acc) keys ps).
Proof.
intros Hread. induction keys as [|k keys IH]; intros ps; cbn [fold_left]; [reflexivity|].
destruct (Hread k (or_introl eq_refl)) as [-> ->]. cbn [bind].
apply IH. intros k' Hk'. apply Hread. simpl; auto.
Qed.

End Merge.

(** X1, [deepMerge]: on two plain objects the result is a fresh plain
    object whose keys are those of either argument, each once, and whose
    value at a key is [fn(key, a[key], b[key])], a key that one argument
    lacks being passed as [undefined] there.  The merge is one level
    deep: [fn] receives nested values as they are.  (No key is the name
    of a member of [Object.prototype].) *)
Theorem deepMerge_applies_fn_at_each_key
    (pa pb : props) (f : string -> value -> value -> value) :
  (forall k, In k (List.map fst pa ++ List.map fst pb) -> builtin_name k = false) ->
  exists ps,
    deepMerge (VObj Plain pa) (VObj Plain pb) (fun k x y => Ok (f k x y)) = Ok (VObj Plain ps)
    /\ List.NoDup (List.map fst ps)
    /\ (forall k, In k (List.map fst ps) <-> In k (List.map fst pa) \/ In k (List.map fst pb))
    /\ (forall k, In k (List.map fst ps) ->
          lookup_prop k ps
          = Some (f k (default VUndef (lookup_prop k pa)) (default VUndef (lookup_prop k pb)))).
Proof.
intros Hnames. unfold deepMerge. cbn [entries bind].
rewrite (merge_steps _ _ f (fun k => default VUndef (lookup_prop k pa))
                     (fun k => default VUndef (lookup_prop k pb))).
- cbn [bind]. eexists. split; [reflexivity|].
  destruct (fold_put_distinct
              (fun k => f k (default VUndef (lookup_prop k pa)) (default VUndef (lookup_prop k pb)))
              (unique (List.map fst pa ++ List.map fst pb)) [])
    as [H1 [H2 [H3 _]]].
  + apply unique_NoDup.
  + intros k _ [].
  + constructor.
  + split; [exact H1|]. split.
    * intros k. rewrite H2, unique_In, in_app_iff. simpl. tauto.
    * intros k Hk. apply H3. apply H2 in Hk as [[] | Hk]. exact Hk.
- intros k Hk. apply (proj1 (unique_In _ _)) in Hk.
  split; apply read_plain; left; now apply Hnames.
Qed.

Lemma deepMerge_applies_fn_at_each_key_witness :
  exists ps,
    deepMerge (VObj Plain [("a", VNum 1); ("b", VNum 2)])
              (VObj Plain [("b", VNum 3); ("c", VNum 4)])
              (fun k x y => Ok (if truthy x then x else y)) = Ok (VObj Plain ps)
    /\ lookup_prop "c" ps = Some (VNum 4).
Proof.
destruct (deepMerge_applies_fn_at_each_key
            [("a", VNum 1); ("b", VNum 2)] [("b", VNum 3); ("c", VNum 4)]
            (fun k x y => if truthy x then x else y)) as [ps [E [_ [K V]]]].
- intros k Hk. simpl in Hk.
  destruct Hk as [<- | [<- | [<- | [<- | []]]]]; reflexivity.
- exists ps. split; [exact E|]. apply (V "c"). apply K. right. simpl. auto.
Defined.

(** ** renameKeys *)

Section Rename.

Lemma mapM_cons_ok {A B : Type} (f : A -> outcome B) (a : A) (l : list A) (r : list B) :
  mapM f (a :: l) = Ok r ->
  exists b bs, f a = Ok b /\ mapM f l = Ok bs /\ r = b :: bs.
Proof.
cbn [mapM]. destruct (f a) as [b| | |]; cbn [bind]; try discriminate.
destruct (mapM f l) as [bs| | |]; cbn [bind]; try discriminate.
intros [= <-]. eauto.
Qed.

Lemma mapM_length {A B : Type} (f : A -> outcome B) (l : list A) :
  forall r, mapM f l = Ok r -> length r = length l.
Proof.
induction l as [|a l IH]; intros r H.
- injection H as <-. reflexivity.
- apply mapM_cons_ok in H as [b [bs [_ [H ->]]]]. simpl. now rewrite (IH bs).
Qed.

Lemma lookup_app_some (key : string) (v : value) (l1 l2 : props) :
  lookup_prop key l1 = Some v -> lookup_prop key (l1 ++ l2) = Some v.
Proof.
induction l1 as [|[k w] l1 IH]; simpl; [discriminate|].
destruct (String.eqb k key); auto.
Qed.

(** Pairs written one after the other: a later pair replaces an earlier
    one of the same key. *)
Lemma fold_put_pairs (l : props) :
  forall ps : props,
    List.NoDup (List.map fst ps) ->
    let ps' := fold_left (fun acc (kv : string * value) => put (fst kv) (snd kv) acc) l ps in
    List.NoDup (List.map fst ps')
    /\ (forall n, In n (List.map fst ps') <-> In n (List.map fst ps) \/ In n (List.map fst l))
    /\ (forall n, lookup_prop n ps'
                  = match lookup_prop n (rev l) with
                    | Some v => Some v
                    | None => lookup_prop n ps
                    end).
Proof.
induction l as [|[k v] l IH]; intros ps Hnd; cbn [fold_left].
- simpl. repeat split; auto; tauto.
- destruct (IH (put k v ps) (NoDup_put k v ps Hnd)) as [H1 [H2 H3]].
  split; [exact H1|]. split.
  + intros n. rewrite H2, keys_put. simpl. intuition.
  + intros n. rewrite H3. cbn [rev fst snd].
    destruct (lookup_prop n (rev l)) as [w|] eqn:L.
    * now rewrite (lookup_app_some _ w).
    * rewrite lookup_app_none by assumption. simpl.
      destruct (String.eqb_spec k n) as [->|Hne].
      -- apply lookup_put_same.
      -- apply lookup_put_other. congruence.
Qed.

Lemma rename_steps (keysMap : value) (po : props) :
  forall (names : list string) (ps : props),
    mapM (new_name keysMap) (List.map fst po) = Ok names ->
    fold_left (rename_reducer keysMap) po (Ok ps)
    = Ok (fold_left (fun acc (kv : string * value) => put (fst kv) (snd kv) acc)
                    (combine names (List.map snd po)) ps).
Proof.
induction po as [|[key v] po IH]; intros names ps H.
- injection H as <-. reflexivity.
- cbn [List.map fst] in H. apply mapM_cons_ok in H as [n [ns [Hn [H ->]]]].
  cbn [fold_left List.map snd combine]. unfold rename_reducer at 2. cbn [bind].
  rewrite Hn. cbn [bind fst snd]. now apply IH.
Qed.

Lemma fold_put_ordered (l : props) :
  forall ps : props,
    ordered (List.map fst (ps ++ l)) = true ->
    fold_left (fun acc (kv : string * value) => put (fst kv) (snd kv) acc) l ps = ps ++ l.
Proof.
induction l as [|[k v] l IH]; intros ps Ho; cbn [fold_left fst snd].
- now rewrite app_nil_r.
- rewrite put_last.
  + rewrite IH; rewrite <- app_assoc; [reflexivity | exact Ho].
  + rewrite List.map_app in Ho. cbn [List.map fst] in Ho.
    change (k :: List.map fst l) with ([k] ++ List.map fst l) in Ho.
    rewrite app_assoc in Ho. now apply ordered_prefix in Ho.
Qed.

Lemma combine_fst_snd {A B : Type} (l : list (A * B)) :
  combine (List.map fst l) (List.map snd l) = l.
Proof. induction l as [|[a b] l IH]; simpl; [reflexivity | now rewrite IH]. Qed.

Lemma combine_keys {A B : Type} (l1 : list A) (l2 : list B) :
  length l1 = length l2 -> List.map fst (combine l1 l2) = l1.
Proof.
revert l2; induction l1 as [|a l1 IH]; intros [|b l2]; simpl; try discriminate; auto.
intros [= H]. now rewrite IH.
Qed.

Lemma nth_combine {A B : Type} (l1 : list A) (l2 : list B) (i : nat) (a : A) (b : B) :
  nth_error l1 i = Some a -> nth_error l2 i = Some b ->
  nth_error (combine l1 l2) i = Some (a, b).
Proof.
revert l2 i; induction l1 as [|x l1 IH]; intros [|y l2] [|i]; simpl; try discriminate.
- now intros [= ->] [= ->].
- apply IH.
Qed.

Lemma renameKeys_fold (keysMap : value) (k : kind) (po : props) (names : list string) :
  mapM (new_name keysMap) (List.map fst po) = Ok names ->
  renameKeys keysMap (VObj k po)
  = Ok (VObj Plain (fold_left (fun acc (kv : string * value) => put (fst kv) (snd kv) acc)
                              (combine names (List.map snd po)) [])).
Proof.
intros H. unfold renameKeys. cbn [entries bind]. now rewrite (rename_steps _ _ names).
Qed.

End Rename.

(** X2, [renameKeys]: the result is a fresh plain object holding, under
    each new name, the value of the last key of [obj] that was given
    this name; a key is given the text of [keysMap[key]] when that is
    truthy and keeps its own name otherwise.  Two keys renamed to one
    name leave one property. *)
Theorem renameKeys_last_key_wins
    (keysMap : value) (k : kind) (po : props) (names : list string) :
  mapM (new_name keysMap) (List.map fst po) = Ok names ->
  exists ps,
    renameKeys keysMap (VObj k po) = Ok (VObj Plain ps)
    /\ List.NoDup (List.map fst ps)
    /\ (forall n, In n (List.map fst ps) <-> In n names)
    /\ (forall n, lookup_prop n ps = lookup_prop n (rev (combine names (List.map snd po)))).
Proof.
intros H. rewrite (renameKeys_fold _ _ _ names H). eexists. split; [reflexivity|].
pose proof (mapM_length _ _ _ H) as Hlen. rewrite length_map in Hlen.
destruct (fold_put_pairs (combine names (List.map snd po)) [] (List.NoDup_nil _))
  as [H1 [H2 H3]].
split; [exact H1|]. split.
- intros n. rewrite H2. rewrite combine_keys by (now rewrite length_map). simpl. tauto.
- intros n. rewrite H3. now destruct (lookup_prop n _).
Qed.

Lemma renameKeys_last_key_wins_witness :
  exists ps,
    renameKeys (VObj Plain [("a", VStr "b")]) (VObj Plain [("a", VNum 1); ("b", VNum 2)])
    = Ok (VObj Plain ps)
    /\ lookup_prop "b" ps = Some (VNum 2)
    /\ lookup_prop "a" ps = None.
Proof.
destruct (renameKeys_last_key_wins (VObj Plain [("a", VStr "b")]) Plain
            [("a", VNum 1); ("b", VNum 2)] ["b"; "b"] eq_refl) as [ps [E [_ [_ L]]]].
exists ps. split; [exact E|]. split; [apply (L "b") | apply (L "a")].
Defined.

(** X3, [renameKeys]: when the new names are distinct, no property is
    lost: the result has as many properties as [obj], and the value of
    each key is found under its new name.  When no key is renamed, the
    result lists the properties of [obj] unchanged, as a plain object
    even if [obj] is an array. *)
Theorem renameKeys_keeps_values
    (keysMap : value) (k : kind) (po : props) (names : list string) :
  mapM (new_name keysMap) (List.map fst po) = Ok names ->
  List.NoDup names ->
  exists ps,
    renameKeys keysMap (VObj k po) = Ok (VObj Plain ps)
    /\ length ps = length po
    /\ (forall i key v n,
          nth_error po i = Some (key, v) -> nth_error names i = Some n ->
          lookup_prop n ps = Some v)
    /\ (names = List.map fst po -> ordered (List.map fst po) = true -> ps = po).
Proof.
intros H Hnd. rewrite (renameKeys_fold _ _ _ names H). eexists. split; [reflexivity|].
pose proof (mapM_length _ _ _ H) as Hlen. rewrite length_map in Hlen.
assert (Hkeys : List.map fst (combine names (List.map snd po)) = names)
  by (apply combine_keys; now rewrite length_map).
destruct (fold_put_pairs (combine names (List.map snd po)) [] (List.NoDup_nil _))
  as [H1 [H2 H3]].
split; [|split].
- rewrite <- (length_map fst), <- Hlen.
  apply Permutation_length. apply Stdlib.Sorting.Permutation.NoDup_Permutation; auto.
  intros n. rewrite H2, Hkeys. simpl. tauto.
- intros i key v n Hi Hn. rewrite H3.
  assert (Hin : In (n, v) (rev (combine names (List.map snd po)))).
  { apply in_rev. rewrite rev_involutive. apply (nth_error_In _ i).
    apply nth_combine; [exact Hn|]. now rewrite (map_nth_error snd _ _ Hi). }
  rewrite (lookup_in n v); [reflexivity | | exact Hin].
  rewrite map_rev, Hkeys. now apply NoDup_rev.
- intros -> Ho. rewrite combine_fst_snd. now apply fold_put_ordered.
Qed.

Lemma renameKeys_keeps_values_witness :
  exists ps,
    renameKeys (VObj Plain [("name", VStr "firstName"); ("job", VStr "passion")])
               (VObj Plain [("name", VStr "Bobo"); ("job", VStr "Front-End Master");
                            ("shoeSize", VNum 100)])
    = Ok (VObj Plain ps)
    /\ length ps = 3%nat
    /\ lookup_prop "firstName" ps = Some (VStr "Bobo").
Proof.
destruct (renameKeys_keeps_values
            (VObj Plain [("name", VStr "firstName"); ("job", VStr "passion")]) Plain
            [("name", VStr "Bobo"); ("job", VStr "Front-End Master"); ("shoeSize", VNum 100)]
            ["firstName"; "passion"; "shoeSize"] eq_refl) as [ps [E [L [V _]]]].
- repeat constructor; simpl; intuition discriminate.
- exists ps. split; [exact E|]. split; [exact L|].
  apply (V 0%nat "name" (VStr "Bobo") "firstName"); reflexivity.
Defined.

(** ** Array literals under the array methods *)

Section ArrayLiterals.

Lemma present_index_from (len i : N) (vs : list value) :
  (i + N.of_nat (length vs) <= len)%N -> (len <= index_limit)%N ->
  present len (index_from i vs) = paired_from i vs.
Proof.
revert i; induction vs as [|v vs IH]; intros i Hb Hl; simpl; auto.
unfold present in *. cbn [omap list_omap fst snd].
rewrite array_index_str by (simpl in Hb; lia).
destruct (N.ltb_spec i len); [|simpl in Hb; lia].
f_equal. apply IH; [simpl in Hb; lia | assumption].
Qed.

Lemma lookup_index_from_name (name : string) (i : N) (vs : list value) :
  array_index name = None ->
  (i + N.of_nat (length vs) <= index_limit)%N ->
  lookup_prop name (index_from i vs) = None.
Proof.
intros Hname. revert i; induction vs as [|v vs IH]; intros i Hb; simpl; auto.
destruct (String.eqb_spec (index_str i) name) as [E|_].
- rewrite <- E, array_index_str in Hname by (simpl in Hb; lia). discriminate.
- apply IH. simpl in Hb. lia.
Qed.

Lemma index_str_inj (i j : N) : index_str i = index_str j -> i = j.
Proof.
unfold index_str. intros E.
assert (H : NilEmpty.uint_of_string (NilEmpty.string_of_uint (N.to_uint i))
            = NilEmpty.uint_of_string (NilEmpty.string_of_uint (N.to_uint j)))
  by now rewrite E.
rewrite !NilEmpty.usu in H. injection H as H.
rewrite <- (DecimalN.Unsigned.of_to i), <- (DecimalN.Unsigned.of_to j). now rewrite H.
Qed.

Lemma lookup_index_from (i : N) (vs : list value) (j : nat) :
  lookup_prop (index_str (i + N.of_nat j)) (index_from i vs) = nth_error vs j.
Proof.
revert i j; induction vs as [|v vs IH]; intros i j; simpl.
- now destruct j.
- destruct j as [|j].
  + rewrite N.add_0_r, String.eqb_refl. reflexivity.
  + destruct (String.eqb_spec (index_str i) (index_str (i + N.of_nat (S j)))) as [E|_].
    * apply index_str_inj in E. lia.
    * simpl. rewrite <- (IH (N.succ i) j). do 2 f_equal. lia.
Qed.

Lemma get_prop_array_of (vs : list value) (j : nat) (v : value) :
  (N.of_nat (length vs) <= index_limit)%N ->
  nth_error vs j = Some v ->
  get_prop (array_of vs) (index_str (N.of_nat j)) = Ok v.
Proof.
intros Hb Hj. unfold array_of. cbn [get_prop].
assert (Hlt : (j < length vs)%nat) by (apply nth_error_Some; congruence).
rewrite index_str_not_length by lia.
change (N.of_nat j) with (0 + N.of_nat j)%N. rewrite N.add_0_l.
replace (index_str (N.of_nat j)) with (index_str (0 + N.of_nat j)) by (f_equal; lia).
now rewrite lookup_index_from, Hj.
Qed.

Lemma paired_from_values (i : N) (vs : list value) : List.map snd (paired_from i vs) = vs.
Proof. revert i; induction vs as [|v vs IH]; intros i; simpl; auto. now rewrite IH. Qed.

Lemma paired_from_app (i : N) (l1 l2 : list value) :
  paired_from i (l1 ++ l2) = paired_from i l1 ++ paired_from (i + N.of_nat (length l1)) l2.
Proof.
revert i; induction l1 as [|v l1 IH]; intros i; simpl.
- now rewrite N.add_0_r.
- rewrite IH. do 3 f_equal. lia.
Qed.

(** The callback applied to each element of an array literal. *)
Lemma array_map_literal (f : value -> value -> value -> outcome value)
    (P : value -> value -> Prop) (vs : list value) :
  (N.of_nat (length vs) <= index_limit)%N ->
  (forall i v, nth_error vs i = Some v ->
     exists w, f v (VNum (Z.of_nat i)) (array_of vs) = Ok w /\ P v w) ->
  exists ws,
    array_map f (array_of vs) = Ok (paired_from 0 ws) /\ Forall2 P vs ws.
Proof.
intros Hb Hf. unfold array_of at 1. cbn [array_map].
rewrite lookup_index_from_name by (simpl; auto; lia).
rewrite present_index_from by lia.
fold (array_of vs). pose (arr := array_of vs). fold arr. fold arr in Hf.
assert (H : forall (base : nat) (rest : list value),
          (forall i v, nth_error rest i = Some v ->
             exists w, f v (VNum (Z.of_nat (base + i))) arr = Ok w /\ P v w) ->
          exists ws,
            mapM (fun iv : N * value =>
                    bind (f (snd iv) (VNum (Z.of_N (fst iv))) arr) (fun w => Ok (fst iv, w)))
                 (paired_from (N.of_nat base) rest)
            = Ok (paired_from (N.of_nat base) ws) /\ Forall2 P rest ws).
{ intros base rest. revert base. induction rest as [|v rest IH]; intros base Hrest.
  - exists []. split; [reflexivity | constructor].
  - destruct (Hrest 0%nat v eq_refl) as [w [Hw Pw]].
    destruct (IH (S base)) as [ws [Hws Pws]].
    + intros i v' Hi. replace (S base + i)%nat with (base + S i)%nat by lia.
      now apply Hrest.
    + exists (w :: ws). split; [|now constructor].
      cbn [paired_from mapM fst snd]. rewrite nat_N_Z.
      replace (base + 0)%nat with base in Hw by lia. rewrite Hw. cbn [bind].
      rewrite <- Nat2N.inj_succ. rewrite Hws. reflexivity. }
apply (H 0%nat vs). intros i v Hi. now apply Hf.
Qed.

End ArrayLiterals.

(** ** countBy *)

Section Counting.

Lemma not_builtin_not_proto (k : string) :
  builtin_name k = false -> String.eqb k "__proto__" = false.
Proof.
unfold builtin_name, object_prototype_names. cbn [existsb].
rewrite !orb_false_iff. tauto.
Qed.

Lemma write_plain (ps : props) (k : string) (v : value) :
  builtin_name k = false ->
  write (VObj Plain ps) k v = Ok (VObj Plain (put k v ps)).
Proof. intros H. unfold write. now rewrite (not_builtin_not_proto k H). Qed.

Lemma count_step (ps : props) (w : value) (k : string) (n : nat) :
  to_string w = Ok k -> builtin_name k = false ->
  lookup_prop k ps = tally n -> (Z.of_nat n < 9007199254740992)%Z ->
  count_reducer (Ok (VObj Plain ps)) w
  = Ok (VObj Plain (put k (VNum (Z.of_nat (S n))) ps)).
Proof.
intros Hw Hk Hl Hn. unfold count_reducer. cbn [bind]. rewrite Hw. cbn [bind].
rewrite read_plain by auto. rewrite Hl. cbn [bind].
assert (E : plus_one (if truthy (default VUndef (tally n))
                      then default VUndef (tally n) else VNum 0)
            = Ok (VNum (Z.of_nat (S n)))).
{ destruct n as [|m].
  - reflexivity.
  - cbn [tally default from_option id truthy].
    destruct (Z.eqb_spec (Z.of_nat (S m)) 0) as [E|_]; [lia|]. cbn [negb plus_one].
    unfold safe. destruct (Z.leb_spec (Z.abs (Z.of_nat (S m) + 1)) 9007199254740992); [|lia].
    do 2 f_equal. lia. }
rewrite E. cbn [bind]. now apply write_plain.
Qed.

Lemma count_fold (key : value -> string) (vs ws : list value) :
  Forall2 (fun v w => to_string w = Ok (key v)) vs ws ->
  (forall v, In v vs -> builtin_name (key v) = false) ->
  forall (done : list value) (ps : props),
    (Z.of_nat (length done + length vs) < 9007199254740992)%Z ->
    List.NoDup (List.map fst ps) ->
    (forall s, lookup_prop s ps
               = tally (length (List.filter (fun v => String.eqb (key v) s) done))) ->
    exists ps',
      fold_left count_reducer ws (Ok (VObj Plain ps)) = Ok (VObj Plain ps')
      /\ List.NoDup (List.map fst ps')
      /\ (forall s, lookup_prop s ps'
                    = tally (length (List.filter (fun v => String.eqb (key v) s)
                                                 (done ++ vs)))).
Proof.
induction 1 as [|v w vs ws Hw Hrest IH]; intros Hnames done ps Hb Hnd Hl.
- exists ps. rewrite app_nil_r. auto.
- cbn [fold_left].
  pose proof (List.filter_length_le (fun v0 => String.eqb (key v0) (key v)) done) as Hle.
  rewrite (count_step ps w (key v) _ Hw (Hnames v (or_introl eq_refl)) (Hl (key v)))
    by (simpl in Hb; lia).
  destruct (IH (fun v' H' => Hnames v' (or_intror H')) (done ++ [v])
               (put (key v) (VNum (Z.of_nat (S (length (List.filter
                  (fun v0 => String.eqb (key v0) (key v)) done))))) ps))
    as [ps' [Hf [Hnd' Hl']]].
  + rewrite length_app. simpl in *. lia.
  + now apply NoDup_put.
  + intros s. rewrite List.filter_app, length_app. cbn [List.filter].
    destruct (String.eqb_spec (key v) s) as [<-|Hne].
    * rewrite lookup_put_same. cbn [length]. rewrite Nat.add_1_r. reflexivity.
    * rewrite lookup_put_other by congruence. cbn [length]. now rewrite Nat.add_0_r.
  + exists ps'. rewrite <- app_assoc in Hl'. auto.
Qed.

End Counting.

(** X4, [countBy]: on an array literal the result is a plain object
    that holds, for each key some element is mapped to, the number of
    elements mapped to this key, and nothing else; the key of an element
    is the text of what the callback (or the named property) gives for
    it.  (No key is the name of a member of [Object.prototype].) *)
Theorem countBy_counts_each_key (vs : list value) (fn : criterion) (key : value -> string) :
  (N.of_nat (length vs) <= index_limit)%N ->
  (forall i v, nth_error vs i = Some v ->
     exists w, callback fn v (VNum (Z.of_nat i)) (array_of vs) = Ok w
               /\ to_string w = Ok (key v)) ->
  (forall v, In v vs -> builtin_name (key v) = false) ->
  exists ps,
    countBy (array_of vs) fn = Ok (VObj Plain ps)
    /\ List.NoDup (List.map fst ps)
    /\ forall s,
         lookup_prop s ps = tally (length (List.filter (fun v => String.eqb (key v) s) vs)).
Proof.
intros Hb Hf Hnames. unfold countBy.
destruct (array_map_literal (callback fn) (fun v w => to_string w = Ok (key v)) vs Hb Hf)
  as [ws [-> Hws]].
cbn [bind]. rewrite paired_from_values.
destruct (count_fold key vs ws Hws Hnames [] []) as [ps [Hfold [Hnd Hl]]].
- unfold index_limit in Hb. simpl. lia.
- constructor.
- reflexivity.
- exists ps. split; [exact Hfold|]. split; [exact Hnd|]. exact Hl.
Qed.

Lemma countBy_counts_each_key_witness :
  exists ps,
    countBy (array_of [VStr "one"; VStr "two"; VStr "three"]) (ByProperty (VStr "length"))
    = Ok (VObj Plain ps)
    /\ lookup_prop "3" ps = Some (VNum 2)
    /\ lookup_prop "5" ps = Some (VNum 1)
    /\ lookup_prop "4" ps = None.
Proof.
destruct (countBy_counts_each_key [VStr "one"; VStr "two"; VStr "three"]
            (ByProperty (VStr "length"))
            (fun v => match v with
                      | VStr s => Json.number_text (Z.of_nat (String.length s))
                      | _ => EmptyString
                      end)) as [ps [E [_ L]]].
- vm_compute. discriminate.
- intros [|[|[|i]]] v H; simpl in H; try (destruct i; discriminate H);
    injection H as <-; eexists; split; reflexivity.
- intros v [<- | [<- | [<- | []]]]; reflexivity.
- exists ps. split; [exact E|]. split; [apply (L "3") | split; [apply (L "5") | apply (L "4")]].
Defined.

(** ** groupBy *)

Section Grouping.

Lemma shifted_paired (n i : N) (us : list value) :
  List.map (fun iv : N * value => (index_str (n + fst iv), snd iv)) (paired_from i us)
  = index_from (n + i) us.
Proof.
revert i; induction us as [|u us IH]; intros i; simpl; auto.
rewrite IH. do 2 f_equal. lia.
Qed.

Lemma shifted_literal (n : N) (us : list value) :
  (N.of_nat (length us) <= index_limit)%N ->
  shifted n (N.of_nat (length us)) (index_from 0 us) = index_from n us.
Proof.
intros Hb. unfold shifted. rewrite present_index_from by lia.
rewrite shifted_paired. f_equal. lia.
Qed.

Lemma members_literal (us : list value) :
  (N.of_nat (length us) <= index_limit)%N -> members (array_of us) = us.
Proof. intros Hb. unfold array_of. cbn [members]. apply elements_index_from; lia. Qed.

(** On array literals [concat] appends: the elements of an array
    argument, any other argument as one element. *)
Lemma concat_literal (xs : list value) (v : value) :
  (isArray v = true -> v = array_of (members v)) ->
  (N.of_nat (length (xs ++ spread_item v)) <= index_limit)%N ->
  concat (array_of xs) v = Ok (array_of (xs ++ spread_item v)).
Proof.
intros Hv Hb. rewrite length_app in Hb.
assert (Hx : lookup_prop "concat" (index_from 0 xs) = None)
  by (apply lookup_index_from_name; [reflexivity | lia]).
assert (Hs : shifted 0 (N.of_nat (length xs)) (index_from 0 xs) = index_from 0 xs)
  by (apply shifted_literal; lia).
assert (Hone : isArray v = false ->
               concat (array_of xs) v = Ok (array_of (xs ++ [v]))).
{ intros Hna. unfold array_of. cbn [concat]. rewrite Hx, Hs.
  unfold spread_item in Hb. rewrite Hna in Hb. simpl in Hb.
  assert (E : (let '(n, tail) :=
                 match v with
                 | VObj (Arr len') ps' =>
                     ((N.of_nat (length xs) + len')%N,
                      shifted (N.of_nat (length xs)) len' ps')
                 | _ => (N.succ (N.of_nat (length xs)),
                         [(index_str (N.of_nat (length xs)), v)])
                 end in
               if (9007199254740991 <? n)%N then Throw TypeError
               else if (index_limit <? n)%N then Throw RangeError
               else Ok (VObj (Arr n) (index_from 0 xs ++ tail)))
              = Ok (VObj (Arr (N.succ (N.of_nat (length xs))))
                         (index_from 0 xs ++ [(index_str (N.of_nat (length xs)), v)]))).
  { assert (E0 : match v with
                 | VObj (Arr len') ps' =>
                     ((N.of_nat (length xs) + len')%N,
                      shifted (N.of_nat (length xs)) len' ps')
                 | _ => (N.succ (N.of_nat (length xs)),
                         [(index_str (N.of_nat (length xs)), v)])
                 end = (N.succ (N.of_nat (length xs)),
                        [(index_str (N.of_nat (length xs)), v)])).
    { destruct v as [| | | | | |[|len'] ps']; try reflexivity. discriminate Hna. }
    rewrite E0.
    destruct (N.ltb_spec 9007199254740991 (N.succ (N.of_nat (length xs))));
      [unfold index_limit in Hb; lia|].
    destruct (N.ltb_spec index_limit (N.succ (N.of_nat (length xs)))); [lia|].
    reflexivity. }
  rewrite E. rewrite length_app, index_from_app. simpl.
  do 3 f_equal. lia. }
destruct (isArray v) eqn:Ha.
- specialize (Hv eq_refl). remember (members v) as us eqn:Hus.
  assert (Hsp : spread_item v = us) by (unfold spread_item; now rewrite Ha, Hus).
  rewrite Hsp in *. rewrite Hv. clear Hone.
  unfold array_of. cbn [concat]. rewrite Hx, Hs.
  rewrite shifted_literal by lia.
  destruct (N.ltb_spec 9007199254740991 (N.of_nat (length xs) + N.of_nat (length us)));
    [unfold index_limit in Hb; lia|].
  destruct (N.ltb_spec index_limit (N.of_nat (length xs) + N.of_nat (length us))); [lia|].
  rewrite length_app, index_from_app. simpl. do 3 f_equal. lia.
- unfold spread_item. rewrite Ha. now apply Hone.
Qed.

Lemma flat_map_filter_length {A B : Type} (f : A -> list B) (p : A -> bool) (l : list A) :
  (length (flat_map f (List.filter p l)) <= length (flat_map f l))%nat.
Proof.
induction l as [|a l IH]; simpl; [lia|].
destruct (p a); simpl; rewrite !length_app; lia.
Qed.

Lemma group_step (all : list value) (ps : props) (i : nat) (v w : value) (k : string)
    (m : list value) :
  (N.of_nat (length all) <= index_limit)%N ->
  nth_error all i = Some v ->
  to_string w = Ok k -> builtin_name k = false ->
  (forall u, In u (m ++ [v]) -> isArray u = true -> u = array_of (members u)) ->
  (N.of_nat (length (flat_map spread_item (m ++ [v]))) <= index_limit)%N ->
  lookup_prop k ps = group m ->
  group_reducer (array_of all) (Ok (VObj Plain ps)) (N.of_nat i, w)
  = Ok (VObj Plain (put k (array_of (flat_map spread_item (m ++ [v]))) ps)).
Proof.
intros Hb Hi Hw Hk Hdense Hflat Hl. unfold group_reducer. cbn [bind fst snd].
rewrite Hw. cbn [bind]. rewrite read_plain by auto. rewrite Hl. cbn [bind].
rewrite (get_prop_array_of all i v Hb Hi). cbn [bind].
rewrite flat_map_app in Hflat |- *. cbn [flat_map] in Hflat |- *.
rewrite app_nil_r in Hflat |- *.
assert (E : (if truthy (default VUndef (group m)) then default VUndef (group m)
             else empty_array)
            = array_of (flat_map spread_item m)).
{ destruct m; reflexivity. }
rewrite E. rewrite concat_literal.
- cbn [bind]. now apply write_plain.
- apply Hdense. apply in_or_app. right. simpl. auto.
- exact Hflat.
Qed.

Lemma group_fold (key : value -> string) (all : list value) :
  (N.of_nat (length all) <= index_limit)%N ->
  (N.of_nat (length (flat_map spread_item all)) <= index_limit)%N ->
  (forall v, In v all -> builtin_name (key v) = false) ->
  (forall v, In v all -> isArray v = true -> v = array_of (members v)) ->
  forall vs ws : list value,
    Forall2 (fun v w => to_string w = Ok (key v)) vs ws ->
    forall (done : list value) (ps : props),
      all = done ++ vs ->
      List.NoDup (List.map fst ps) ->
      (forall s, lookup_prop s ps
                 = group (List.filter (fun v => String.eqb (key v) s) done)) ->
      exists ps',
        fold_left (group_reducer (array_of all))
                  (paired_from (N.of_nat (length done)) ws) (Ok (VObj Plain ps))
        = Ok (VObj Plain ps')
        /\ List.NoDup (List.map fst ps')
        /\ (forall s, lookup_prop s ps'
                      = group (List.filter (fun v => String.eqb (key v) s) all)).
Proof.
intros Hb Hflat Hnames Hdense vs ws H.
induction H as [|v w vs ws Hw Hrest IH]; intros done ps Hall Hnd Hl.
- exists ps. rewrite Hall, app_nil_r. auto.
- cbn [paired_from fold_left].
  assert (Hin : forall u, In u (done ++ [v]) -> In u all).
  { intros u Hu. rewrite Hall. apply in_app_or in Hu as [Hu | [<- | []]];
      apply in_or_app; simpl; auto. }
  set (m := List.filter (fun v0 => String.eqb (key v0) (key v)) done).
  assert (Hm : List.filter (fun v0 => String.eqb (key v0) (key v)) (done ++ [v]) = m ++ [v]).
  { rewrite List.filter_app. cbn [List.filter]. now rewrite String.eqb_refl. }
  rewrite (group_step all ps (length done) v w (key v) m); auto.
  + destruct (IH (done ++ [v]) (put (key v) (array_of (flat_map spread_item (m ++ [v]))) ps))
      as [ps' [Hf [Hnd' Hl']]].
    * rewrite <- app_assoc. exact Hall.
    * now apply NoDup_put.
    * intros s. destruct (String.eqb_spec (key v) s) as [<-|Hne].
      -- rewrite lookup_put_same, Hm. unfold group. destruct m; reflexivity.
      -- rewrite lookup_put_other by congruence. rewrite Hl, List.filter_app.
         cbn [List.filter]. destruct (String.eqb_spec (key v) s); [contradiction|].
         now rewrite app_nil_r.
    * exists ps'. split; [|auto].
      rewrite length_app, Nat.add_1_r, Nat2N.inj_succ in Hf. exact Hf.
  + rewrite Hall. rewrite nth_error_app2 by lia. now rewrite Nat.sub_diag.
  + apply Hnames, Hin. apply in_or_app. right. simpl. auto.
  + intros u Hu. apply Hdense, Hin. rewrite <- Hm in Hu. apply filter_In in Hu. tauto.
  + rewrite <- Hm.
    pose proof (flat_map_filter_length spread_item
                  (fun v0 => String.eqb (key v0) (key v)) (done ++ [v])) as H1.
    assert (H2 : (length (flat_map spread_item (done ++ [v]))
                  <= length (flat_map spread_item all))%nat).
    { rewrite Hall, !List.flat_map_app. cbn [flat_map]. rewrite !length_app. cbn [length]. lia. }
    lia.
Qed.

Lemma groupBy_literal (vs : list value) (fn : criterion) (key : value -> string) :
  (N.of_nat (length vs) <= index_limit)%N ->
  (N.of_nat (length (flat_map spread_item vs)) <= index_limit)%N ->
  (forall i v, nth_error vs i = Some v ->
     exists w, callback fn v (VNum (Z.of_nat i)) (array_of vs) = Ok w
               /\ to_string w = Ok (key v)) ->
  (forall v, In v vs -> builtin_name (key v) = false) ->
  (forall v, In v vs -> isArray v = true -> v = array_of (members v)) ->
  exists ps,
    groupBy (array_of vs) fn = Ok (VObj Plain ps)
    /\ List.NoDup (List.map fst ps)
    /\ forall s, lookup_prop s ps
                 = group (List.filter (fun v => String.eqb (key v) s) vs).
Proof.
intros Hb Hflat Hf Hnames Hdense. unfold groupBy.
destruct (array_map_literal (callback fn) (fun v w => to_string w = Ok (key v)) vs Hb Hf)
  as [ws [-> Hws]].
cbn [bind].
destruct (group_fold key vs Hb Hflat Hnames Hdense vs ws Hws [] []) as [ps [Hfold [Hnd Hl]]];
  [reflexivity | constructor | reflexivity |].
exists ps. auto.
Qed.

End Grouping.

(** X5, [groupBy]: on an array literal none of whose elements is an
    array, the result is a plain object that holds, for each key some
    element is mapped to, the array of the elements mapped to this key,
    in their order, and nothing else: the groups partition the array.
    (No key is the name of a member of [Object.prototype].) *)
Theorem groupBy_partitions (vs : list value) (fn : criterion) (key : value -> string) :
  (N.of_nat (length vs) <= index_limit)%N ->
  (forall i v, nth_error vs i = Some v ->
     exists w, callback fn v (VNum (Z.of_nat i)) (array_of vs) = Ok w
               /\ to_string w = Ok (key v)) ->
  (forall v, In v vs -> builtin_name (key v) = false) ->
  (forall v, In v vs -> isArray v = false) ->
  exists ps,
    groupBy (array_of vs) fn = Ok (VObj Plain ps)
    /\ List.NoDup (List.map fst ps)
    /\ forall s, lookup_prop s ps
                 = match List.filter (fun v => String.eqb (key v) s) vs with
                   | [] => None
                   | m => Some (array_of m)
                   end.
Proof.
intros Hb Hf Hnames Hna.
assert (Hflat : forall l, (forall v, In v l -> isArray v = false) ->
                          flat_map spread_item l = l).
{ induction l as [|a l IH]; intros Hl; [reflexivity|]. cbn [flat_map].
  unfold spread_item at 1. rewrite (Hl a) by (simpl; auto). simpl. f_equal.
  apply IH. intros v Hv. apply Hl. simpl; auto. }
destruct (groupBy_literal vs fn key) as [ps [E [Hnd Hl]]]; auto.
- now rewrite Hflat.
- intros v Hv Ha. rewrite (Hna v Hv) in Ha. discriminate.
- exists ps. split; [exact E|]. split; [exact Hnd|]. intros s. rewrite Hl.
  unfold group. destruct (List.filter _ vs) as [|a m] eqn:Em; [reflexivity|].
  rewrite Hflat; [reflexivity|]. intros v Hv. apply Hna.
  rewrite <- Em in Hv. apply filter_In in Hv. tauto.
Qed.

Lemma groupBy_partitions_witness :
  exists ps,
    groupBy (array_of [VStr "one"; VStr "two"; VStr "three"]) (ByProperty (VStr "length"))
    = Ok (VObj Plain ps)
    /\ lookup_prop "3" ps = Some (array_of [VStr "one"; VStr "two"])
    /\ lookup_prop "5" ps = Some (array_of [VStr "three"])
    /\ lookup_prop "4" ps = None.
Proof.
destruct (groupBy_partitions [VStr "one"; VStr "two"; VStr "three"]
            (ByProperty (VStr "length"))
            (fun v => match v with
                      | VStr s => Json.number_text (Z.of_nat (String.length s))
                      | _ => EmptyString
                      end)) as [ps [E [_ L]]].
- vm_compute. discriminate.
- intros [|[|[|i]]] v H; simpl in H; try (destruct i; discriminate H);
    injection H as <-; eexists; split; reflexivity.
- intros v [<- | [<- | [<- | []]]]; reflexivity.
- intros v [<- | [<- | [<- | []]]]; reflexivity.
- exists ps. split; [exact E|]. split; [apply (L "3") | split; [apply (L "5") | apply (L "4")]].
Defined.

(** X6, [groupBy]: an element that is itself an array is not kept as one
    member of its group: [concat] spreads it, and the group receives its
    elements instead.  In general the group of a key is the array of
    what the elements mapped to this key hand over, an array its
    elements and anything else itself; [groupBy([[1, 2], [3, 4]],
    'length')] is [{2: [1, 2, 3, 4]}]. *)
Theorem groupBy_spreads_array_elements
    (vs : list value) (fn : criterion) (key : value -> string) :
  (N.of_nat (length vs) <= index_limit)%N ->
  (N.of_nat (length (flat_map spread_item vs)) <= index_limit)%N ->
  (forall i v, nth_error vs i = Some v ->
     exists w, callback fn v (VNum (Z.of_nat i)) (array_of vs) = Ok w
               /\ to_string w = Ok (key v)) ->
  (forall v, In v vs -> builtin_name (key v) = false) ->
  (forall v, In v vs -> isArray v = true -> v = array_of (members v)) ->
  exists ps,
    groupBy (array_of vs) fn = Ok (VObj Plain ps)
    /\ List.NoDup (List.map fst ps)
    /\ forall s, lookup_prop s ps
                 = group (List.filter (fun v => String.eqb (key v) s) vs).
Proof.
intros Hb Hflat Hf Hnames Hdense. unfold groupBy.
destruct (array_map_literal (callback fn) (fun v w => to_string w = Ok (key v)) vs Hb Hf)
  as [ws [-> Hws]].
cbn [bind].
destruct (group_fold key vs Hb Hflat Hnames Hdense vs ws Hws [] []) as [ps [Hfold [Hnd Hl]]];
  [reflexivity | constructor | reflexivity |].
exists ps. auto.
Qed.

Lemma groupBy_spreads_array_elements_witness :
  exists ps,
    groupBy (array_of [array_of [VNum 1; VNum 2]; array_of [VNum 3; VNum 4]])
            (ByProperty (VStr "length"))
    = Ok (VObj Plain ps)
    /\ lookup_prop "2" ps = Some (array_of [VNum 1; VNum 2; VNum 3; VNum 4]).
Proof.
destruct (groupBy_spreads_array_elements
            [array_of [VNum 1; VNum 2]; array_of [VNum 3; VNum 4]]
            (ByProperty (VStr "length"))
            (fun _ => "2")) as [ps [E [_ L]]].
- vm_compute. discriminate.
- vm_compute. discriminate.
- intros [|[|i]] v H; simpl in H; try (destruct i; discriminate H);
    injection H as <-; eexists; split; reflexivity.
- intros v _. reflexivity.
- intros v [<- | [<- | []]] _; reflexivity.
- exists ps. split; [exact E|]. apply (L "2").
Defined.

(** ** Text: cutting at a character, joining *)

Section Cutting.

Lemma append_cons (x : ascii) (a b : string) : String x a +:+ b = String x (a +:+ b).
Proof. reflexivity. Qed.

Lemma append_nil_l (b : string) : EmptyString +:+ b = b.
Proof. reflexivity. Qed.

Lemma append_assoc (a b c : string) : (a +:+ b) +:+ c = a +:+ (b +:+ c).
Proof.
induction a as [|x a IH]; rewrite ?append_cons, ?append_nil_l; [reflexivity | now rewrite IH].
Qed.

Lemma append_nil_r (a : string) : a +:+ EmptyString = a.
Proof.
induction a as [|x a IH]; rewrite ?append_cons, ?append_nil_l; [reflexivity | now rewrite IH].
Qed.

Lemma index_of_app (c : ascii) (a b : string) :
  index_of c (a +:+ b) = None <-> index_of c a = None /\ index_of c b = None.
Proof.
induction a as [|x a IH]; rewrite ?append_cons, ?append_nil_l; cbn [index_of]; [tauto|].
destruct (Ascii.eqb x c); [intuition discriminate|].
destruct (index_of c (a +:+ b)), (index_of c a); intuition discriminate.
Qed.

Lemma index_of_first (c : ascii) (p rest : string) :
  index_of c p = None -> index_of c (p +:+ String c rest) = Some (String.length p).
Proof.
induction p as [|x p IH]; rewrite ?append_cons, ?append_nil_l; cbn [index_of String.length].
- now rewrite Ascii.eqb_refl.
- destruct (Ascii.eqb x c); [discriminate|].
  destruct (index_of c p); [discriminate|]. intros _. now rewrite IH.
Qed.

Lemma take_str_app (p s : string) : take_str (String.length p) (p +:+ s) = p.
Proof.
induction p as [|x p IH]; rewrite ?append_cons, ?append_nil_l; cbn [take_str String.length];
  [now destruct s | now rewrite IH].
Qed.

Lemma drop_str_app (p s : string) (c : ascii) :
  drop_str (S (String.length p)) (p +:+ String c s) = s.
Proof.
induction p as [|x p IH]; rewrite ?append_cons, ?append_nil_l; cbn [drop_str String.length];
  auto.
Qed.

Lemma prefix_char (c d : ascii) (rest : string) :
  String.prefix (String c EmptyString) (String d rest) = Ascii.eqb d c.
Proof.
simpl. destruct (ascii_dec c d) as [->|Hne].
- rewrite Ascii.eqb_refl. now destruct rest.
- symmetry. apply Ascii.eqb_neq. congruence.
Qed.

Lemma split_from_nonempty (sep : string) (skip : nat) (s : string) :
  split_from sep skip s <> [].
Proof.
revert skip; induction s as [|x s IH]; intros skip; cbn [split_from]; [discriminate|].
destruct skip; [|apply IH].
destruct (String.prefix sep (String x s)); [discriminate|].
destruct (split_from sep 0 s); discriminate.
Qed.

(** A text without the separator is one piece. *)
Lemma split_free (c : ascii) (s : string) :
  index_of c s = None -> split_on (String c EmptyString) s = [s].
Proof.
unfold split_on. induction s as [|x s IH]; [reflexivity|].
cbn [index_of split_from]. rewrite prefix_char.
destruct (Ascii.eqb x c); [discriminate|].
destruct (index_of c s); [discriminate|]. intros _. now rewrite IH.
Qed.

(** The first piece ends at the first separator. *)
Lemma split_first (c : ascii) (p rest : string) :
  index_of c p = None ->
  split_on (String c EmptyString) (p +:+ String c rest)
  = p :: split_on (String c EmptyString) rest.
Proof.
unfold split_on. induction p as [|x p IH]; intros Hp; rewrite ?append_cons, ?append_nil_l.
- cbn [split_from]. rewrite prefix_char, Ascii.eqb_refl. reflexivity.
- cbn [index_of] in Hp. cbn [split_from]. rewrite prefix_char.
  destruct (Ascii.eqb x c); [discriminate|].
  destruct (index_of c p); [discriminate|]. now rewrite IH.
Qed.

(** Cutting at a character undoes joining with it, when no part holds
    the character. *)
Lemma split_join (c : ascii) (parts : list string) :
  parts <> [] ->
  (forall p, In p parts -> index_of c p = None) ->
  split_on (String c EmptyString) (join_with (String c EmptyString) parts) = parts.
Proof.
induction parts as [|p parts IH]; intros Hne Hfree; [contradiction|].
cbn [join_with]. destruct parts as [|q parts].
- apply split_free. apply Hfree. simpl; auto.
- rewrite append_cons, append_nil_l.
  rewrite split_first by (apply Hfree; simpl; auto).
  f_equal. apply IH; [discriminate|]. intros p' Hp'. apply Hfree. simpl; auto.
Qed.

Lemma join_free (c d : ascii) (parts : list string) :
  c <> d ->
  (forall p, In p parts -> index_of c p = None) ->
  index_of c (join_with (String d EmptyString) parts) = None.
Proof.
intros Hcd. induction parts as [|p parts IH]; intros Hfree; [reflexivity|].
cbn [join_with]. destruct parts as [|q parts].
- apply Hfree. simpl; auto.
- apply index_of_app. split; [apply Hfree; simpl; auto|].
  apply index_of_app. split.
  + cbn [index_of]. destruct (Ascii.eqb_spec d c); [congruence | reflexivity].
  + apply IH. intros p' Hp'. apply Hfree. simpl; auto.
Qed.

Lemma join_with_snoc (sep x : string) (l : list string) :
  l <> [] -> join_with sep (l ++ [x]) = join_with sep l +:+ sep +:+ x.
Proof.
induction l as [|p l IH]; intros Hne; [contradiction|].
destruct l as [|q l].
- reflexivity.
- change ((p :: q :: l) ++ [x]) with (p :: (q :: l) ++ [x]).
  cbn [join_with app]. cbn [join_with app] in IH. rewrite IH by discriminate.
  now rewrite !append_assoc.
Qed.

End Cutting.

(** ** CSVToJSON *)

Section Records.

Lemma title_row_app (header body : string) :
  index_of newline header = None ->
  title_row (header +:+ nl +:+ body) = header
  /\ records_text (header +:+ nl +:+ body) = body.
Proof.
intros Hh. unfold title_row, records_text, nl.
rewrite append_cons, append_nil_l. rewrite (index_of_first _ _ _ Hh).
split; [apply take_str_app | apply drop_str_app].
Qed.

Lemma numbered_values {A : Type} (i : nat) (l : list A) :
  List.map snd (numbered i l) = l.
Proof. revert i; induction l as [|a l IH]; intros i; simpl; [reflexivity | now rewrite IH]. Qed.

Lemma numbered_nth {A : Type} (b i : nat) (l : list A) (a : A) :
  nth_error l i = Some a -> nth_error (numbered b l) i = Some ((b + i)%nat, a).
Proof.
revert b i; induction l as [|x l IH]; intros b [|i]; simpl; try discriminate.
- intros [= ->]. now rewrite Nat.add_0_r.
- intros H. rewrite (IH (S b) i H). do 2 f_equal. lia.
Qed.

Lemma record_puts (values : list string) (its : list (nat * string)) :
  (forall it, In it its -> snd it <> "__proto__") ->
  forall ps : props,
    fold_left (fun (obj : outcome value) (it : nat * string) =>
                 bind obj (fun o => write o (snd it) (field values (fst it))))
              its (Ok (VObj Plain ps))
    = Ok (VObj Plain
            (fold_left (fun acc (kv : string * value) => put (fst kv) (snd kv) acc)
                       (List.map (fun it : nat * string => (snd it, field values (fst it))) its)
                       ps)).
Proof.
induction its as [|[i t] its IH]; intros Hp ps; cbn [fold_left List.map]; [reflexivity|].
cbn [bind fst snd]. unfold write. cbn [own].
destruct (String.eqb_spec t "__proto__") as [E|_].
- exfalso. now apply (Hp (i, t) (or_introl eq_refl)).
- cbn [andb set_prop]. apply IH. intros it Hit. apply Hp. simpl; auto.
Qed.

(** One record: every title is a key, whatever the number of fields. *)
Lemma record_shape (titles : list string) (delimiter line : string) :
  List.NoDup titles ->
  (forall t, In t titles -> t <> "__proto__") ->
  exists ps,
    record titles delimiter line = Ok (VObj Plain ps)
    /\ List.NoDup (List.map fst ps)
    /\ (forall t, In t (List.map fst ps) <-> In t titles)
    /\ (forall i t, nth_error titles i = Some t ->
          lookup_prop t ps = Some (field (split_on delimiter line) i)).
Proof.
intros Hnd Hp. unfold record, empty_object. cbv zeta. rewrite record_puts.
- eexists. split; [reflexivity|].
  set (l := List.map (fun it : nat * string =>
                        (snd it, field (split_on delimiter line) (fst it)))
                     (numbered 0 titles)).
  assert (Hkeys : List.map fst l = titles).
  { unfold l. rewrite List.map_map. cbn [fst]. apply numbered_values. }
  destruct (fold_put_pairs l [] (List.NoDup_nil _)) as [H1 [H2 H3]].
  split; [exact H1|]. split.
  + intros t. rewrite H2, Hkeys. simpl. tauto.
  + intros i t Hi. rewrite H3.
    rewrite (lookup_in t (field (split_on delimiter line) i)); [reflexivity | |].
    * rewrite map_rev, Hkeys. now apply NoDup_rev.
    * apply in_rev. rewrite rev_involutive. unfold l.
      apply in_map_iff. exists (i, t). split; [reflexivity|].
      apply (nth_error_In _ i). now apply (numbered_nth 0 i titles t).
- intros [i t] Hit. cbn [snd]. apply Hp.
  rewrite <- (numbered_values 0 titles). apply in_map_iff. exists (i, t). auto.
Qed.

Lemma mapM_total {A B : Type} (f : A -> outcome B) (P : A -> B -> Prop) (l : list A) :
  (forall a, In a l -> exists b, f a = Ok b /\ P a b) ->
  exists bs, mapM f l = Ok bs /\ Forall2 P l bs.
Proof.
induction l as [|a l IH]; intros H.
- exists []. split; [reflexivity | constructor].
- destruct (H a (or_introl eq_refl)) as [b [Hb Pb]].
  destruct IH as [bs [Hbs Pbs]]; [intros a' Ha'; apply H; simpl; auto|].
  exists (b :: bs). split; [|now constructor].
  cbn [mapM]. rewrite Hb. cbn [bind]. rewrite Hbs. reflexivity.
Qed.

Lemma CSVToJSON_shape (header body delimiter : string) :
  index_of newline header = None ->
  List.NoDup (split_on delimiter header) ->
  (forall t, In t (split_on delimiter header) -> t <> "__proto__") ->
  exists rows,
    CSVToJSON (header +:+ nl +:+ body) delimiter = Ok (array_of rows)
    /\ Forall2
         (fun line r =>
            exists ps,
              r = VObj Plain ps
              /\ List.NoDup (List.map fst ps)
              /\ (forall t, In t (List.map fst ps) <-> In t (split_on delimiter header))
              /\ (forall i t, nth_error (split_on delimiter header) i = Some t ->
                    lookup_prop t ps = Some (field (split_on delimiter line) i)))
         (split_on nl body) rows.
Proof.
intros Hh Hnd Hp. unfold CSVToJSON.
destruct (title_row_app header body Hh) as [-> ->].
destruct (mapM_total (record (split_on delimiter header) delimiter)
            (fun line r =>
               exists ps,
                 r = VObj Plain ps
                 /\ List.NoDup (List.map fst ps)
                 /\ (forall t, In t (List.map fst ps) <-> In t (split_on delimiter header))
                 /\ (forall i t, nth_error (split_on delimiter header) i = Some t ->
                       lookup_prop t ps = Some (field (split_on delimiter line) i)))
            (split_on nl body)) as [rows [-> Hrows]].
- intros line _. destruct (record_shape _ delimiter line Hnd Hp) as [ps [E H]].
  exists (VObj Plain ps). split; [exact E|]. exists ps. auto.
- exists rows. split; [reflexivity | exact Hrows].
Qed.

End Records.

(** X7, [CSVToJSON]: for a text with a title row, the result is an
    array with one record for each line after the title row, the empty
    line after a trailing newline included.  Every record is a plain
    object whose keys are exactly the titles, whatever the number of
    fields on its line: the title at place [i] holds the field at place
    [i], [undefined] when the line has fewer fields; fields beyond the
    titles are dropped.  (The titles are distinct and none is
    [__proto__].) *)
Theorem CSVToJSON_every_record_has_the_titles (header body delimiter : string) :
  index_of newline header = None ->
  List.NoDup (split_on delimiter header) ->
  (forall t, In t (split_on delimiter header) -> t <> "__proto__") ->
  exists rows,
    CSVToJSON (header +:+ nl +:+ body) delimiter = Ok (array_of rows)
    /\ length rows = length (split_on nl body)
    /\ Forall2
         (fun line r =>
            exists ps,
              r = VObj Plain ps
              /\ List.NoDup (List.map fst ps)
              /\ (forall t, In t (List.map fst ps) <-> In t (split_on delimiter header))
              /\ (forall i t, nth_error (split_on delimiter header) i = Some t ->
                    lookup_prop t ps = Some (field (split_on delimiter line) i)))
         (split_on nl body) rows.
Proof.
intros Hh Hnd Hp. destruct (CSVToJSON_shape header body delimiter Hh Hnd Hp) as [rows [E H]].
exists rows. split; [exact E|]. split; [|exact H].
symmetry. apply (Forall2_length _ _ _ H).
Qed.

Lemma CSVToJSON_every_record_has_the_titles_witness :
  exists rows,
    CSVToJSON ("col1,col2" +:+ nl +:+ "a,b,c" +:+ nl +:+ "d") "," = Ok (array_of rows)
    /\ length rows = 2%nat.
Proof.
destruct (CSVToJSON_every_record_has_the_titles "col1,col2" ("a,b,c" +:+ nl +:+ "d") ",")
  as [rows [E [L _]]].
- reflexivity.
- vm_compute. repeat constructor; simpl; intuition discriminate.
- vm_compute. intros t [<- | [<- | []]]; discriminate.
- exists rows. split; [exact E | exact L].
Defined.

(** X22, [CSVToJSON] on a text without a newline: the result is not
    empty.  [indexOf] returns -1, so the title row is the text without
    its last character and the rest is the whole text: there is one
    record, whose keys are the pieces of the text without its last
    character and whose values are the pieces of the whole text.  A
    title row alone is read as its own first record, its last title cut
    by a character.  (The titles are distinct and none is
    [__proto__].) *)
Theorem CSVToJSON_without_newline (data delimiter : string) :
  index_of newline data = None ->
  List.NoDup (split_on delimiter (take_str (String.length data - 1) data)) ->
  (forall t, In t (split_on delimiter (take_str (String.length data - 1) data)) ->
             t <> "__proto__") ->
  exists ps,
    CSVToJSON data delimiter = Ok (array_of [VObj Plain ps])
    /\ (forall t, In t (List.map fst ps)
                  <-> In t (split_on delimiter (take_str (String.length data - 1) data)))
    /\ (forall i t,
          nth_error (split_on delimiter (take_str (String.length data - 1) data)) i = Some t ->
          lookup_prop t ps = Some (field (split_on delimiter data) i)).
Proof.
intros Hnl Hnd Hp. unfold CSVToJSON, title_row, records_text. rewrite Hnl.
unfold nl. rewrite split_free by assumption. cbn [mapM].
destruct (record_shape _ delimiter data Hnd Hp) as [ps [-> [_ [Hkeys Hval]]]].
cbn [bind]. exists ps. auto.
Qed.

Lemma CSVToJSON_without_newline_witness :
  exists ps,
    CSVToJSON "name,age" "," = Ok (array_of [VObj Plain ps])
    /\ lookup_prop "name" ps = Some (VStr "name")
    /\ lookup_prop "ag" ps = Some (VStr "age").
Proof.
destruct (CSVToJSON_without_newline "name,age" ",") as [ps [E [_ V]]].
- reflexivity.
- vm_compute. repeat constructor; simpl; intuition discriminate.
- vm_compute. intros t [<- | [<- | []]]; discriminate.
- exists ps. split; [exact E|]. split.
  + apply (V 0%nat "name"). reflexivity.
  + apply (V 1%nat "ag"). reflexivity.
Defined.

(** ** JSONtoCSV *)

Section Rows.

Lemma join_quoted_length (d : string) (done : list string) :
  done <> [] ->
  (String.length (join_with d (List.map quoted done)) =? 0)%nat = false.
Proof.
destruct done as [|c0 rest]; [contradiction|]. intros _.
cbn [List.map join_with]. destruct (List.map quoted rest); unfold quoted;
  rewrite ?append_cons; reflexivity.
Qed.

Lemma row_fold (d : string) (obj : value) (columns cs : list string) :
  Forall2 (fun key c => cell obj key = Ok c) columns cs ->
  forall done : list string,
    fold_left (row_reducer d obj) columns (Ok (join_with d (List.map quoted done)))
    = Ok (join_with d (List.map quoted (done ++ cs))).
Proof.
induction 1 as [|key c columns cs Hc Hrest IH]; intros done; cbn [fold_left].
- now rewrite app_nil_r.
- unfold row_reducer at 2. cbn [bind]. rewrite Hc. cbn [bind].
  replace (done ++ c :: cs) with ((done ++ [c]) ++ cs) by now rewrite <- app_assoc.
  rewrite <- IH. do 2 f_equal.
  destruct done as [|c0 rest].
  + reflexivity.
  + rewrite join_quoted_length by discriminate.
    rewrite List.map_app. cbn [List.map]. rewrite join_with_snoc; [reflexivity|].
    discriminate.
Qed.

(** A line of the output: the cells between quotes, the delimiter
    between them and nowhere else. *)
Lemma row_join (d : string) (obj : value) (columns cs : list string) :
  Forall2 (fun key c => cell obj key = Ok c) columns cs ->
  row columns d obj = Ok (join_with d (List.map quoted cs)).
Proof. intros H. apply (row_fold d obj columns cs H []). Qed.

Lemma mapM_ext {A B : Type} (f g : A -> outcome B) (l : list A) :
  (forall a, In a l -> f a = g a) -> mapM f l = mapM g l.
Proof.
induction l as [|a l IH]; intros H; [reflexivity|].
cbn [mapM]. rewrite (H a) by (simpl; auto). rewrite IH; [reflexivity|].
intros a' Ha'. apply H. simpl; auto.
Qed.

Lemma mapM_nth {B : Type} (g : option value -> outcome B) (vs : list value) :
  forall pre : list value,
    mapM (fun i : nat => g (nth_error (pre ++ vs) i)) (seq (length pre) (length vs))
    = mapM (fun v => g (Some v)) vs.
Proof.
induction vs as [|v vs IH]; intros pre; [reflexivity|].
cbn [length seq mapM]. rewrite nth_error_app2 by lia. rewrite Nat.sub_diag. cbn [nth_error].
specialize (IH (pre ++ [v])). rewrite <- app_assoc, length_app, Nat.add_1_r in IH.
cbn [app] in IH. now rewrite IH.
Qed.

Lemma mapM_map {A B C : Type} (f : A -> outcome B) (h : C -> B) (l : list A) (cs : list C) :
  Forall2 (fun a c => f a = Ok (h c)) l cs -> mapM f l = Ok (List.map h cs).
Proof.
induction 1 as [|a c l cs Ha Hrest IH]; [reflexivity|].
cbn [mapM List.map]. rewrite Ha. cbn [bind]. rewrite IH. reflexivity.
Qed.

Lemma JSONtoCSV_shape (objs : list value) (columns : list string) (d : string)
    (cells : list (list string)) :
  (N.of_nat (length objs) <= index_limit)%N ->
  Forall2 (fun obj cs => Forall2 (fun key c => cell obj key = Ok c) columns cs) objs cells ->
  JSONtoCSV (array_of objs) columns d
  = Ok (join_with nl (join_with d columns
                      :: List.map (fun cs => join_with d (List.map quoted cs)) cells)).
Proof.
intros Hb Hcells. unfold array_of. cbn [JSONtoCSV].
rewrite lookup_index_from_name by (simpl; auto; lia).
rewrite Nat2N.id.
rewrite (mapM_ext _ (fun i : nat =>
                       match nth_error ([] ++ objs) i with
                       | Some obj => row columns d obj
                       | None => Ok EmptyString
                       end)).
- pose proof (mapM_nth (fun o => match o with
                                  | Some obj => row columns d obj
                                  | None => Ok EmptyString
                                  end) objs []) as E.
  cbn [length] in E. rewrite E. clear E.
  rewrite (mapM_map _ (fun cs => join_with d (List.map quoted cs)) objs cells).
  + reflexivity.
  + eapply Forall2_impl; [exact Hcells|]. intros obj cs H. now apply row_join.
- intros i _. cbn [app]. now rewrite <- (lookup_index_from 0 objs i).
Qed.

End Rows.

(** X8, [JSONtoCSV]: on an array literal the text is the title row, the
    names of the columns joined by the delimiter, followed by one line
    for each element, lines separated by a newline and none after the
    last.  A line holds one cell for each column, each between double
    quotes, the delimiter between two cells and neither before the first
    nor after the last.  The cell of a column is the text of the
    element's value there, and is empty when the value is falsy:
    [undefined] (a missing key), [null], [false], [0], [NaN] and the
    empty string all give an empty cell. *)
Theorem JSONtoCSV_lines (objs : list value) (columns : list string) (d : string)
    (cells : list (list string)) :
  (N.of_nat (length objs) <= index_limit)%N ->
  Forall2 (fun obj cs => Forall2 (fun key c => cell obj key = Ok c) columns cs) objs cells ->
  JSONtoCSV (array_of objs) columns d
  = Ok (join_with nl (join_with d columns
                      :: List.map (fun cs => join_with d (List.map quoted cs)) cells))
  /\ (forall obj key x,
        read obj key = Ok x -> truthy x = false -> cell obj key = Ok EmptyString)
  /\ (forall obj key x,
        read obj key = Ok x -> truthy x = true -> cell obj key = to_string x).
Proof.
intros Hb Hcells. split; [now apply JSONtoCSV_shape|].
split; intros obj key x Hx Tx; unfold cell; rewrite Hx; cbn [bind]; now rewrite Tx.
Qed.

Lemma JSONtoCSV_lines_witness :
  JSONtoCSV (array_of [VObj Plain [("a", VNum 1); ("b", VNum 0)]; VObj Plain [("b", VNum 7)]])
            ["a"; "b"] ";"
  = Ok ("a;b" +:+ nl +:+ quoted "1" +:+ ";" +:+ quoted "" +:+ nl
        +:+ quoted "" +:+ ";" +:+ quoted "7").
Proof.
destruct (JSONtoCSV_lines
            [VObj Plain [("a", VNum 1); ("b", VNum 0)]; VObj Plain [("b", VNum 7)]]
            ["a"; "b"] ";" [["1"; ""]; [""; "7"]]) as [E _].
- vm_compute. discriminate.
- repeat constructor.
- exact E.
Defined.

(** ** JSONtoCSV, then CSVToJSON *)

Section BackAndForth.

Lemma Forall2_map_left {A B C : Type} (h : A -> B) (P : B -> C -> Prop)
    (l : list A) (k : list C) :
  Forall2 P (List.map h l) k -> Forall2 (fun a c => P (h a) c) l k.
Proof.
revert k; induction l as [|a l IH]; intros k H; inversion H; subst; constructor; auto.
Qed.

Lemma Forall2_In_left {A B : Type} (P Q : A -> B -> Prop) (l : list A) (k : list B) :
  Forall2 P l k -> (forall a b, In a l -> P a b -> Q a b) -> Forall2 Q l k.
Proof.
induction 1 as [|a b l k Hab Hrest IH]; intros H; constructor.
- apply H; simpl; auto.
- apply IH. intros a' b' Ha'. apply H. simpl; auto.
Qed.

Lemma Forall2_In_right {A B : Type} (P : A -> B -> Prop) (l : list A) (k : list B) (b : B) :
  Forall2 P l k -> In b k -> exists a, In a l /\ P a b.
Proof.
induction 1 as [|a b' l k Hab Hrest IH]; intros Hin; [contradiction|].
destruct Hin as [<- | Hin].
- exists a. simpl; auto.
- destruct (IH Hin) as [a' [Ha' Pa']]. exists a'. simpl; auto.
Qed.

Lemma quoted_free (c : ascii) (x : string) :
  c <> Json.dquote -> index_of c x = None -> index_of c (quoted x) = None.
Proof.
intros Hc Hx. unfold quoted. cbn [index_of].
destruct (Ascii.eqb_spec Json.dquote c) as [E|_]; [congruence|].
assert (H : index_of c (x +:+ String Json.dquote EmptyString) = None).
{ apply index_of_app. split; [exact Hx|]. cbn [index_of].
  destruct (Ascii.eqb_spec Json.dquote c) as [E|_]; [congruence | reflexivity]. }
now rewrite H.
Qed.

End BackAndForth.

(** X9, [JSONtoCSV] then [CSVToJSON]: reading back the text written for
    an array literal gives one record for each element with the columns
    as keys, but not the values: each comes back as a string still
    between its double quotes, the text of a number or a boolean
    included, and a falsy value as the two quotes alone.  (The delimiter
    is one character other than the newline and the double quote; the
    columns are distinct, there is one at least and none is
    [__proto__], under which [CSVToJSON] creates no property; neither a
    column nor a cell holds the delimiter or a newline; the array is
    not empty.) *)
Theorem CSVToJSON_of_JSONtoCSV_keeps_the_quotes
    (objs : list value) (columns : list string) (c : ascii) (cells : list (list string)) :
  objs <> [] -> columns <> [] ->
  (N.of_nat (length objs) <= index_limit)%N ->
  c <> newline -> c <> Json.dquote ->
  List.NoDup columns ->
  (forall col, In col columns ->
     col <> "__proto__" /\ index_of c col = None /\ index_of newline col = None) ->
  Forall2 (fun obj cs =>
             Forall2 (fun key x => cell obj key = Ok x
                                   /\ index_of c x = None /\ index_of newline x = None)
                     columns cs)
          objs cells ->
  exists text rows,
    JSONtoCSV (array_of objs) columns (String c EmptyString) = Ok text
    /\ CSVToJSON text (String c EmptyString) = Ok (array_of rows)
    /\ Forall2
         (fun cs r =>
            exists ps,
              r = VObj Plain ps
              /\ (forall t, In t (List.map fst ps) <-> In t columns)
              /\ (forall i col x,
                    nth_error columns i = Some col -> nth_error cs i = Some x ->
                    lookup_prop col ps = Some (VStr (quoted x))))
         cells rows.
Proof.
intros Hobjs Hcols Hb Hnl Hdq Hnd Hcol Hcells.
set (d := String c EmptyString).
set (h := fun cs : list string => join_with d (List.map quoted cs)).
assert (Hcs : forall cs, In cs cells ->
                cs <> []
                /\ (forall x, In x cs -> index_of c x = None /\ index_of newline x = None)).
{ intros cs Hin. destruct (Forall2_In_right _ _ _ cs Hcells Hin) as [obj [_ H]]. split.
  - intros ->. inversion H; subst. contradiction.
  - intros x Hx. destruct (Forall2_In_right _ _ _ x H Hx) as [key [_ [_ Hfree]]]. exact Hfree. }
assert (Hsplit : forall cs, In cs cells -> split_on d (h cs) = List.map quoted cs).
{ intros cs Hin. destruct (Hcs cs Hin) as [Hne Hfree]. unfold h, d. apply split_join.
  - destruct cs; [contradiction | discriminate].
  - intros p Hp. apply in_map_iff in Hp as [x [<- Hx]].
    apply quoted_free; [assumption|]. now apply Hfree. }
assert (Hlines : forall line, In line (List.map h cells) -> index_of newline line = None).
{ intros line Hl. apply in_map_iff in Hl as [cs [<- Hin]]. destruct (Hcs cs Hin) as [_ Hfree].
  unfold h, d. apply join_free; [congruence|].
  intros p Hp. apply in_map_iff in Hp as [x [<- Hx]].
  apply quoted_free; [discriminate|]. now apply Hfree. }
assert (Hheader : index_of newline (join_with d columns) = None).
{ unfold d. apply join_free; [congruence|]. intros p Hp. now apply Hcol. }
assert (Htitles : split_on d (join_with d columns) = columns).
{ unfold d. apply split_join; [assumption|]. intros p Hp. now apply Hcol. }
assert (Hne : List.map h cells <> []).
{ destruct Hcells; [contradiction | discriminate]. }
exists (join_with nl (join_with d columns :: List.map h cells)).
assert (Etext : join_with nl (join_with d columns :: List.map h cells)
                = join_with d columns +:+ nl +:+ join_with nl (List.map h cells)).
{ cbn [join_with]. destruct (List.map h cells); [contradiction | reflexivity]. }
destruct (CSVToJSON_shape (join_with d columns) (join_with nl (List.map h cells)) d)
  as [rows [E Hrows]].
- exact Hheader.
- now rewrite Htitles.
- rewrite Htitles. intros t Ht. now apply Hcol.
- exists rows. split; [|split].
  + apply JSONtoCSV_shape; [assumption|].
    eapply Forall2_impl; [exact Hcells|]. intros obj cs H.
    eapply Forall2_impl; [exact H|]. intros key x Hx. apply Hx.
  + rewrite Etext. exact E.
  + unfold nl in Hrows. rewrite split_join in Hrows by assumption.
    apply Forall2_map_left in Hrows.
    apply (Forall2_In_left _ _ _ _ Hrows).
    intros cs r Hin [ps [-> [_ [Hkeys Hval]]]]. exists ps. split; [reflexivity|].
    rewrite Htitles in Hkeys, Hval. split; [exact Hkeys|].
    intros i col x Hi Hx. rewrite (Hval i col Hi). rewrite (Hsplit cs Hin).
    unfold field. now rewrite (map_nth_error quoted _ _ Hx).
Qed.

Lemma CSVToJSON_of_JSONtoCSV_keeps_the_quotes_witness :
  exists text rows,
    JSONtoCSV (array_of [VObj Plain [("a", VNum 1); ("b", VNum 0)]]) ["a"; "b"] ","
    = Ok text
    /\ CSVToJSON text "," = Ok (array_of rows)
    /\ Forall2
         (fun cs r =>
            exists ps,
              r = VObj Plain ps
              /\ (forall t, In t (List.map fst ps) <-> In t ["a"; "b"])
              /\ (forall i col x,
                    nth_error ["a"; "b"] i = Some col -> nth_error cs i = Some x ->
                    lookup_prop col ps = Some (VStr (quoted x))))
         [["1"; EmptyString]] rows.
Proof.
apply (CSVToJSON_of_JSONtoCSV_keeps_the_quotes
         [VObj Plain [("a", VNum 1); ("b", VNum 0)]] ["a"; "b"] ","%char
         [["1"; EmptyString]]).
- discriminate.
- discriminate.
- vm_compute. discriminate.
- discriminate.
- discriminate.
- repeat constructor; simpl; intuition discriminate.
- intros col [<- | [<- | []]]; repeat split; discriminate.
- repeat constructor.
Defined.

(** ** The walker on trees without null *)

Section NullFree.

Lemma null_free_child (k : kind) (ps : props) (key : string) (w : value) :
  null_free (VObj k ps) = true -> In (key, w) ps -> null_free w = true.
Proof.
cbn [null_free]. rewrite forallb_forall. intros H Hin. apply (H (key, w) Hin).
Qed.

Lemma null_free_scalar (w : value) :
  null_free w = true -> is_container w = false -> is_object_type w = false.
Proof. destruct w; simpl; auto; discriminate. Qed.

Lemma container_object_type (w : value) : is_container w = true -> is_object_type w = true.
Proof. destruct w; simpl; auto; discriminate. Qed.

Lemma walk_null_free :
  forall c, is_container c = true -> null_free c = true ->
            forall previous,
              spread (walk c previous)
              = Ok (List.map (fun pv : list string * value => (previous ++ fst pv, snd pv))
                             (leaves c)).
Proof.
induction c as [| | b | z | | s | k ps IH] using value_forall_ind; intros Hc Hnf previous;
  try discriminate Hc.
rewrite leaves_obj. cbn [walk].
assert (Hch : forall key w, In (key, w) ps -> null_free w = true)
  by (intros key w; now apply (null_free_child k ps)).
clear Hnf Hc. induction ps as [|[key w] ps IHps]; [reflexivity|].
inversion IH as [|? ? Hw Hrest]; subst. cbn [fold_right flat_map].
rewrite spread_andThen, IHps; auto.
- rewrite List.map_app. destruct (is_container w) eqn:Hcw.
  + rewrite (container_object_type w Hcw). simpl in Hw.
    rewrite (Hw Hcw (Hch key w (or_introl eq_refl))). cbn [bind].
    rewrite entry_leaves_container by assumption. rewrite List.map_map. cbn [fst snd].
    do 2 f_equal. apply map_ext. intros [q v]. cbn [fst snd]. now rewrite <- app_assoc.
  + rewrite (null_free_scalar w (Hch key w (or_introl eq_refl)) Hcw). cbn [spread bind].
    now rewrite entry_leaves_scalar.
- intros key' w' Hin. apply (Hch key'). simpl; auto.
Qed.

(** What the walker yields is never a container, and never comes with
    an empty path. *)
Lemma leaves_are_scalars :
  forall c p v, In (p, v) (leaves c) -> is_container v = false /\ p <> [].
Proof.
induction c as [| | b | z | | s | k ps IH] using value_forall_ind; intros p v Hin;
  try contradiction.
rewrite leaves_obj in Hin. apply in_flat_map in Hin as [[key w] [Hkw Hin]].
unfold entry_leaves in Hin. destruct (is_container w) eqn:Hcw.
- apply in_map_iff in Hin as [[q v'] [[= <- <-] Hq]].
  split; [|discriminate].
  apply (children_forall (fun w => forall p v, In (p, v) (leaves w) ->
                                     is_container v = false /\ p <> []) ps IH key w Hkw q v' Hq).
- destruct Hin as [[= <- <-] | []]. split; [exact Hcw | discriminate].
Qed.



End NullFree.

(** X10, [walkThrough]: on an object or array that holds no [null] at
    any depth the walker runs to its end without an error and yields
    the leaves in key order, one pair for each value that is not an
    object or array, the path being the keys from the root; an empty
    object or array yields nothing.  No yielded value is a container and
    no path is empty. *)
Theorem walkThrough_yields_the_leaves (t : value) :
  is_container t = true -> null_free t = true ->
  spread (walkThrough t) = Ok (leaves t)
  /\ forall p v, In (p, v) (leaves t) -> is_container v = false /\ p <> [].
Proof.
intros Hc Hnf. split; [|apply leaves_are_scalars].
unfold walkThrough. rewrite (walk_null_free t Hc Hnf []). f_equal.
erewrite map_ext; [apply List.map_id|]. now intros [p v].
Qed.

Lemma walkThrough_yields_the_leaves_witness :
  spread (walkThrough
            (VObj Plain [("a", VNum 10);
                         ("c", VObj Plain [("f", array_of [VNum 30; VNum 40])]);
                         ("e", empty_object)]))
  = Ok [(["a"], VNum 10); (["c"; "f"; "0"], VNum 30); (["c"; "f"; "1"], VNum 40)].
Proof.
destruct (walkThrough_yields_the_leaves
            (VObj Plain [("a", VNum 10); ("c", VObj Plain [("f", array_of [VNum 30; VNum 40])]);
                         ("e", empty_object)])) as [E _]; [reflexivity | reflexivity |].
exact E.
Defined.



(** ** Selectors: brackets and dots *)

Section Selectors.

Lemma replace_no_open (s t : string) :
  all_of (fun c => negb (Ascii.eqb c "[")) s = true ->
  replace_brackets false (s +:+ t) = s +:+ replace_brackets false t.
Proof.
induction s as [|x s IH]; rewrite ?append_cons, ?append_nil_l; [reflexivity|].
cbn [all_of replace_brackets]. intros H. apply andb_true_iff in H as [Hx Hs].
apply negb_true_iff in Hx. rewrite Hx. cbn [andb]. now rewrite IH.
Qed.

Lemma closes_inside (i t : string) :
  all_of (fun c => negb (is_bracket c)) i = true -> closes (i +:+ String "]" t) = true.
Proof.
induction i as [|x i IH]; rewrite ?append_cons, ?append_nil_l; [reflexivity|].
cbn [all_of closes]. intros H. apply andb_true_iff in H as [Hx Hi].
apply negb_true_iff in Hx. unfold is_bracket in Hx. apply orb_false_iff in Hx as [H1 H2].
rewrite H1, H2. now apply IH.
Qed.

Lemma replace_inside (i t : string) :
  all_of (fun c => negb (is_bracket c)) i = true ->
  replace_brackets true (i +:+ String "]" t) = i +:+ String "." (replace_brackets false t).
Proof.
induction i as [|x i IH]; rewrite ?append_cons, ?append_nil_l; [reflexivity|].
cbn [all_of replace_brackets]. intros H. apply andb_true_iff in H as [Hx Hi].
apply negb_true_iff in Hx. unfold is_bracket in Hx. apply orb_false_iff in Hx as [H1 H2].
rewrite H2. now rewrite IH.
Qed.

Lemma no_bracket_no_open (i : string) :
  all_of (fun c => negb (is_bracket c)) i = true ->
  all_of (fun c => negb (Ascii.eqb c "[")) i = true.
Proof.
induction i as [|x i IH]; [reflexivity|]. cbn [all_of]. intros H.
apply andb_true_iff in H as [Hx Hi]. rewrite IH by assumption.
apply negb_true_iff in Hx. unfold is_bracket in Hx. apply orb_false_iff in Hx as [H1 _].
now rewrite H1.
Qed.

(** A bracket pair is read as two dots. *)
Lemma replace_pair (a i b : string) :
  all_of (fun c => negb (Ascii.eqb c "[")) a = true ->
  all_of (fun c => negb (is_bracket c)) i = true ->
  replace_brackets false (a +:+ String "[" (i +:+ String "]" b))
  = replace_brackets false (a +:+ String "." (i +:+ String "." b)).
Proof.
intros Ha Hi. rewrite !replace_no_open by assumption. f_equal.
cbn [replace_brackets]. rewrite closes_inside by assumption. cbn [andb Ascii.eqb].
rewrite replace_inside by assumption.
change (Ascii.eqb "." "[" && closes (i +:+ String "." b)) with false.
cbv iota. f_equal.
rewrite (replace_no_open i (String "." b)) by now apply no_bracket_no_open.
reflexivity.
Qed.

Lemma segment_no_open (s : string) :
  all_of segment_char s = true -> all_of (fun c => negb (Ascii.eqb c "[")) s = true.
Proof.
induction s as [|x s IH]; [reflexivity|]. cbn [all_of]. intros H.
apply andb_true_iff in H as [Hx Hs]. rewrite IH by assumption.
unfold segment_char, is_bracket in Hx. apply negb_true_iff in Hx.
apply orb_false_iff in Hx as [_ Hx]. apply orb_false_iff in Hx as [H1 _]. now rewrite H1.
Qed.

Lemma split_dot_segment (s : string) :
  all_of segment_char s = true -> split_dot s = [s].
Proof.
induction s as [|x s IH]; [reflexivity|]. cbn [all_of split_dot]. intros H.
apply andb_true_iff in H as [Hx Hs]. rewrite IH by assumption.
unfold segment_char in Hx. apply negb_true_iff in Hx. apply orb_false_iff in Hx as [H1 _].
now rewrite H1.
Qed.

Lemma split_dot_first (p rest : string) :
  all_of segment_char p = true ->
  split_dot (p +:+ String "." rest) = p :: split_dot rest.
Proof.
induction p as [|x p IH]; rewrite ?append_cons, ?append_nil_l; [reflexivity|].
cbn [all_of split_dot]. intros H. apply andb_true_iff in H as [Hx Hp].
rewrite IH by assumption.
unfold segment_char in Hx. apply negb_true_iff in Hx. apply orb_false_iff in Hx as [H1 _].
now rewrite H1.
Qed.

Lemma plain_segment_chars (s : string) :
  plain_segment s = true -> nonempty s = true /\ all_of segment_char s = true.
Proof. unfold plain_segment. intros H. now apply andb_true_iff in H. Qed.

(** The selector made of plain segments joined by dots names these
    segments. *)
Lemma selector_path_join (p : list string) :
  forallb plain_segment p = true -> selector_path (join_dot p) = p.
Proof.
unfold selector_path. induction p as [|seg rest IH]; [reflexivity|].
cbn [forallb]. intros H. apply andb_true_iff in H as [Hseg Hrest].
destruct (plain_segment_chars seg Hseg) as [Hne Hch].
cbn [join_dot]. destruct rest as [|seg' rest'].
- rewrite <- (append_nil_r seg) at 1. rewrite replace_no_open by now apply segment_no_open.
  cbn [replace_brackets]. rewrite append_nil_r, split_dot_segment by assumption.
  cbn [List.filter]. now rewrite Hne.
- rewrite replace_no_open by now apply segment_no_open.
  cbn [replace_brackets].
  change (Ascii.eqb "." "[" && closes (join_dot (seg' :: rest'))) with false.
  cbv iota. rewrite split_dot_first by assumption.
  cbn [List.filter]. rewrite Hne. f_equal. now apply IH.
Qed.

Lemma selector_path_plain_key (k : string) :
  plain_key k = true -> selector_path k = split_dot k.
Proof.
intros H. rewrite <- (join_split k) at 1. now apply selector_path_join.
Qed.

End Selectors.

(** X12, [get]: bracket notation and dot notation name the same member:
    a selector with [[i]] in it gives what the selector with [.i.] in
    its place gives, on every object, e.g. [target[2].a] and
    [target.2.a].  (No bracket stands inside the pair, and no opening
    bracket before it.) *)
Theorem get_bracket_notation_is_dot_notation (from : value) (a i b : string) :
  all_of (fun c => negb (Ascii.eqb c "[")) a = true ->
  all_of (fun c => negb (is_bracket c)) i = true ->
  selector_path (a +:+ String "[" (i +:+ String "]" b))
  = selector_path (a +:+ String "." (i +:+ String "." b))
  /\ Objects.get from [a +:+ String "[" (i +:+ String "]" b)]
     = Objects.get from [a +:+ String "." (i +:+ String "." b)].
Proof.
intros Ha Hi.
assert (E : selector_path (a +:+ String "[" (i +:+ String "]" b))
            = selector_path (a +:+ String "." (i +:+ String "." b)))
  by (unfold selector_path; now rewrite replace_pair).
split; [exact E|]. unfold Objects.get. cbn [mapM]. now rewrite E.
Qed.

Lemma get_bracket_notation_is_dot_notation_witness :
  Objects.get
    (VObj Plain [("target", array_of [VNum 1; VNum 2; VObj Plain [("a", VStr "test")]])])
    ["target[2].a"]
  = Objects.get
      (VObj Plain [("target", array_of [VNum 1; VNum 2; VObj Plain [("a", VStr "test")]])])
      ["target.2..a"].
Proof.
destruct (get_bracket_notation_is_dot_notation
            (VObj Plain [("target", array_of [VNum 1; VNum 2; VObj Plain [("a", VStr "test")]])])
            "target" "2" ".a") as [_ E]; [reflexivity | reflexivity |].
exact E.
Defined.

(** ** Reading back a leaf *)

Section ReadBack.

Lemma ordered_NoDup (ks : list string) : ordered ks = true -> List.NoDup ks.
Proof.
induction ks as [|k ks IH]; intros H; constructor.
- cbn [ordered] in H. apply andb_true_iff in H as [Hk _].
  rewrite forallb_forall in Hk. intros Hin. now apply (key_before_neq k k (Hk k Hin)).
- apply IH. cbn [ordered] in H. now apply andb_true_iff in H.
Qed.

Lemma well_formed_readable :
  forall t, well_formed t = true -> addressable t = true -> readable t.
Proof.
induction t as [| | b | z | | s | k ps IH] using value_forall_ind; intros Hwf Had;
  try (apply readable_scalar; reflexivity).
cbn [well_formed] in Hwf. rewrite !andb_true_iff in Hwf. destruct Hwf as [[Ho _] Hch].
cbn [addressable] in Had. rewrite forallb_forall in Hch, Had.
apply readable_container.
- now apply ordered_NoDup.
- intros Ha Hin. apply in_map_iff in Hin as [[key w] [E Hin]]. cbn [fst] in E.
  specialize (Had _ Hin). cbn beta iota in Had. rewrite !andb_true_iff in Had.
  destruct Had as [[_ Hl] _]. destruct k; [discriminate Ha|].
  rewrite E in Hl. discriminate Hl.
- intros key w Hin.
  apply (children_forall (fun w => well_formed w = true -> addressable w = true -> readable w)
                         ps IH key w Hin).
  + apply (Hch (key, w) Hin).
  + specialize (Had _ Hin). cbn in Had. rewrite !andb_true_iff in Had. tauto.
Qed.

Lemma good_readable : forall t, good t -> readable t.
Proof.
induction t as [| | b | z | | s | k ps IH] using value_forall_ind; intros Hg;
  try (apply readable_scalar; reflexivity).
apply good_inv in Hg as [Hnd [Hkeys [Hcont Hscal]]].
apply readable_container.
- exact Hnd.
- intros Ha Hin. specialize (Hkeys "length" Ha Hin). discriminate Hkeys.
- intros key w Hin. destruct (is_container w) eqn:Hcw.
  + apply (children_forall (fun w => good w -> readable w) ps IH key w Hin).
    now destruct (Hcont key w Hin Hcw).
  + now apply readable_scalar.
Qed.

(** Walking down the path of a leaf reaches the leaf. *)
Lemma leaf_is_read :
  forall t, readable t ->
            forall p v, In (p, v) (leaves t) -> fold_left get_step p (Ok t) = Ok v.
Proof.
induction t as [| | b | z | | s | k ps IH] using value_forall_ind; intros Hr p v Hin;
  try contradiction.
inversion Hr as [v0 Hs | k0 ps0 Hnd Hlen Hch]; subst; [discriminate Hs|].
rewrite leaves_obj in Hin. apply in_flat_map in Hin as [[key w] [Hkw Hin]].
assert (Hstep : get_step (Ok (VObj k ps)) key = Ok w).
{ rewrite get_step_truthy by reflexivity. rewrite read_member.
  - now rewrite (lookup_in key w ps Hnd Hkw).
  - destruct k as [|len]; [left; reflexivity | right]. intros ->.
    apply (Hlen eq_refl). apply in_map_iff. exists ("length", w). auto.
  - apply (member_not_inherited _ _ _ w). apply (lookup_in key w ps Hnd Hkw). }
unfold entry_leaves in Hin. destruct (is_container w) eqn:Hcw.
- apply in_map_iff in Hin as [[q v'] [[= <- <-] Hq]]. cbn [fold_left]. rewrite Hstep.
  apply (children_forall (fun w => readable w -> forall p v, In (p, v) (leaves w) ->
                                   fold_left get_step p (Ok w) = Ok v) ps IH key w Hkw);
    [now apply (Hch key) | exact Hq].
- destruct Hin as [[= <- <-] | []]. cbn [fold_left]. exact Hstep.
Qed.

Lemma leaf_paths_plain :
  forall t, addressable t = true ->
            forall p v, In (p, v) (leaves t) -> forallb plain_segment p = true.
Proof.
induction t as [| | b | z | | s | k ps IH] using value_forall_ind; intros Had p v Hin;
  try contradiction.
rewrite leaves_obj in Hin. apply in_flat_map in Hin as [[key w] [Hkw Hin]].
cbn [addressable] in Had. rewrite forallb_forall in Had.
specialize (Had _ Hkw). cbn in Had. rewrite !andb_true_iff in Had.
destruct Had as [[Hseg _] Hw].
unfold entry_leaves in Hin. destruct (is_container w) eqn:Hcw.
- apply in_map_iff in Hin as [[q v'] [[= <- <-] Hq]]. cbn [forallb]. rewrite Hseg.
  apply (children_forall (fun w => addressable w = true -> forall p v, In (p, v) (leaves w) ->
                                   forallb plain_segment p = true) ps IH key w Hkw Hw q v' Hq).
- destruct Hin as [[= <- <-] | []]. cbn [forallb]. now rewrite Hseg.
Qed.

End ReadBack.

(** X13, [walkThrough] then [get]: every pair the walker yields can be
    read back: [get] with the yielded path joined by dots as selector
    returns the yielded value.  (The tree holds no [null], and every key
    in it is a name a selector can spell: not empty, without dot or
    bracket.) *)
Theorem get_reads_what_walkThrough_yields (t : value) :
  is_container t = true -> well_formed t = true ->
  addressable t = true -> null_free t = true ->
  exists L,
    spread (walkThrough t) = Ok L
    /\ forall p v, In (p, v) L -> Objects.get t [join_dot p] = Ok [v].
Proof.
intros Hc Hwf Had Hnf. exists (leaves t). split.
- unfold walkThrough. rewrite (walk_null_free t Hc Hnf []). f_equal.
  erewrite map_ext; [apply List.map_id|]. now intros [p v].
- intros p v Hin. unfold Objects.get. cbn [mapM].
  rewrite selector_path_join by now apply (leaf_paths_plain t Had p v).
  rewrite (leaf_is_read t (well_formed_readable t Hwf Had) p v Hin). reflexivity.
Qed.

Lemma get_reads_what_walkThrough_yields_witness :
  exists L,
    spread (walkThrough
              (VObj Plain [("a", VNum 10);
                           ("g", array_of [VObj Plain [("h", VNum 0)]; VNum 40])]))
    = Ok L
    /\ forall p v, In (p, v) L ->
         Objects.get
           (VObj Plain [("a", VNum 10);
                        ("g", array_of [VObj Plain [("h", VNum 0)]; VNum 40])])
           [join_dot p] = Ok [v].
Proof.
apply (get_reads_what_walkThrough_yields
         (VObj Plain [("a", VNum 10); ("g", array_of [VObj Plain [("h", VNum 0)]; VNum 40])]));
  reflexivity.
Defined.

(** X14, [unflattenObject] then [get]: after unflattening a flat
    mapping, [get] with a flat key as selector returns the value the
    mapping holds under this key.  (The values are scalars other than
    [null]; no path is the beginning of another; below the root no
    position is addressed both by a segment [Number] converts and by one
    it does not; no key has a bracket or an empty segment, and no
    segment is the name of a member of [Object.prototype].) *)
Theorem get_reads_what_unflattenObject_nests (kd : kind) (F : props) :
  List.NoDup (List.map fst F) ->
  (forall k v, In (k, v) F -> is_object_type v = false) ->
  prefix_free (flat_paths F) ->
  kind_consistent (flat_paths F) ->
  (forall k v, In (k, v) F ->
     plain_key k = true /\ forallb (fun seg => negb (builtin_name seg)) (split_dot k) = true) ->
  exists t,
    unflattenObject (VObj kd F) = Ok t
    /\ forall k v, In (k, v) F -> Objects.get t [k] = Ok [v].
Proof.
intros Hnd Hleaf Hpf Hkc Hkeys.
destruct (unflatten_fold F [] empty_object) as [t [Hfold [Hg Hperm]]]; auto.
- constructor; [constructor | intros ? ? [] | intros ? ? [] | intros ? ? []].
- intros k v Hin. now apply (Hkeys k v).
- exists t. split; [exact Hfold|]. intros k v Hin.
  destruct (Hkeys k v Hin) as [Hplain _].
  unfold Objects.get. cbn [mapM]. rewrite selector_path_plain_key by assumption.
  rewrite (leaf_is_read t (good_readable t Hg) (split_dot k) v); [reflexivity|].
  apply (Permutation_in _ (Permutation_sym Hperm)). cbn [app].
  unfold flat_paths. apply in_map_iff. exists (k, v). auto.
Qed.

Lemma get_reads_what_unflattenObject_nests_witness :
  exists t,
    unflattenObject (VObj Plain [("a.b.0", VNum 8); ("a.c", VStr "x"); ("d", VNum 3)]) = Ok t
    /\ forall k v, In (k, v) [("a.b.0", VNum 8); ("a.c", VStr "x"); ("d", VNum 3)] ->
         Objects.get t [k] = Ok [v].
Proof.
apply (get_reads_what_unflattenObject_nests Plain
         [("a.b.0", VNum 8); ("a.c", VStr "x"); ("d", VNum 3)]).
- repeat constructor; simpl; intuition discriminate.
- intros k v [[= <- <-] | [[= <- <-] | [[= <- <-] | []]]]; reflexivity.
- intros p q v w Hp Hq [r Hr]. simpl in Hp, Hq.
  destruct Hp as [[= <- <-] | [[= <- <-] | [[= <- <-] | []]]];
    destruct Hq as [[= <- <-] | [[= <- <-] | [[= <- <-] | []]]];
    try reflexivity; discriminate Hr.
- intros p q v w pre s1 r1 s2 r2 Hp Hq Hpre E1 E2. simpl in Hp, Hq.
  destruct Hp as [[= <- <-] | [[= <- <-] | [[= <- <-] | []]]];
    destruct Hq as [[= <- <-] | [[= <- <-] | [[= <- <-] | []]]];
    destruct pre as [|x1 [|x2 [|x3 [|x4 pre]]]]; try contradiction;
    simpl in E1, E2; try discriminate E1; try discriminate E2;
    injection E1 as <- <-; injection E2; intros; subst; reflexivity.
- intros k v [[= <- <-] | [[= <- <-] | [[= <- <-] | []]]]; split; reflexivity.
Defined.

(** ** The unflattener on keys without a dot, and on a leaf in the way *)

Section Undotted.

Lemma split_dot_free (s : string) :
  index_of "."%char s = None -> split_dot s = [s].
Proof.
induction s as [|x s IH]; [reflexivity|]. cbn [index_of split_dot].
destruct (Ascii.eqb x "."); [discriminate|].
destruct (index_of "."%char s); [discriminate|]. intros _. now rewrite IH.
Qed.

Lemma split_dot_cut (p rest : string) :
  index_of "."%char p = None -> split_dot (p +:+ String "." rest) = p :: split_dot rest.
Proof.
induction p as [|x p IH]; rewrite ?append_cons, ?append_nil_l; [reflexivity|].
cbn [index_of split_dot]. destruct (Ascii.eqb x "."); [discriminate|].
destruct (index_of "."%char p); [discriminate|]. intros _. now rewrite IH.
Qed.

Lemma update_same (key : string) (v : value) (ps : props) :
  lookup_prop key ps = Some v -> update_prop key v ps = ps.
Proof.
induction ps as [|[k w] ps IH]; [reflexivity|]. cbn [lookup_prop update_prop].
destruct (String.eqb_spec k key) as [->|_].
- now intros [= ->].
- intros H. now rewrite IH.
Qed.

(** A key of one segment that is not there yet, and is no name of a
    member of [Object.prototype], is assigned its value. *)
Lemma nest_single (leaf : value) (k : string) (ps : props) :
  lookup_prop k ps = None -> builtin_name k = false ->
  nest leaf [k] (VObj Plain ps) = Ok (VObj Plain (put k leaf ps)).
Proof.
intros Hk Hb. rewrite nest_cons, read_plain by now left. rewrite Hk.
cbn [default from_option id bind truthy head isNaN_Number].
rewrite write_other by now apply not_builtin_not_proto.
cbn [set_prop bind nest].
destruct (is_container leaf) eqn:Hc.
- rewrite store_back_container by assumption.
  now rewrite update_same by apply lookup_put_same.
- destruct leaf; try discriminate Hc; reflexivity.
Qed.

Lemma unflatten_undotted (rest done : props) :
  ordered (List.map fst (done ++ rest)) = true ->
  (forall k v, In (k, v) rest -> index_of "."%char k = None /\ builtin_name k = false) ->
  fold_left unflatten_reducer rest (Ok (VObj Plain done)) = Ok (VObj Plain (done ++ rest)).
Proof.
revert done; induction rest as [|[k v] rest IH]; intros done Ho Hk; cbn [fold_left].
- now rewrite app_nil_r.
- unfold unflatten_reducer at 2. cbn [bind].
  destruct (Hk k v (or_introl eq_refl)) as [Hdot Hname].
  rewrite (split_dot_free k) by assumption.
  assert (Ho' : ordered (List.map fst done ++ [k]) = true).
  { rewrite List.map_app in Ho. cbn [List.map fst] in Ho.
    change (k :: List.map fst rest) with ([k] ++ List.map fst rest) in Ho.
    rewrite app_assoc in Ho. now apply ordered_prefix in Ho. }
  rewrite nest_single.
  + rewrite put_last by assumption.
    replace (done ++ (k, v) :: rest) with ((done ++ [(k, v)]) ++ rest)
      by now rewrite <- app_assoc.
    apply IH.
    * now rewrite <- app_assoc.
    * intros k' v' Hin. apply (Hk k' v'). simpl; auto.
  + apply lookup_none_notin. intros Hin.
    apply ordered_NoDup in Ho'. apply NoDup_remove_2 in Ho'.
    apply Ho'. now rewrite app_nil_r.
  + exact Hname.
Qed.


End Undotted.

(** X15, [unflattenObject]: a mapping none of whose keys has a dot is
    copied as it is: the result is a fresh plain object with the same
    keys and values, in the same order, and a value that is an object or
    array is kept whole.  An array given as argument comes back as a
    plain object with its indices as keys.  (No key is the name of a
    member of [Object.prototype].) *)
Theorem unflattenObject_copies_keys_without_dot (kd : kind) (F : props) :
  ordered (List.map fst F) = true ->
  (forall k v, In (k, v) F -> index_of "."%char k = None /\ builtin_name k = false) ->
  unflattenObject (VObj kd F) = Ok (VObj Plain F).
Proof.
intros Ho Hk. unfold unflattenObject, empty_object. cbn [entries bind].
apply (unflatten_undotted F []); [exact Ho | exact Hk].
Qed.

Lemma unflattenObject_copies_keys_without_dot_witness :
  unflattenObject (array_of [VNum 7; VObj Plain [("a.b", VNull)]])
  = Ok (VObj Plain [("0", VNum 7); ("1", VObj Plain [("a.b", VNull)])]).
Proof.
apply (unflattenObject_copies_keys_without_dot (Arr 2)
         [("0", VNum 7); ("1", VObj Plain [("a.b", VNull)])]).
- reflexivity.
- intros k v [[= <- <-] | [[= <- <-] | []]]; split; reflexivity.
Defined.



(** ** The standard serializer on a cycle *)

Section PlainSerializer.
Import Json Cycles.
Variable h : gmap addr container.

Abbreviation std := (ser_property no_replacer h).

Lemma std_S (n : nat) (stack : list addr) (st : unit) (key : string) (a : addr) :
  std (S n) stack st key (RRef a)
  = match h !! a with
    | None => OutOfModel
    | Some c =>
        if bool_decide (a ∈ stack) then Throw TypeError
        else
          bind (ser_each (std n (a :: stack)) st (properties c))
               (fun rs => Ok (fst rs, Some (container_text c (snd rs))))
    end.
Proof. reflexivity. Qed.

Lemma ser_each_ok_all {St : Type}
    (f : St -> string -> ref_value -> outcome (St * option string))
    (kvs : list (string * ref_value)) :
  forall st r, ser_each f st kvs = Ok r ->
               forall k v, In (k, v) kvs -> exists st1 r1, f st1 k v = Ok r1.
Proof.
induction kvs as [|[k0 v0] kvs IH]; intros st r H k v Hin; [contradiction|].
cbn [ser_each] in H. bind_inv H. bind_inv H.
destruct Hin as [[= <- <-] | Hin]; [eauto | eapply IH; eauto].
Qed.

Lemma child_property (c : container) (v : ref_value) :
  In v (children c) -> exists k, In (k, v) (properties c).
Proof.
rewrite <- children_properties. intros Hin.
apply in_map_iff in Hin as [[k v'] [E Hin]]. cbn [snd] in E. subst v'. eauto.
Qed.

(** A container that is being serialized, or reaches one that is, does
    not serialize. *)
Lemma std_not_ok (n : nat) :
  forall (stack : list addr) (x : addr) (st : unit) (k : string),
    In x stack \/ (exists s, (In s stack \/ s = x) /\ reaches h x s) ->
    forall r, std n stack st k (RRef x) <> Ok r.
Proof.
induction n as [|n IH]; intros stack x st k Hx r H; [discriminate H|].
rewrite std_S in H.
destruct (h !! x) as [c|] eqn:Hc; [|discriminate H].
destruct (bool_decide (x ∈ stack)) eqn:Hin; [discriminate H|].
apply bool_decide_eq_false in Hin. rewrite list_elem_of_In in Hin.
destruct Hx as [Hx | [s [Hs Hreach]]]; [contradiction|].
bind_inv H. clear H.
assert (Hnext : exists y, In (RRef y) (children c)
                          /\ (In y (x :: stack)
                              \/ exists s', (In s' (x :: stack) \/ s' = y) /\ reaches h y s')).
{ inversion Hreach as [? ? c' Hc' Hchild | ? m ? c' Hc' Hchild Hm]; subst;
    rewrite Hc in Hc'; injection Hc' as <-.
  - exists s. split; [exact Hchild|]. left. destruct Hs as [Hs | ->]; simpl; auto.
  - exists m. split; [exact Hchild|]. right. exists s. split; [|exact Hm].
    left. destruct Hs as [Hs | ->]; simpl; auto. }
destruct Hnext as [y [Hy Hq]].
destruct (child_property c (RRef y) Hy) as [ky Hky].
destruct (ser_each_ok_all _ _ _ _ E ky (RRef y) Hky) as [st1 [r1 Hr1]].
now apply (IH (x :: stack) y st1 ky Hq r1).
Qed.

Lemma std_each_total (f : unit -> string -> ref_value -> outcome (unit * option string)) :
  (forall st k v, closed_value h v = true ->
                  (exists r, f st k v = Ok r) \/ f st k v = Throw TypeError) ->
  forall kvs st,
    Forall (fun kv => closed_value h (snd kv) = true) kvs ->
    (exists r, ser_each f st kvs = Ok r) \/ ser_each f st kvs = Throw TypeError.
Proof.
intros Hf. induction kvs as [|[k v] kvs IH]; intros st Hc; cbn [ser_each].
- left. eauto.
- inversion Hc as [|? ? Hv Hrest]; subst. simpl in Hv.
  destruct (Hf st k v Hv) as [[r ->] | ->]; cbn [bind]; [|auto].
  destruct (IH (fst r) Hrest) as [[rs ->] | ->]; cbn [bind]; [left; eauto | auto].
Qed.

(** Without a replacer the serializer ends with a text or with the
    TypeError of its cycle check; its bound is never reached. *)
Lemma std_total (Hclosed : closed h = true) (n : nat) :
  forall stack st k v,
    NoDup stack ->
    (forall a, In a stack -> is_Some (h !! a)) ->
    size h < n + length stack ->
    closed_value h v = true ->
    (exists r, std n stack st k v = Ok r) \/ std n stack st k v = Throw TypeError.
Proof.
induction n as [|n IH]; intros stack st k v Hnd Hst Hsz Hv.
- exfalso. pose proof (stack_fits h stack Hnd Hst). simpl in Hsz. lia.
- destruct v as [| | b | z | | s | a];
    try (left; rewrite ser_property_S; cbn; eexists; reflexivity).
  rewrite std_S. simpl in Hv. destruct (h !! a) as [c|] eqn:Hc; [|discriminate Hv].
  destruct (bool_decide (a ∈ stack)) eqn:Hin; [auto|].
  apply bool_decide_eq_false in Hin.
  assert (Hkids : Forall (fun kv => closed_value h (snd kv) = true) (properties c)).
  { apply Forall_forall. intros [k' v'] Hin'. simpl.
    apply (closed_children h a c); auto.
    rewrite <- children_properties. apply in_map_iff. exists (k', v').
    split; [reflexivity | now apply list_elem_of_In]. }
  destruct (std_each_total (std n (a :: stack))) with (kvs := properties c) (st := st)
    as [[rs ->] | ->]; cbn [bind]; eauto.
  intros st' k' v' Hv'. apply IH; auto.
  + constructor; assumption.
  + intros b [<- | Hb]; [now rewrite Hc | auto].
  + simpl. lia.
Qed.

End PlainSerializer.

(** X17, [JSON.stringify] against [stringifyCircularJSON]: on a
    container that reaches itself, directly or through other
    containers, the standard serializer throws a TypeError, whatever
    else the container holds, and [stringifyCircularJSON] returns a
    text. *)
Theorem stringifyCircularJSON_passes_where_stringify_throws
    (h : gmap Json.addr Json.container) (a : Json.addr) :
  Json.closed h = true -> Cycles.reaches h a a ->
  Json.JSON_stringify h (Json.RRef a) = Throw TypeError
  /\ exists text, Json.stringifyCircularJSON h (Json.RRef a) = Ok (Some text).
Proof.
intros Hclosed Hcycle.
assert (Ha : Json.closed_value h (Json.RRef a) = true).
{ simpl. inversion Hcycle as [? ? c Hc _ | ? ? ? c Hc _ _]; subst; now rewrite Hc. }
split.
- unfold Json.JSON_stringify, Json.stringify_with.
  destruct (std_total h Hclosed (S (size h)) [] tt EmptyString (Json.RRef a))
    as [[r Hr] | ->]; auto.
  + constructor.
  + intros b [].
  + simpl. lia.
  + exfalso. apply (std_not_ok h (S (size h)) [] a tt EmptyString) with (r := r); [|exact Hr].
    right. exists a. auto.
- destruct (stringifyCircularJSON_total h (Json.RRef a) Hclosed Ha) as [r Hr].
  unfold Json.stringifyCircularJSON, Json.stringify_with in Hr |- *.
  simpl in Ha. destruct (h !! a) as [c|] eqn:Hc; [|discriminate Ha].
  rewrite (ser_first h (size h) [] ∅ EmptyString a c) in Hr |- * by (auto; set_solver).
  destruct (Json.ser_each _ _ _) as [rs| | |]; cbn [bind] in Hr |- *; try discriminate Hr.
  eauto.
Qed.

Lemma stringifyCircularJSON_passes_where_stringify_throws_witness :
  Json.JSON_stringify
    {[ 0%nat := Json.CObject [("n", Json.RNum 42); ("next", Json.RRef 1%nat)];
       1%nat := Json.CArray [Json.RRef 0%nat] ]} (Json.RRef 0%nat) = Throw TypeError
  /\ exists text,
       Json.stringifyCircularJSON
         {[ 0%nat := Json.CObject [("n", Json.RNum 42); ("next", Json.RRef 1%nat)];
            1%nat := Json.CArray [Json.RRef 0%nat] ]} (Json.RRef 0%nat) = Ok (Some text).
Proof.
apply stringifyCircularJSON_passes_where_stringify_throws.
- vm_compute. reflexivity.
- apply (Cycles.reaches_later _ 0%nat 1%nat 0%nat
           (Json.CObject [("n", Json.RNum 42); ("next", Json.RRef 1%nat)])).
  + reflexivity.
  + simpl. auto.
  + apply (Cycles.reaches_child _ 1%nat 0%nat (Json.CArray [Json.RRef 0%nat])).
    * reflexivity.
    * simpl. auto.
Defined.

(** X18, [stringifyCircularJSON] on data: for [null], a boolean, a
    number, a string, an object or an array, with cycles or without,
    the result is a text; for [undefined] it is [undefined], not a
    string.  (Functions and symbols, for which the result is [undefined]
    as well, are no values of the model.) *)
Theorem stringifyCircularJSON_gives_a_text_for_data
    (h : gmap Json.addr Json.container) (obj : Json.ref_value) :
  Json.closed h = true -> Json.closed_value h obj = true ->
  match obj with
  | Json.RUndef => Json.stringifyCircularJSON h obj = Ok None
  | _ => exists text, Json.stringifyCircularJSON h obj = Ok (Some text)
  end.
Proof.
intros Hclosed Hobj.
destruct obj as [| | b | z | | s | a]; try reflexivity; try (eexists; reflexivity).
destruct (stringifyCircularJSON_total h (Json.RRef a) Hclosed Hobj) as [r Hr].
unfold Json.stringifyCircularJSON, Json.stringify_with in Hr |- *.
simpl in Hobj. destruct (h !! a) as [c|] eqn:Hc; [|discriminate Hobj].
rewrite (ser_first h (size h) [] ∅ EmptyString a c) in Hr |- * by (auto; set_solver).
destruct (Json.ser_each _ _ _) as [rs| | |]; cbn [bind] in Hr |- *; try discriminate Hr.
eauto.
Qed.

Lemma stringifyCircularJSON_gives_a_text_for_data_witness :
  exists text,
    Json.stringifyCircularJSON
      {[ 0%nat := Json.CArray [Json.RUndef; Json.RRef 0%nat; Json.RNum 7] ]}
      (Json.RRef 0%nat) = Ok (Some text).
Proof.
apply (stringifyCircularJSON_gives_a_text_for_data
         {[ 0%nat := Json.CArray [Json.RUndef; Json.RRef 0%nat; Json.RNum 7] ]}
         (Json.RRef 0%nat)).
- vm_compute. reflexivity.
- reflexivity.
Defined.



(** ** compactObject on a primitive *)

Section CompactPrimitive.

Lemma string_entries_index_from (i : N) (s : string) :
  string_entries i s
  = index_from i (List.map (fun c => VStr (String c EmptyString)) (list_ascii_of_string s)).
Proof.
revert i; induction s as [|c s IH]; intros i; simpl; [reflexivity | now rewrite IH].
Qed.

Lemma characters_kept (cs : list ascii) (i : N) :
  omap (fun kv : string * value =>
          let '(k, w) := kv in if kept (k, w) then Some (k, prune w) else None)
       (index_from i (List.map (fun c => VStr (String c EmptyString)) cs))
  = index_from i (List.map (fun c => VStr (String c EmptyString)) cs).
Proof.
revert i; induction cs as [|c cs IH]; intros i; [reflexivity|].
cbn [List.map index_from omap list_omap]. unfold kept at 1.
cbn [fst snd truthy String.eqb negb]. rewrite index_str_not_proto.
cbn [negb andb prune]. now rewrite IH.
Qed.

Lemma length_list_ascii (s : string) : length (list_ascii_of_string s) = String.length s.
Proof. induction s as [|c s IH]; simpl; [reflexivity | now rewrite IH]. Qed.

End CompactPrimitive.

(** X20, [compactObject] on a value that is no object: [null] and
    [undefined] make it throw a TypeError; a number or a boolean gives
    an empty plain object; a string gives the plain object of its
    characters, each under its index. *)
Theorem compactObject_on_a_primitive :
  compactObject VNull = Throw TypeError
  /\ compactObject VUndef = Throw TypeError
  /\ (forall z, compactObject (VNum z) = Ok empty_object)
  /\ compactObject VNaN = Ok empty_object
  /\ (forall b, compactObject (VBool b) = Ok empty_object)
  /\ (forall s, (N.of_nat (String.length s) <= index_limit)%N ->
                compactObject (VStr s) = Ok (VObj Plain (string_entries 0 s))).
Proof.
repeat split; try reflexivity.
intros s Hb. unfold compactObject. cbn [depth compact_fuel]. unfold compact_body.
cbn [isArray entries bind]. unfold empty_object.
rewrite compact_fold_plain.
- cbn [app]. now rewrite string_entries_index_from, characters_kept.
- cbn [List.map app]. rewrite string_entries_index_from. apply index_from_ordered.
  rewrite length_map, length_list_ascii. lia.
- intros k w Hin Hc. exfalso. rewrite string_entries_index_from in Hin.
  assert (Hw : In w (List.map snd (index_from 0 (List.map (fun c => VStr (String c EmptyString))
                                                          (list_ascii_of_string s)))))
    by (apply in_map_iff; exists (k, w); auto).
  rewrite index_from_values in Hw. apply in_map_iff in Hw as [c [<- _]]. discriminate Hc.
Qed.

Lemma compactObject_on_a_primitive_witness :
  compactObject (VStr "shy")
  = Ok (VObj Plain [("0", VStr "s"); ("1", VStr "h"); ("2", VStr "y")]).
Proof.
destruct compactObject_on_a_primitive as [_ [_ [_ [_ [_ H]]]]].
apply (H "shy"). vm_compute. discriminate.
Defined.

(** ** Flatten, then unflatten *)

Section Rebuilding.
Import Rebuild.

Lemma dot_free_index (k : string) : dot_free k = true -> index_of "."%char k = None.
Proof.
unfold dot_free. induction k as [|x k IH]; [reflexivity|]. cbn [all_of index_of].
intros H. apply andb_true_iff in H as [Hx Hk]. apply negb_true_iff in Hx.
rewrite Hx. now rewrite IH.
Qed.

Lemma split_join_dot (p : list string) :
  p <> [] -> (forall s, In s p -> dot_free s = true) -> split_dot (join_dot p) = p.
Proof.
induction p as [|s p IH]; intros Hne Hfree; [contradiction|].
cbn [join_dot]. destruct p as [|s' p'].
- apply split_dot_free. apply dot_free_index. apply Hfree. simpl; auto.
- rewrite split_dot_cut by (apply dot_free_index; apply Hfree; simpl; auto).
  f_equal. apply IH; [discriminate|]. intros x Hx. apply Hfree. simpl; auto.
Qed.

Lemma nest_all_app (L1 L2 : list (list string * value)) (acc : outcome value) :
  nest_all (L1 ++ L2) acc = nest_all L2 (nest_all L1 acc).
Proof. unfold nest_all. apply fold_left_app. Qed.

Lemma nest_all_failed (L : list (list string * value)) (acc : outcome value) :
  (forall a, acc <> Ok a) -> nest_all L acc = acc.
Proof.
intros H. unfold nest_all. induction L as [|pv L IH]; [reflexivity|].
cbn [fold_left]. destruct acc as [a| | |]; [now destruct (H a) | | |]; exact IH.
Qed.

Lemma keys_from_nth (i : N) (l1 l2 : list string) (k : string) :
  keys_from i (l1 ++ k :: l2) = true -> k = index_str (i + N.of_nat (length l1)).
Proof.
revert i; induction l1 as [|a l1 IH]; intros i; cbn [app keys_from length].
- rewrite andb_true_iff, String.eqb_eq. intros [-> _]. f_equal. lia.
- rewrite andb_true_iff. intros [_ H]. rewrite (IH _ H). f_equal. lia.
Qed.

Lemma keys_from_ordered (i : N) (ks : list string) :
  keys_from i ks = true -> (i + N.of_nat (length ks) <= index_limit)%N -> ordered ks = true.
Proof.
revert i; induction ks as [|k ks IH]; intros i H Hb; [reflexivity|].
cbn [keys_from] in H. apply andb_true_iff in H as [Hk H]. apply String.eqb_eq in Hk. subst k.
cbn [ordered]. apply andb_true_iff. split.
- apply forallb_forall. intros k Hin.
  apply in_split in Hin as [l1 [l2 ->]]. apply keys_from_nth in H. subst k.
  cbn [length] in Hb. rewrite length_app in Hb. cbn [length] in Hb.
  unfold key_before. rewrite !array_index_str by lia. apply N.ltb_lt. lia.
- apply (IH (N.succ i)); [exact H | cbn [length] in Hb; lia].
Qed.

(** What the members of a rebuildable container have in common. *)
Lemma rebuildable_inv (k : kind) (ps : props) :
  rebuildable (VObj k ps) = true ->
  ordered (List.map fst ps) = true
  /\ (forall done key w rest, ps = done ++ (key, w) :: rest ->
        (k = Plain \/ (key = index_str (N.of_nat (length done))
                       /\ (N.of_nat (length done) < index_limit)%N)))
  /\ (forall key w, In (key, w) ps ->
        dot_free key = true
        /\ match w with
           | VObj _ ps' =>
               ps' <> [] /\ first_key_numeric ps' = isArray w /\ rebuildable w = true
           | VNull => False
           | _ => True
           end)
  /\ grown k (length ps) = k.
Proof.
cbn [rebuildable]. rewrite andb_true_iff, forallb_forall. intros [Hk Hch].
assert (Hmem : forall key w, In (key, w) ps ->
          dot_free key = true
          /\ match w with
             | VObj _ ps' =>
                 ps' <> [] /\ first_key_numeric ps' = isArray w /\ rebuildable w = true
             | VNull => False
             | _ => True
             end).
{ intros key w Hin. specialize (Hch (key, w) Hin). cbn beta iota in Hch.
  rewrite !andb_true_iff in Hch. destruct Hch as [[Hd _] Hw]. split; [exact Hd|].
  destruct w as [| | | | | |k' ps']; try exact I; try discriminate Hw.
  rewrite !andb_true_iff in Hw. destruct Hw as [[Hne Hfk] Hr].
  split; [|split; [|exact Hr]].
  - intros ->. discriminate Hne.
  - now apply Bool.eqb_prop in Hfk. }
destruct k as [|len].
- split; [exact Hk | split; [intros; left; reflexivity | split; [exact Hmem | reflexivity]]].
- rewrite !andb_true_iff in Hk. destruct Hk as [[Hlen Hb] Hkeys].
  apply N.eqb_eq in Hlen. apply N.leb_le in Hb.
  split; [|split; [|split; [exact Hmem|]]].
  + apply (keys_from_ordered 0); [exact Hkeys|]. rewrite length_map. lia.
  + intros done key w rest E. right. subst ps.
    rewrite List.map_app in Hkeys. cbn [List.map fst] in Hkeys.
    apply keys_from_nth in Hkeys. rewrite length_map in Hkeys.
    rewrite length_app in Hlen. cbn [length] in Hlen.
    split; [rewrite Hkeys; f_equal; lia | lia].
  + cbn [grown]. now rewrite Hlen.
Qed.

Lemma rebuildable_names (k : kind) (ps : props) :
  rebuildable (VObj k ps) = true ->
  forall key w, In (key, w) ps -> builtin_name key = false.
Proof.
cbn [rebuildable]. rewrite andb_true_iff, forallb_forall. intros [_ Hch] key w Hin.
specialize (Hch (key, w) Hin). cbn beta iota in Hch.
rewrite !andb_true_iff in Hch. destruct Hch as [[_ Hb] _]. now apply negb_true_iff in Hb.
Qed.

Lemma index_parses (s : string) (i : N) : array_index s = Some i -> number_parses s = true.
Proof.
intros H. apply spec_numeric_parses. unfold array_index in H. unfold spec_numeric_segment.
destruct (NilEmpty.uint_of_string s) as [d|]; [|discriminate H].
now destruct (uint_eq_dec (unorm d) d).
Qed.

Lemma set_prop_grows (k : kind) (done : props) (key : string) (x : value) :
  ordered (List.map fst done ++ [key]) = true ->
  (k = Plain \/ (key = index_str (N.of_nat (length done))
                 /\ (N.of_nat (length done) < index_limit)%N)) ->
  builtin_name key = false ->
  read (VObj (grown k (length done)) done) key = Ok VUndef
  /\ write (VObj (grown k (length done)) done) key x
     = Ok (VObj (grown k (S (length done))) (done ++ [(key, x)])).
Proof.
intros Ho Hk Hname.
assert (Hnew : lookup_prop key done = None).
{ apply lookup_none_notin. intros Hin.
  apply ordered_NoDup in Ho. apply NoDup_remove_2 in Ho.
  apply Ho. now rewrite app_nil_r. }
assert (Hi : inherited (VObj (grown k (length done)) done) key = false).
{ apply container_not_inherited. destruct Hk as [-> | [-> Hb]]; [left; auto | right].
  apply (index_parses _ (N.of_nat (length done))). now apply array_index_str. }
rewrite read_not_inherited, write_not_inherited by assumption. clear Hi Hname.
destruct k as [|len]; cbn [grown].
- cbn [get_prop set_prop]. rewrite Hnew. now rewrite put_last.
- destruct Hk as [Hk | [Hkey Hb]]; [discriminate Hk|].
  cbn [get_prop set_prop]. rewrite Hkey at 1 2. rewrite index_str_not_length by assumption.
  rewrite Hnew. split; [reflexivity|].
  rewrite Hkey at 1. rewrite array_index_str by assumption.
  rewrite put_last by assumption. do 3 f_equal. lia.
Qed.

(** Once the container under [key] is in place, each further path
    through [key] is nested inside it. *)
Lemma nest_all_inside (k : kind) (done : props) (key : string) :
  lookup_prop key done = None ->
  (k = Plain \/ key <> "length") ->
  forall (L : list (list string * value)) (c : value),
    is_container c = true ->
    nest_all (List.map (fun pv : list string * value => (key :: fst pv, snd pv)) L)
             (Ok (VObj k (done ++ [(key, c)])))
    = bind (nest_all L (Ok c)) (fun c' => Ok (VObj k (done ++ [(key, c')]))).
Proof.
intros Hnew Hk. induction L as [|[q v] L IH]; intros c Hc; [reflexivity|].
unfold nest_all in *. cbn [List.map fold_left fst snd bind].
rewrite nest_cons, read_member
  by (assumption || (apply (member_not_inherited _ _ _ c); now apply lookup_middle)).
rewrite lookup_middle by assumption. cbn [default from_option id bind].
destruct c as [| | | | | |kc pc]; try discriminate Hc. cbn [truthy].
destruct (nest v q (VObj kc pc)) as [c'| | |] eqn:E; cbn [bind].
- destruct (nest_keeps_kind _ _ _ _ _ E) as [k' [ps' [-> _]]].
  rewrite store_back_container by reflexivity.
  rewrite update_middle by assumption. now apply IH.
- now rewrite !(nest_all_failed _ (Throw e)) by discriminate.
- now rewrite !(nest_all_failed _ OutOfModel) by discriminate.
- now rewrite !(nest_all_failed _ OutOfFuel) by discriminate.
Qed.

Lemma leaves_first (k : kind) (key : string) (w : value) (rest : props) :
  rebuildable (VObj k ((key, w) :: rest)) = true ->
  exists q v L, leaves (VObj k ((key, w) :: rest)) = (key :: q, v) :: L.
Proof.
revert k key rest.
induction w as [| | b | z | | s | kw pw IH] using value_forall_ind; intros k key rest Hr;
  try (rewrite leaves_obj; cbn [flat_map entry_leaves is_container app]; eauto; fail).
destruct (rebuildable_inv _ _ Hr) as [_ [_ [Hm _]]].
destruct (Hm key (VObj kw pw) (or_introl eq_refl)) as [_ [Hne [_ Hrw]]].
destruct pw as [|[key1 w1] pw]; [contradiction|].
inversion IH as [|? ? H1 _]; subst. cbn [snd] in H1.
destruct (H1 kw key1 pw Hrw) as [q [v [L HL]]].
rewrite leaves_obj. cbn [flat_map]. rewrite entry_leaves_container by reflexivity.
rewrite HL. cbn [List.map fst snd app]. eauto.
Qed.

Lemma rebuild_members :
  forall t, rebuildable t = true ->
    forall k ps, t = VObj k ps ->
      forall rest done, ps = done ++ rest ->
        nest_all (leaves (VObj k rest)) (Ok (VObj (grown k (length done)) done))
        = Ok (VObj k ps).
Proof.
induction t as [| | b | z | | s | kt pt IH] using value_forall_ind; intros Hr k ps E;
  try discriminate E.
injection E as <- <-.
destruct (rebuildable_inv _ _ Hr) as [Ho [Hpos [Hm Hg]]].
induction rest as [|[key w] rest IHrest]; intros done Eps.
- rewrite app_nil_r in Eps. subst done. now rewrite Hg.
- rewrite leaves_obj. cbn [flat_map]. rewrite nest_all_app. rewrite <- leaves_obj with (k := kt).
  assert (Hin : In (key, w) pt) by (rewrite Eps; apply in_or_app; simpl; auto).
  assert (Ho' : ordered (List.map fst done ++ [key]) = true).
  { rewrite Eps, List.map_app in Ho. cbn [List.map fst] in Ho.
    change (key :: List.map fst rest) with ([key] ++ List.map fst rest) in Ho.
    rewrite app_assoc in Ho. now apply ordered_prefix in Ho. }
  assert (Hnew : lookup_prop key done = None).
  { apply lookup_none_notin. intros Hk.
    apply ordered_NoDup in Ho'. apply NoDup_remove_2 in Ho'.
    apply Ho'. now rewrite app_nil_r. }
  pose proof (Hpos done key w rest Eps) as Hk.
  pose proof (rebuildable_names _ _ Hr key w Hin) as Hname.
  assert (Hk' : grown kt (S (length done)) = Plain \/ key <> "length").
  { destruct Hk as [-> | [-> Hb]]; [left; reflexivity | right].
    intros Hl. pose proof (index_str_not_length _ Hb) as Hn. rewrite Hl in Hn. discriminate Hn. }
  assert (Hstep : nest_all (entry_leaves (key, w)) (Ok (VObj (grown kt (length done)) done))
                  = Ok (VObj (grown kt (S (length done))) (done ++ [(key, w)]))).
  { destruct (Hm key w Hin) as [_ Hw].
    destruct (is_container w) eqn:Hcw.
    - destruct w as [| | | | | |kw pw]; try discriminate Hcw.
      destruct Hw as [Hne [Hfk Hrw]].
      destruct pw as [|[key1 w1] pw]; [contradiction|].
      destruct (leaves_first kw key1 w1 pw Hrw) as [q1 [v1 [L HL]]].
      rewrite entry_leaves_container by reflexivity. rewrite HL.
      cbn [List.map fst snd]. unfold nest_all at 1. cbn [fold_left fst snd bind].
      rewrite nest_cons.
      destruct (set_prop_grows kt done key
                  (if isNaN_Number (head (key1 :: q1)) then empty_object else empty_array)
                  Ho' Hk Hname) as [Hget Hset].
      rewrite Hget. cbn [bind truthy]. cbv zeta.
      assert (Efresh : (if isNaN_Number (head (key1 :: q1))
                        then match key1 :: q1 with
                             | [] => v1
                             | _ :: _ => empty_object
                             end
                        else empty_array)
                       = VObj (grown kw 0) []).
      { cbn [head isNaN_Number]. cbn [first_key_numeric isArray] in Hfk.
        destruct kw; rewrite Hfk; reflexivity. }
      rewrite Efresh.
      assert (Efresh' : (if isNaN_Number (head (key1 :: q1)) then empty_object else empty_array)
                        = VObj (grown kw 0) []).
      { cbn [head isNaN_Number]. cbn [first_key_numeric isArray] in Hfk.
        destruct kw; rewrite Hfk; reflexivity. }
      rewrite Efresh' in Hset. rewrite Hset. cbn [bind].
      assert (Hw : nest_all (leaves (VObj kw ((key1, w1) :: pw))) (Ok (VObj (grown kw 0) []))
                   = Ok (VObj kw ((key1, w1) :: pw))).
      { apply (children_forall
                 (fun w => rebuildable w = true -> forall k ps, w = VObj k ps ->
                    forall rest done, ps = done ++ rest ->
                      nest_all (leaves (VObj k rest)) (Ok (VObj (grown k (length done)) done))
                      = Ok (VObj k ps))
                 pt IH key (VObj kw ((key1, w1) :: pw)) Hin Hrw kw ((key1, w1) :: pw) eq_refl
                 ((key1, w1) :: pw) [] eq_refl). }
      rewrite HL in Hw. unfold nest_all in Hw at 1. cbn [fold_left fst snd bind] in Hw.
      fold (nest_all L (nest v1 (key1 :: q1) (VObj (grown kw 0) []))) in Hw.
      fold (nest_all (List.map (fun pv : list string * value => (key :: fst pv, snd pv)) L)).
      destruct (nest v1 (key1 :: q1) (VObj (grown kw 0) [])) as [c1| | |] eqn:E1; cbn [bind].
      + destruct (nest_keeps_kind _ _ _ _ _ E1) as [k1 [p1 [-> _]]].
        rewrite store_back_container by reflexivity.
        rewrite update_middle by assumption.
        pose proof (nest_all_inside _ done key Hnew Hk' L (VObj k1 p1) eq_refl) as HI.
        unfold nest_all in HI at 1. rewrite HI, Hw. reflexivity.
      + rewrite (nest_all_failed _ (Throw e)) in Hw by discriminate. discriminate Hw.
      + rewrite (nest_all_failed _ OutOfModel) in Hw by discriminate. discriminate Hw.
      + rewrite (nest_all_failed _ OutOfFuel) in Hw by discriminate. discriminate Hw.
    - rewrite entry_leaves_scalar by assumption.
      unfold nest_all. cbn [fold_left fst snd bind]. rewrite nest_cons.
      destruct (set_prop_grows kt done key w Ho' Hk Hname) as [Hget Hset].
      rewrite Hget. cbn [bind truthy head isNaN_Number]. cbv zeta. rewrite Hset.
      cbn [bind nest]. destruct w; try discriminate Hcw; reflexivity. }
  rewrite Hstep.
  specialize (IHrest (done ++ [(key, w)])).
  rewrite length_app, Nat.add_1_r in IHrest. apply IHrest.
  now rewrite <- app_assoc.
Qed.

Lemma leaves_dot_free :
  forall t, rebuildable t = true ->
            forall p v, In (p, v) (leaves t) ->
                        p <> [] /\ forall s, In s p -> dot_free s = true.
Proof.
induction t as [| | b | z | | s | k ps IH] using value_forall_ind; intros Hr p v Hin;
  try contradiction.
destruct (rebuildable_inv _ _ Hr) as [_ [_ [Hm _]]].
rewrite leaves_obj in Hin. apply in_flat_map in Hin as [[key w] [Hkw Hin]].
destruct (Hm key w Hkw) as [Hd Hw].
unfold entry_leaves in Hin. destruct (is_container w) eqn:Hcw.
- destruct w as [| | | | | |kw pw]; try discriminate Hcw. destruct Hw as [_ [_ Hrw]].
  apply in_map_iff in Hin as [[q v'] [[= <- <-] Hq]].
  split; [discriminate|]. intros s [<- | Hs]; [exact Hd|].
  apply (children_forall
           (fun w => rebuildable w = true -> forall p v, In (p, v) (leaves w) ->
                     p <> [] /\ forall s, In s p -> dot_free s = true)
           ps IH key (VObj kw pw) Hkw Hrw q v' Hq). exact Hs.
- destruct Hin as [[= <- <-] | []]. split; [discriminate|].
  intros s [<- | []]. exact Hd.
Qed.

Lemma rebuildable_null_free : forall t, rebuildable t = true -> is_container t = true ->
                                        null_free t = true.
Proof.
induction t as [| | b | z | | s | k ps IH] using value_forall_ind; intros Hr Hc;
  try discriminate Hc.
destruct (rebuildable_inv _ _ Hr) as [_ [_ [Hm _]]].
cbn [null_free]. apply forallb_forall. intros [key w] Hin.
destruct (Hm key w Hin) as [_ Hw].
destruct w as [| | | | | |kw pw]; try reflexivity; [contradiction|].
destruct Hw as [_ [_ Hrw]].
apply (children_forall (fun w => rebuildable w = true -> is_container w = true ->
                                 null_free w = true) ps IH key (VObj kw pw) Hin Hrw eq_refl).
Qed.

Lemma unflatten_joined (L : list (list string * value)) (acc : outcome value) :
  (forall p v, In (p, v) L -> p <> [] /\ forall s, In s p -> dot_free s = true) ->
  fold_left unflatten_reducer
            (List.map (fun pv : list string * value => (join_dot (fst pv), snd pv)) L) acc
  = nest_all L acc.
Proof.
revert acc; induction L as [|[p v] L IH]; intros acc H; [reflexivity|].
unfold nest_all in *. cbn [List.map fold_left fst snd].
rewrite <- IH by (intros p' v' Hin; apply (H p' v'); simpl; auto).
f_equal. unfold unflatten_reducer.
destruct (H p v (or_introl eq_refl)) as [Hne Hfree].
now rewrite split_join_dot.
Qed.

End Rebuilding.

(** X21, flatten then [unflattenObject]: the tree comes back.  For a
    plain object [t] that [unflattenObject] can have built, the walker
    completes, and unflattening the mapping of its yielded paths, each
    joined by dots, to its yielded values returns [t] itself, with the
    same keys in the same order at every depth.  (At every depth: a plain
    object lists its keys in [Object.keys] order, an array holds its
    elements 0 to length - 1 and nothing else, no key has a dot or is the
    name of a member of [Object.prototype], no object or array is empty,
    no value is [null], and below the root a container is an array
    exactly when its first key is a text [Number] converts.  The flat
    mapping is in [Object.keys] order.) *)
Theorem unflattenObject_rebuilds_the_flattened_tree (ps : props) :
  Rebuild.rebuildable (VObj Plain ps) = true ->
  exists F,
    flatten (VObj Plain ps) = Ok F
    /\ (ordered (List.map fst F) = true ->
        unflattenObject (VObj Plain F) = Ok (VObj Plain ps)).
Proof.
intros Hr.
exists (List.map (fun pv : list string * value => (join_dot (fst pv), snd pv))
                 (leaves (VObj Plain ps))).
split.
- unfold flatten, walkThrough.
  rewrite (walk_null_free (VObj Plain ps) eq_refl
             (rebuildable_null_free (VObj Plain ps) Hr eq_refl) []). cbn [bind].
  rewrite List.map_map. cbn [fst snd app]. reflexivity.
- intros _. unfold unflattenObject. cbn [entries bind].
  rewrite unflatten_joined by apply (leaves_dot_free _ Hr).
  apply (rebuild_members (VObj Plain ps) Hr Plain ps eq_refl ps [] eq_refl).
Qed.

Lemma unflattenObject_rebuilds_the_flattened_tree_witness :
  exists F,
    flatten (VObj Plain [("a", VObj Plain [("b", array_of [VNum 8; VStr "x"]); ("c", VNum 0)]);
                         ("d", VNum 3)]) = Ok F
    /\ unflattenObject (VObj Plain F)
       = Ok (VObj Plain [("a", VObj Plain [("b", array_of [VNum 8; VStr "x"]); ("c", VNum 0)]);
                         ("d", VNum 3)]).
Proof.
destruct (unflattenObject_rebuilds_the_flattened_tree
            [("a", VObj Plain [("b", array_of [VNum 8; VStr "x"]); ("c", VNum 0)]);
             ("d", VNum 3)] eq_refl) as [F [E H]].
exists F. split; [exact E|]. apply H.
vm_compute in E. injection E as <-. reflexivity.
Defined.
